(** * todo-list: entity store, secondary indexes, query engine and text query parser

    A shallow embedding of the model layer of [lesson-01/todo-list]:
    - [src/model/entities.ts]                 (the records),
    - [src/model/services/IndexStore.ts]      (class [IndexStore]),
    - [src/model/validation.ts]               ([createTask], [updateTask], validators),
    - [src/model/services/TaskService.ts]     (class [TaskService]),
    - [src/model/services/SearchService.ts]   (class [SearchService]),
    - [src/model/services/DataRepository.ts]  (classes [ProjectService] and
                                               [TagService], [getDataStore],
                                               [setDataStore]),
    - [src/core/types.ts]                     (the basic types and [Result]),
    of the properties of the design document that can be stated over it, and
    of further properties of the same code: well-formed indexes, the project
    hierarchy, the methods of [TaskService], save and load, the searches by
    date and the parsed queries.

    Mutable objects become values, and a method that mutates [this.store]
    becomes a function that returns the next store.  A JavaScript [Map] or
    [Set] iterates in insertion order, and the order of the result of
    [searchTasks] is that order, so a [Map] is an association list and a [Set]
    a list, both kept in insertion order.  The functions of the JavaScript
    runtime ([Date], [toLowerCase], [parseInt], [Array.prototype.sort]) are
    the fields of a class [JsRuntime], with what the language guarantees of
    them; every property holds for every runtime, and the examples run on the
    runtime [hostRuntime], whose sort is the one of V8.  A reading of the
    clock is an argument [now], in milliseconds since the epoch, and a drawn
    UUID is an argument [id]. *)

From stdpp Require Import base decidable option list strings sorting.
From Stdlib Require Import Ascii ZArith Lia Permutation Sorted.
From Stdlib Require OrderedTypeEx.

#[local] Set Warnings "-clear-no-such-hyp".

Open Scope Z_scope.

(* ------------------------------------------------------------------ *)
(** ** JavaScript values the code relies on *)

(** A JavaScript number that the code obtains from [Date.prototype.getTime],
    [parseInt] or arithmetic on them: an integer or [NaN]. *)
Inductive number :=
  | Num (z : Z)
  | NaN.

(** [a < b] and [a <= b] on numbers: false as soon as one side is NaN. *)
Definition num_lt (a b : number) : bool :=
  match a, b with
  | Num x, Num y => bool_decide (x < y)
  | _, _ => false
  end.

Definition num_le (a b : number) : bool :=
  match a, b with
  | Num x, Num y => bool_decide (x <= y)
  | _, _ => false
  end.

(** [a - b] *)
Definition num_sub (a b : number) : number :=
  match a, b with
  | Num x, Num y => Num (x - y)
  | _, _ => NaN
  end.

(** [Number.MAX_SAFE_INTEGER] *)
Definition MAX_SAFE_INTEGER : Z := 9007199254740991.

(** The largest time value of a [Date] (ECMAScript: 8.64e15 ms around the epoch). *)
Definition MAX_TIME_VALUE : Z := 8640000000000000.

#[global] Instance number_eq_dec : EqDecision number.
Proof. solve_decision. Defined.

(** Truthiness of an optional string ([undefined] and [""] are falsy). *)
Definition truthy (o : option string) : bool :=
  match o with
  | Some s => bool_decide (s ≠ "")
  | None => false
  end.

(** [xs && xs.length > 0]: the array when it is given and not empty. *)
Definition nonEmpty {A} (xs : option (list A)) : option (list A) :=
  match xs with
  | Some l => if bool_decide (0 < length l)%nat then Some l else None
  | None => None
  end.

(** A call either returns or throws. *)
Inductive Outcome (A : Type) :=
  | Returns (a : A)
  | Throws (msg : string).
Arguments Returns {A} a.
Arguments Throws {A} msg.

Definition obind {A B} (o : Outcome A) (k : A → Outcome B) : Outcome B :=
  match o with
  | Returns a => k a
  | Throws m => Throws m
  end.

(** [SortCompare(x, y)] of [Array.prototype.sort] with a comparator: the
    number that [comparefn(x, y)] returns, [NaN] read as [+0]. *)
Definition SortCompare {A} (comparefn : A → A → number) (x y : A) : Z :=
  match comparefn x y with
  | Num v => v
  | NaN => 0
  end.

(** A consistent comparator for the values [l], as the language defines it:
    [a =CF a]; [a =CF b] gives [b =CF a]; and [=CF], [<CF] and [>CF] are
    transitive. *)
Record ConsistentComparator {A} (comparefn : A → A → number) (l : list A) : Prop := {
  consistent_refl : ∀ a, a ∈ l → SortCompare comparefn a a = 0;
  consistent_sym : ∀ a b, a ∈ l → b ∈ l →
    SortCompare comparefn a b = 0 → SortCompare comparefn b a = 0;
  consistent_trans_eq : ∀ a b c, a ∈ l → b ∈ l → c ∈ l →
    SortCompare comparefn a b = 0 → SortCompare comparefn b c = 0 →
    SortCompare comparefn a c = 0;
  consistent_trans_lt : ∀ a b c, a ∈ l → b ∈ l → c ∈ l →
    SortCompare comparefn a b < 0 → SortCompare comparefn b c < 0 →
    SortCompare comparefn a c < 0;
  consistent_trans_gt : ∀ a b c, a ∈ l → b ∈ l → c ∈ l →
    SortCompare comparefn a b > 0 → SortCompare comparefn b c > 0 →
    SortCompare comparefn a c > 0
}.

(** The host functions of the JavaScript runtime that the code calls and that
    are not part of the repository.  Instants are milliseconds since the
    epoch. *)
Class JsRuntime := {
  (** [String.prototype.toLowerCase] *)
  toLowerCase : string → string;
  (** [new Date(s).getTime()]; [NaN] for an Invalid Date *)
  Date_getTime : string → number;
  (** [d.toISOString()] of a valid date with the given time value *)
  Date_toISOString : Z → string;
  (** [new Date(now.getFullYear(), now.getMonth(), now.getDate())]: local midnight *)
  Date_localMidnight : Z → Z;
  (** [d.setDate(d.getDate() + n)] on a copy of the date with time value [t] *)
  Date_addDays : Z → number → number;
  (** [d.setMonth(d.getMonth() + 1)] on a copy of the date with time value [t] *)
  Date_addMonth : Z → number;
  (** [parseInt(s)] *)
  parseInt : string → number;
  (** a time value is within the range of [Date] *)
  Date_getTime_range : ∀ s z, Date_getTime s = Num z → - MAX_TIME_VALUE <= z <= MAX_TIME_VALUE;
  (** [new Date("")] is an Invalid Date *)
  Date_getTime_empty : Date_getTime "" = NaN;
  (** [Array.prototype.sort(comparefn)] on an array without holes and without
      [undefined].  The result holds the elements of the array.  When the
      comparator is consistent for them, the result is sorted by it and the
      sort is stable; when it is not, the order is implementation-defined. *)
  Array_sort : ∀ A : Type, (A → A → number) → list A → list A;
  Array_sort_permutation : ∀ A (comparefn : A → A → number) (l : list A),
    Array_sort A comparefn l ≡ₚ l;
  Array_sort_sorted : ∀ A (comparefn : A → A → number) (l : list A),
    ConsistentComparator comparefn l →
    StronglySorted (λ x y, SortCompare comparefn x y <= 0) (Array_sort A comparefn l);
  Array_sort_stable : ∀ A (comparefn : A → A → number) (l : list A),
    ConsistentComparator comparefn l →
    ∀ a, a ∈ l →
      filter (λ x, SortCompare comparefn a x = 0) (Array_sort A comparefn l)
      = filter (λ x, SortCompare comparefn a x = 0) l
}.
Arguments Array_sort {_ A} comparefn l.

(* ------------------------------------------------------------------ *)
(** ** [Set<T>]: a list without repetition, in insertion order *)

Module JsSet.
Section ops.
Context {A : Type} `{EqDecision A}.

Local Abbreviation t := (list A).

Definition empty : t := [].

Definition has (s : t) (x : A) : bool := bool_decide (x ∈ s).

(** [s.add(x)]: appended at the end unless already a member *)
Definition add (s : t) (x : A) : t := if has s x then s else s ++ [x].

(** [s.delete(x)] *)
Definition delete (s : t) (x : A) : t := filter (λ y, y ≠ x) s.

Definition size (s : t) : nat := length s.

(** [xs.forEach(x => s.add(x))] *)
Definition add_all (s : t) (xs : list A) : t := foldl add s xs.

(** [new Set(iterable)] *)
Definition of_list (xs : list A) : t := add_all empty xs.
End ops.
Abbreviation t A := (list A) (only parsing).
End JsSet.


(* ------------------------------------------------------------------ *)
(** ** [Map<K, V>]: an association list in insertion order *)

Module JsMap.
Section ops.
Context {K V : Type} `{EqDecision K}.

Local Abbreviation t := (list (K * V)).

Definition empty : t := [].

(** [m.get(k)]; [None] is [undefined] *)
Fixpoint get (m : t) (k : K) : option V :=
  match m with
  | [] => None
  | (k', v) :: m' => if decide (k' = k) then Some v else get m' k
  end.

Definition has (m : t) (k : K) : bool :=
  match get m k with Some _ => true | None => false end.

(** [m.set(k, v)]: an existing key keeps its position, a new one goes last *)
Fixpoint set (m : t) (k : K) (v : V) : t :=
  match m with
  | [] => [(k, v)]
  | (k', v') :: m' =>
      if decide (k' = k) then (k, v) :: m' else (k', v') :: set m' k v
  end.

(** [m.delete(k)] *)
Definition delete (m : t) (k : K) : t := filter (λ kv, kv.1 ≠ k) m.

(** [m.keys()], [m.values()] *)
Definition keys (m : t) : list K := m.*1.
Definition values (m : t) : list V := m.*2.
End ops.
Abbreviation t K V := (list (K * V)) (only parsing).
End JsMap.

(* ------------------------------------------------------------------ *)
(** ** Strings

    A string is a sequence of UTF-16 code units below 256, one [ascii] each:
    the strings over U+0000 to U+00FF (ISO-8859-1).  [length], [startsWith],
    [substring], [includes], [trim], [split] and [join] are the methods of
    [String.prototype] and [Array.prototype] on such strings, and the order of
    [String.ltb] is the order of [<] on them. *)

Definition startsWith (s p : string) : bool := String.prefix p s.

(** [s.substring(n)] *)
Fixpoint substring_from (n : nat) (s : string) : string :=
  match n, s with
  | O, _ => s
  | S n', String _ s' => substring_from n' s'
  | S _, EmptyString => EmptyString
  end.

(** [s.includes(sub)] *)
Fixpoint includes (s sub : string) : bool :=
  String.prefix sub s ||
  match s with
  | String _ s' => includes s' sub
  | EmptyString => false
  end.

(** The code units below 256 that [\s] matches and [trim] removes: the white
    space U+0009, U+000B, U+000C, U+0020, U+00A0 and the line terminators
    U+000A, U+000D.  (The others are U+1680, U+2000 to U+200A, U+2028, U+2029,
    U+202F, U+205F, U+3000 and U+FEFF.) *)
Definition is_ws (c : ascii) : bool :=
  let n := nat_of_ascii c in
  bool_decide (n = 32 ∨ (9 <= n <= 13) ∨ n = 160)%nat.

Fixpoint trimStart (s : string) : string :=
  match s with
  | String c s' => if is_ws c then trimStart s' else s
  | EmptyString => EmptyString
  end.

Fixpoint trimEnd (s : string) : string :=
  match s with
  | String c s' =>
      match trimEnd s' with
      | EmptyString => if is_ws c then EmptyString else String c EmptyString
      | r => String c r
      end
  | EmptyString => EmptyString
  end.

(** [s.trim()] *)
Definition trim (s : string) : string := trimEnd (trimStart s).

(** [s.split(sep)] for a separator matching exactly the characters [p], one
    or more of them in a row when [greedy] (the pattern [/\s+/]), exactly one
    otherwise (a one-character string separator).  [cur] is the piece being
    read, [in_sep] tells that the previous character belonged to a separator. *)
Fixpoint split_go (p : ascii → bool) (greedy : bool) (s : string)
    (cur : string) (in_sep : bool) : list string :=
  match s with
  | EmptyString => [cur]
  | String c s' =>
      if p c then
        if in_sep && greedy then split_go p greedy s' EmptyString true
        else cur :: split_go p greedy s' EmptyString true
      else split_go p greedy s' (cur +:+ String c EmptyString) false
  end.

(** [s.split(/\s+/)] *)
Definition split_ws (s : string) : list string := split_go is_ws true s EmptyString false.

(** [s.split(':')] *)
Definition split_colon (s : string) : list string :=
  split_go (λ c, bool_decide (c = ":"%char)) false s EmptyString false.

(** [xs.join(sep)] *)
Definition join (sep : string) (xs : list string) : string := String.concat sep xs.

Definition is_digit (c : ascii) : bool :=
  let n := nat_of_ascii c in bool_decide (48 <= n <= 57)%nat.

Definition is_hex (c : ascii) : bool :=
  let n := nat_of_ascii c in
  bool_decide ((48 <= n <= 57) ∨ (97 <= n <= 102) ∨ (65 <= n <= 70))%nat.

(** One position of the fixed-length regular expressions of the code. *)
Inductive CharClass :=
  | Digit                 (* \d *)
  | Hex                   (* [0-9a-f] with the i flag *)
  | Lit (c : ascii)       (* a literal character *)
  | OneOf (cs : list ascii).

Definition class_matches (k : CharClass) (c : ascii) : bool :=
  match k with
  | Digit => is_digit c
  | Hex => is_hex c
  | Lit c' => bool_decide (c = c')
  | OneOf cs => bool_decide (c ∈ cs)
  end.

(** [/^...$/.test(s)] for a pattern that is a sequence of character classes *)
Fixpoint regex_test (pat : list CharClass) (s : string) : bool :=
  match pat, s with
  | [], EmptyString => true
  | k :: pat', String c s' => class_matches k c && regex_test pat' s'
  | _, _ => false
  end.

(* ------------------------------------------------------------------ *)
(** ** core/types.ts and model/entities.ts *)

(** The types of [core/types.ts].  [ID] and [Timestamp] are strings; the
    string-literal union [Status] has its four values; a [Priority] is a
    number, [1 | 2 | 3 | 4 | 5] for the type checker ([1] the highest
    priority), and as in the running program nothing but validation restricts
    it; [SortField] and [SortDirection] have the values of their unions. *)
Definition ID := string.
Definition Timestamp := string.

Inductive Status := todo | doing | done | archived.

#[global] Instance Status_eq_dec : EqDecision Status.
Proof. solve_decision. Defined.

Definition Priority := Z.

Inductive SortField := title | priority | createdAt | updatedAt | dueAt.
Inductive SortDirection := asc | desc.

#[global] Instance SortField_eq_dec : EqDecision SortField.
Proof. solve_decision. Defined.
#[global] Instance SortDirection_eq_dec : EqDecision SortDirection.
Proof. solve_decision. Defined.

(** [Result<T>] of [core/types.ts] with its constructors [success(data)] and
    [failure(error)]; every failure of the services is
    [failure(new Error(message))], so a failure carries the message. *)
Inductive Result (A : Type) :=
  | success (data : A)
  | failure (message : string).
Arguments success {A} data.
Arguments failure {A} message.
#[global] Instance Result_eq_dec {A} `{EqDecision A} : EqDecision (Result A).
Proof. solve_decision. Defined.

Module Task.
Record t := mk {
  id : ID;
  title : string;
  notes : option string;
  status : Status;
  priority : Priority;
  projectId : option ID;
  tags : list ID;
  createdAt : Timestamp;
  updatedAt : Timestamp;
  dueAt : option Timestamp;
  completedAt : option Timestamp
}.
End Task.
Abbreviation Task := Task.t.
#[global] Instance Task_eq_dec : EqDecision Task.
Proof. solve_decision. Defined.

(** [order] is a number, here a whole number or [NaN]: validation asks that it
    is not below 0, which [NaN] is not either. *)
Module Project.
Record t := mk {
  id : ID;
  name : string;
  order : number;
  parentId : option ID;
  createdAt : Timestamp;
  updatedAt : Timestamp
}.
End Project.
Abbreviation Project := Project.t.
#[global] Instance Project_eq_dec : EqDecision Project.
Proof. solve_decision. Defined.

Module Tag.
Record t := mk {
  id : ID;
  name : string;
  color : option string;
  createdAt : Timestamp;
  updatedAt : Timestamp
}.
End Tag.
Abbreviation Tag := Tag.t.
#[global] Instance Tag_eq_dec : EqDecision Tag.
Proof. solve_decision. Defined.

Module CreateTaskInput.
Record t := mk {
  title : string;
  notes : option string;
  status : option Status;
  priority : option Priority;
  projectId : option ID;
  tags : option (list ID);
  dueAt : option Timestamp
}.
End CreateTaskInput.
Abbreviation CreateTaskInput := CreateTaskInput.t.

Module UpdateTaskInput.
Record t := mk {
  id : ID;
  title : option string;
  notes : option string;
  status : option Status;
  priority : option Priority;
  projectId : option ID;
  tags : option (list ID);
  dueAt : option Timestamp
}.
End UpdateTaskInput.
Abbreviation UpdateTaskInput := UpdateTaskInput.t.

Module CreateTagInput.
Record t := mk {
  name : string;
  color : option string
}.
End CreateTagInput.
Abbreviation CreateTagInput := CreateTagInput.t.

(** In the update inputs of projects and tags an absent key is [None]. *)
Module UpdateTagInput.
Record t := mk {
  id : ID;
  name : option string;
  color : option string
}.
End UpdateTagInput.
Abbreviation UpdateTagInput := UpdateTagInput.t.

Module CreateProjectInput.
Record t := mk {
  name : string;
  order : option number;
  parentId : option ID
}.
End CreateProjectInput.
Abbreviation CreateProjectInput := CreateProjectInput.t.

Module UpdateProjectInput.
Record t := mk {
  id : ID;
  name : option string;
  order : option number;
  parentId : option ID
}.
End UpdateProjectInput.
Abbreviation UpdateProjectInput := UpdateProjectInput.t.

Module DataStore.
Record t := mk {
  version : Z;
  tasks : list Task;
  projects : list Project;
  tags : list Tag;
  lastModified : Timestamp
}.
End DataStore.
Abbreviation DataStore := DataStore.t.
#[global] Instance DataStore_eq_dec : EqDecision DataStore.
Proof. solve_decision. Defined.

Module SearchQuery.
Record t := mk {
  text : option string;
  statuses : option (list Status);
  priorities : option (list Priority);
  tags : option (list ID);
  projectId : option ID;
  dueBefore : option Timestamp;
  sort : option (SortField * SortDirection)
}.
(** [{}] *)
Definition empty : t := mk None None None None None None None.
End SearchQuery.
Abbreviation SearchQuery := SearchQuery.t.
#[global] Instance SearchQuery_eq_dec : EqDecision SearchQuery.
Proof. solve_decision. Defined.

Module TaskListItem.
Record t := mk {
  task : Task;
  project : option Project;
  tagObjects : list Tag;
  isOverdue : bool;
  daysUntilDue : option number
}.
End TaskListItem.
Abbreviation TaskListItem := TaskListItem.t.
#[global] Instance TaskListItem_eq_dec : EqDecision TaskListItem.
Proof. solve_decision. Defined.

(* ------------------------------------------------------------------ *)
(** ** model/services/IndexStore.ts *)

Module IndexStore.

Record t := mk {
  tasks : JsMap.t ID Task;
  projects : JsMap.t ID Project;
  tags : JsMap.t ID Tag;
  tagByName : JsMap.t string Tag;
  tasksByProject : JsMap.t ID (JsSet.t ID);
  tasksByTag : JsMap.t ID (JsSet.t ID);
  tasksByStatus : JsMap.t Status (JsSet.t ID);
  tasksByPriority : JsMap.t Priority (JsSet.t ID);
  overdueTasks : JsSet.t ID
}.

(** [new IndexStore()] *)
Definition new : t := mk [] [] [] [] [] [] [] [] [].

(** The statements that [updateTaskIndexes] repeats for each index:
    [if (!index.has(k)) index.set(k, new Set()); index.get(k)!.add(id)].
    The set is mutated in place, so the key keeps its position. *)
Definition bucket_add {K} `{EqDecision K}
    (index : JsMap.t K (JsSet.t ID)) (k : K) (id : ID) : JsMap.t K (JsSet.t ID) :=
  let index1 := if JsMap.has index k then index else JsMap.set index k JsSet.empty in
  match JsMap.get index1 k with
  | Some ids => JsMap.set index1 k (JsSet.add ids id)
  | None => index1
  end.

(** The statements that [removeTaskFromIndexes] repeats for each index:
    [const s = index.get(k); if (s) { s.delete(id); if (s.size === 0) index.delete(k) }]. *)
Definition bucket_remove {K} `{EqDecision K}
    (index : JsMap.t K (JsSet.t ID)) (k : K) (id : ID) : JsMap.t K (JsSet.t ID) :=
  match JsMap.get index k with
  | Some ids =>
      let ids' := JsSet.delete ids id in
      if bool_decide (JsSet.size ids' = 0%nat) then JsMap.delete index k
      else JsMap.set index k ids'
  | None => index
  end.

Section methods.
Context `{JsRuntime}.

(** [task.dueAt && new Date(task.dueAt) < new Date() && task.status !== 'done'],
    with [now] the reading of the clock *)
Definition overdue_at (now : Z) (task : Task) : bool :=
  match Task.dueAt task with
  | Some due =>
      bool_decide (due ≠ "") && num_lt (Date_getTime due) (Num now)
        && bool_decide (Task.status task ≠ done)
  | None => false
  end.

Definition updateTaskIndexes (s : t) (task : Task) (now : Z) : t :=
  let byProject :=
    match Task.projectId task with
    | Some p => if bool_decide (p ≠ "") then bucket_add (tasksByProject s) p (Task.id task)
                else tasksByProject s
    | None => tasksByProject s
    end in
  let byTag :=
    foldl (λ index tagId, bucket_add index tagId (Task.id task)) (tasksByTag s) (Task.tags task) in
  let byStatus := bucket_add (tasksByStatus s) (Task.status task) (Task.id task) in
  let byPriority := bucket_add (tasksByPriority s) (Task.priority task) (Task.id task) in
  let overdue :=
    if overdue_at now task then JsSet.add (overdueTasks s) (Task.id task)
    else JsSet.delete (overdueTasks s) (Task.id task) in
  mk (tasks s) (projects s) (tags s) (tagByName s) byProject byTag byStatus byPriority overdue.

Definition removeTaskFromIndexes (s : t) (task : Task) : t :=
  let byProject :=
    match Task.projectId task with
    | Some p => if bool_decide (p ≠ "") then bucket_remove (tasksByProject s) p (Task.id task)
                else tasksByProject s
    | None => tasksByProject s
    end in
  let byTag :=
    foldl (λ index tagId, bucket_remove index tagId (Task.id task)) (tasksByTag s) (Task.tags task) in
  let byStatus := bucket_remove (tasksByStatus s) (Task.status task) (Task.id task) in
  let byPriority := bucket_remove (tasksByPriority s) (Task.priority task) (Task.id task) in
  mk (tasks s) (projects s) (tags s) (tagByName s) byProject byTag byStatus byPriority
     (JsSet.delete (overdueTasks s) (Task.id task)).

(** [this.tasks.set(id, task)] *)
Definition set_tasks (s : t) (m : JsMap.t ID Task) : t :=
  mk m (projects s) (tags s) (tagByName s) (tasksByProject s) (tasksByTag s)
     (tasksByStatus s) (tasksByPriority s) (overdueTasks s).

Definition set_projects (s : t) (m : JsMap.t ID Project) : t :=
  mk (tasks s) m (tags s) (tagByName s) (tasksByProject s) (tasksByTag s)
     (tasksByStatus s) (tasksByPriority s) (overdueTasks s).

Definition set_tags (s : t) (m : JsMap.t ID Tag) (byName : JsMap.t string Tag) : t :=
  mk (tasks s) (projects s) m byName (tasksByProject s) (tasksByTag s)
     (tasksByStatus s) (tasksByPriority s) (overdueTasks s).

Definition addTask (s : t) (task : Task) (now : Z) : t :=
  updateTaskIndexes (set_tasks s (JsMap.set (tasks s) (Task.id task) task)) task now.

Definition updateTask (s : t) (task : Task) (now : Z) : t :=
  let s1 :=
    match JsMap.get (tasks s) (Task.id task) with
    | Some oldTask => removeTaskFromIndexes s oldTask
    | None => s
    end in
  updateTaskIndexes (set_tasks s1 (JsMap.set (tasks s1) (Task.id task) task)) task now.

Definition removeTask (s : t) (id : ID) : t :=
  match JsMap.get (tasks s) id with
  | Some task =>
      let s1 := removeTaskFromIndexes s task in
      set_tasks s1 (JsMap.delete (tasks s1) id)
  | None => s
  end.

Definition addProject (s : t) (project : Project) : t :=
  set_projects s (JsMap.set (projects s) (Project.id project) project).

Definition updateProject (s : t) (project : Project) : t :=
  set_projects s (JsMap.set (projects s) (Project.id project) project).

Definition removeProject (s : t) (id : ID) : t :=
  set_projects s (JsMap.delete (projects s) id).

Definition addTag (s : t) (tag : Tag) : t :=
  set_tags s (JsMap.set (tags s) (Tag.id tag) tag)
             (JsMap.set (tagByName s) (toLowerCase (Tag.name tag)) tag).

Definition updateTag (s : t) (tag : Tag) : t :=
  let byName :=
    match JsMap.get (tags s) (Tag.id tag) with
    | Some oldTag => JsMap.delete (tagByName s) (toLowerCase (Tag.name oldTag))
    | None => tagByName s
    end in
  set_tags s (JsMap.set (tags s) (Tag.id tag) tag)
             (JsMap.set byName (toLowerCase (Tag.name tag)) tag).

Definition removeTag (s : t) (id : ID) : t :=
  match JsMap.get (tags s) id with
  | Some tag =>
      set_tags s (JsMap.delete (tags s) id)
                 (JsMap.delete (tagByName s) (toLowerCase (Tag.name tag)))
  | None => s
  end.

Definition getAllTasks (s : t) : list Task := JsMap.values (tasks s).
Definition getTask (s : t) (id : ID) : option Task := JsMap.get (tasks s) id.
Definition getAllProjects (s : t) : list Project := JsMap.values (projects s).
Definition getProject (s : t) (id : ID) : option Project := JsMap.get (projects s) id.
Definition getAllTags (s : t) : list Tag := JsMap.values (tags s).
Definition getTag (s : t) (id : ID) : option Tag := JsMap.get (tags s) id.

Definition getTagByName (s : t) (name : string) : option Tag :=
  JsMap.get (tagByName s) (toLowerCase name).

Definition clear (s : t) : t := new.

(** [Array.from(taskIds).map(id => this.tasks.get(id)).filter(Boolean)] *)
Definition tasks_of (s : t) (taskIds : JsSet.t ID) : list Task :=
  omap (λ id, JsMap.get (tasks s) id) taskIds.

Definition getTasksByProject (s : t) (projectId : ID) : list Task :=
  match JsMap.get (tasksByProject s) projectId with
  | Some taskIds => tasks_of s taskIds
  | None => []
  end.

Definition getTasksByTag (s : t) (tagId : ID) : list Task :=
  match JsMap.get (tasksByTag s) tagId with
  | Some taskIds => tasks_of s taskIds
  | None => []
  end.

Definition getTasksByStatus (s : t) (status : Status) : list Task :=
  match JsMap.get (tasksByStatus s) status with
  | Some taskIds => tasks_of s taskIds
  | None => []
  end.

Definition getOverdueTasks (s : t) : list Task := tasks_of s (overdueTasks s).

(** [keys.forEach(k => { const ids = index.get(k); if (ids) ids.forEach(id => acc.add(id)) })]
    on a fresh [acc = new Set()]: the union of the buckets of [ks]. *)
Definition union_buckets {K} `{EqDecision K}
    (index : JsMap.t K (JsSet.t ID)) (ks : list K) : JsSet.t ID :=
  foldl (λ acc k,
           match JsMap.get index k with
           | Some ids => JsSet.add_all acc ids
           | None => acc
           end) JsSet.empty ks.

(** [new Set([...taskIds].filter(id => other.has(id)))] *)
Definition intersect (taskIds other : JsSet.t ID) : JsSet.t ID :=
  JsSet.of_list (filter (λ id, JsSet.has other id) taskIds).

(** [new Date(task.dueAt) <= dueDate] after [if (!task?.dueAt) return false] *)
Definition dueAt_before (dueBefore : Timestamp) (task : Task) : bool :=
  match Task.dueAt task with
  | Some due => bool_decide (due ≠ "") && num_le (Date_getTime due) (Date_getTime dueBefore)
  | None => false
  end.

(** [task.title.toLowerCase().includes(searchText)
     || (task.notes && task.notes.toLowerCase().includes(searchText))] *)
Definition text_in_task (searchText : string) (task : Task) : bool :=
  includes (toLowerCase (Task.title task)) searchText
  || match Task.notes task with
     | Some notes => bool_decide (notes ≠ "") && includes (toLowerCase notes) searchText
     | None => false
     end.

(** the predicate of the [dueBefore] scan *)
Definition due_before (s : t) (dueBefore : Timestamp) (id : ID) : bool :=
  match JsMap.get (tasks s) id with
  | Some task => dueAt_before dueBefore task
  | None => false
  end.

(** the predicate of the [text] scan; [searchText] is already lower-cased *)
Definition text_matches (s : t) (searchText : string) (id : ID) : bool :=
  match JsMap.get (tasks s) id with
  | Some task => text_in_task searchText task
  | None => false
  end.

(** [!query.text && !query.statuses && !query.priorities && !query.tags
     && !query.projectId && !query.dueBefore]: an array, even an empty one, is
    truthy; an empty string is not. *)
Definition noFilters (query : SearchQuery) : bool :=
  negb (truthy (SearchQuery.text query))
  && bool_decide (SearchQuery.statuses query = None)
  && bool_decide (SearchQuery.priorities query = None)
  && bool_decide (SearchQuery.tags query = None)
  && negb (truthy (SearchQuery.projectId query))
  && negb (truthy (SearchQuery.dueBefore query)).

(** The six [if] statements of the [else] branch of [searchTasks], in order.
    Each takes the value of [taskIds] before it and returns the value after. *)
Definition filterStatuses (s : t) (query : SearchQuery) : JsSet.t ID :=
  match nonEmpty (SearchQuery.statuses query) with
  | Some statuses => union_buckets (tasksByStatus s) statuses
  | None => JsSet.of_list (JsMap.keys (tasks s))
  end.

Definition filterPriorities (s : t) (query : SearchQuery) (taskIds : JsSet.t ID) : JsSet.t ID :=
  match nonEmpty (SearchQuery.priorities query) with
  | Some priorities => intersect taskIds (union_buckets (tasksByPriority s) priorities)
  | None => taskIds
  end.

Definition filterTags (s : t) (query : SearchQuery) (taskIds : JsSet.t ID) : JsSet.t ID :=
  match nonEmpty (SearchQuery.tags query) with
  | Some tagIds => intersect taskIds (union_buckets (tasksByTag s) tagIds)
  | None => taskIds
  end.

Definition filterProject (s : t) (query : SearchQuery) (taskIds : JsSet.t ID) : JsSet.t ID :=
  if truthy (SearchQuery.projectId query) then
    match JsMap.get (tasksByProject s) (default "" (SearchQuery.projectId query)) with
    | Some projectIds => intersect taskIds projectIds
    | None => JsSet.empty
    end
  else taskIds.

Definition filterDueBefore (s : t) (query : SearchQuery) (taskIds : JsSet.t ID) : JsSet.t ID :=
  if truthy (SearchQuery.dueBefore query) then
    JsSet.of_list
      (filter (λ id, due_before s (default "" (SearchQuery.dueBefore query)) id) taskIds)
  else taskIds.

Definition filterText (s : t) (query : SearchQuery) (taskIds : JsSet.t ID) : JsSet.t ID :=
  if truthy (SearchQuery.text query) then
    JsSet.of_list
      (filter (λ id, text_matches s (toLowerCase (default "" (SearchQuery.text query))) id)
              taskIds)
  else taskIds.

(** The first half of [searchTasks]: the ids that survive the filters. *)
Definition filterTaskIds (s : t) (query : SearchQuery) : JsSet.t ID :=
  if noFilters query then JsSet.of_list (JsMap.keys (tasks s))
  else
    filterText s query
      (filterDueBefore s query
         (filterProject s query
            (filterTags s query
               (filterPriorities s query
                  (filterStatuses s query))))).

(** [Math.ceil((due - now) / (1000 * 60 * 60 * 24))] *)
Definition days_until (due : number) (now : Z) : number :=
  match due with
  | Num d => Num (- ((now - d) / (1000 * 60 * 60 * 24)))
  | NaN => NaN
  end.

(** The body of the hydration loop for one task; [now] is the reading of the
    clock by [new Date()]. *)
Definition hydrate (s : t) (now : Z) (task : Task) : TaskListItem :=
  let project :=
    if truthy (Task.projectId task)
    then JsMap.get (projects s) (default "" (Task.projectId task))
    else None in
  let tagObjects := omap (λ tagId, JsMap.get (tags s) tagId) (Task.tags task) in
  let isOverdue :=
    match Task.dueAt task with
    | Some due =>
        if bool_decide (due ≠ "")
        then num_lt (Date_getTime due) (Num now) && bool_decide (Task.status task ≠ done)
        else false
    | None => false
    end in
  let daysUntilDue :=
    match Task.dueAt task with
    | Some due => if bool_decide (due ≠ "") then Some (days_until (Date_getTime due) now) else None
    | None => None
    end in
  TaskListItem.mk task project tagObjects isOverdue daysUntilDue.

(** The operands of the comparison in the sort callback: strings for [title],
    numbers for the other fields. *)
Inductive SortValue :=
  | VString (v : string)
  | VNumber (v : number).

#[global] Instance SortValue_eq_dec : EqDecision SortValue.
Proof. solve_decision. Defined.

(** [a < b] on two operands of the same kind *)
Definition value_lt (a b : SortValue) : bool :=
  match a, b with
  | VString x, VString y => String.ltb x y
  | VNumber x, VNumber y => num_lt x y
  | _, _ => false
  end.

(** the [switch (field)] of the sort callback *)
Definition sortValue (field : SortField) (a : TaskListItem) : SortValue :=
  let task := TaskListItem.task a in
  match field with
  | title => VString (toLowerCase (Task.title task))
  | priority => VNumber (Num (Task.priority task))
  | createdAt => VNumber (Date_getTime (Task.createdAt task))
  | updatedAt => VNumber (Date_getTime (Task.updatedAt task))
  | dueAt =>
      VNumber (if truthy (Task.dueAt task)
               then Date_getTime (default "" (Task.dueAt task))
               else Num MAX_SAFE_INTEGER)
  end.

(** the sort callback [(a, b) => ...] *)
Definition compareItems (field : SortField) (dir : SortDirection) (a b : TaskListItem) : Z :=
  let aValue := sortValue field a in
  let bValue := sortValue field b in
  if value_lt aValue bValue then (if decide (dir = asc) then -1 else 1)
  else if value_lt bValue aValue then (if decide (dir = asc) then 1 else -1)
  else 0.

(** [searchTasks(query)].  The source reads the clock for each record of one
    call; the readings of one call are taken to be the same instant [now]. *)
Definition searchTasks (s : t) (query : SearchQuery) (now : Z) : list TaskListItem :=
  let taskIds := filterTaskIds s query in
  let results :=
    omap (λ taskId, hydrate s now <$> JsMap.get (tasks s) taskId) taskIds in
  match SearchQuery.sort query with
  | Some (field, dir) => Array_sort (λ a b, Num (compareItems field dir a b)) results
  | None => results
  end.

(** the sort callback [(a, b) => a.order - b.order] *)
Definition compareOrder (a b : Project) : number :=
  num_sub (Project.order a) (Project.order b).

Definition getRootProjects (s : t) : list Project :=
  Array_sort compareOrder
    (filter (λ project, truthy (Project.parentId project) = false) (JsMap.values (projects s))).

Definition getChildProjects (s : t) (parentId : ID) : list Project :=
  Array_sort compareOrder
    (filter (λ project, Project.parentId project = Some parentId) (JsMap.values (projects s))).
End methods.
End IndexStore.

(* ------------------------------------------------------------------ *)
(** ** model/validation.ts

    [generateId()] draws a fresh UUID and [getCurrentTimestamp()] reads the
    clock; the functions below take the drawn [id] and the reading [now]. *)

Module ValidationError.
(** [{ field, message, value }]; [value] echoes the rejected input and is not
    used by the services. *)
Record t := mk { field : string; message : string }.
End ValidationError.
Abbreviation ValidationError := ValidationError.t.

Section validation.
Context `{JsRuntime}.

Definition getCurrentTimestamp (now : Z) : Timestamp := Date_toISOString now.

Definition isValidTimestamp (timestamp : string) : bool :=
  match Date_getTime timestamp with
  | Num z => bool_decide (Date_toISOString z = timestamp)
  | NaN => false
  end.

Definition uuidRegex : list CharClass :=
  replicate 8 Hex ++ [Lit "-"%char] ++ replicate 4 Hex ++ [Lit "-"%char; Lit "4"%char]
  ++ replicate 3 Hex ++ [Lit "-"%char; OneOf ["8"; "9"; "a"; "b"; "A"; "B"]%char]
  ++ replicate 3 Hex ++ [Lit "-"%char] ++ replicate 12 Hex.

Definition isValidUuid (uuid : string) : bool := regex_test uuidRegex uuid.

Definition blessedColors : list string :=
  ["black"; "red"; "green"; "yellow"; "blue"; "magenta"; "cyan"; "white";
   "lightblack"; "lightred"; "lightgreen"; "lightyellow"; "lightblue";
   "lightmagenta"; "lightcyan"; "lightwhite"].

Definition isValidColor (color : string) : bool :=
  regex_test (Lit "#"%char :: replicate 6 Hex) color
  || bool_decide (toLowerCase color ∈ blessedColors).

(** The checks of [validateTaskInput] on the fields that [CreateTaskInput] and
    [UpdateTaskInput] share; an absent key is [None].  A [status] of type
    [Status] is always one of the four values, so its check adds nothing. *)
Definition validateTaskFields (title : option string) (priority : option Priority)
    (dueAt : option Timestamp) (tags : option (list ID)) : list ValidationError :=
  (match title with
   | Some t =>
       if bool_decide (t = "") || bool_decide (String.length (trim t) = 0%nat)
       then [ValidationError.mk "title" "Title is required"] else []
   | None => []
   end)
  ++ (match title with
      | Some t =>
          if bool_decide (t ≠ "") && bool_decide (200 < String.length t)%nat
          then [ValidationError.mk "title" "Title must be 200 characters or less"] else []
      | None => []
      end)
  ++ (match priority with
      | Some p =>
          if bool_decide (p ∈ [1; 2; 3; 4; 5]) then []
          else [ValidationError.mk "priority" "Priority must be between 1 and 5"]
      | None => []
      end)
  ++ (match dueAt with
      | Some d =>
          if isValidTimestamp d then []
          else [ValidationError.mk "dueAt" "Due date must be a valid ISO timestamp"]
      | None => []
      end)
  ++ (match tags with
      | Some ts =>
          if forallb isValidUuid ts then []
          else [ValidationError.mk "tags" "All tags must be valid UUIDs"]
      | None => []
      end).

Definition validateCreateTaskInput (input : CreateTaskInput) : list ValidationError :=
  validateTaskFields (Some (CreateTaskInput.title input)) (CreateTaskInput.priority input)
    (CreateTaskInput.dueAt input) (CreateTaskInput.tags input).

Definition validateUpdateTaskInput (input : UpdateTaskInput) : list ValidationError :=
  validateTaskFields (UpdateTaskInput.title input) (UpdateTaskInput.priority input)
    (UpdateTaskInput.dueAt input) (UpdateTaskInput.tags input).

Definition validateTagInput (input : CreateTagInput) : list ValidationError :=
  (let name := CreateTagInput.name input in
   if bool_decide (name = "") || bool_decide (String.length (trim name) = 0%nat)
   then [ValidationError.mk "name" "Name is required"] else [])
  ++ (let name := CreateTagInput.name input in
      if bool_decide (name ≠ "") && bool_decide (50 < String.length name)%nat
      then [ValidationError.mk "name" "Name must be 50 characters or less"] else [])
  ++ (match CreateTagInput.color input with
      | Some color =>
          if bool_decide (color ≠ "") && negb (isValidColor color)
          then [ValidationError.mk "color" "Color must be a valid hex color or blessed color name"]
          else []
      | None => []
      end).

Definition createTask (input : CreateTaskInput) (id : ID) (now : Z) : Task :=
  let now := getCurrentTimestamp now in
  {| Task.id := id;
     Task.title := CreateTaskInput.title input;
     Task.notes := CreateTaskInput.notes input;
     Task.status := default todo (CreateTaskInput.status input);
     Task.priority := default 3 (CreateTaskInput.priority input);
     Task.projectId := CreateTaskInput.projectId input;
     Task.tags := default [] (CreateTaskInput.tags input);
     Task.createdAt := now;
     Task.updatedAt := now;
     Task.dueAt := CreateTaskInput.dueAt input;
     Task.completedAt :=
       if bool_decide (CreateTaskInput.status input = Some done) then Some now else None |}.

Definition createTag (input : CreateTagInput) (id : ID) (now : Z) : Tag :=
  let now := getCurrentTimestamp now in
  {| Tag.id := id;
     Tag.name := CreateTagInput.name input;
     Tag.color := CreateTagInput.color input;
     Tag.createdAt := now;
     Tag.updatedAt := now |}.

(** [if (input.f !== undefined) updated.f = input.f] on an optional field *)
Definition assign_opt {A} (input : option A) (old : option A) : option A :=
  match input with
  | Some v => Some v
  | None => old
  end.

Definition updateTask (task : Task) (input : UpdateTaskInput) (now : Z) : Task :=
  let now := getCurrentTimestamp now in
  {| Task.id := Task.id task;
     Task.title := default (Task.title task) (UpdateTaskInput.title input);
     Task.notes := assign_opt (UpdateTaskInput.notes input) (Task.notes task);
     Task.status := default (Task.status task) (UpdateTaskInput.status input);
     Task.priority := default (Task.priority task) (UpdateTaskInput.priority input);
     Task.projectId := assign_opt (UpdateTaskInput.projectId input) (Task.projectId task);
     Task.tags := default (Task.tags task) (UpdateTaskInput.tags input);
     Task.createdAt := Task.createdAt task;
     Task.updatedAt := now;
     Task.dueAt := assign_opt (UpdateTaskInput.dueAt input) (Task.dueAt task);
     Task.completedAt :=
       match UpdateTaskInput.status input with
       | Some st => if bool_decide (st = done) then Some now else None
       | None => Task.completedAt task
       end |}.

(** [`Validation failed: ${errors.map(e => e.message).join(', ')}`] *)
Definition validationFailed (errors : list ValidationError) : string :=
  "Validation failed: " +:+ join ", " (ValidationError.message <$> errors).

(** The checks of [validateProjectInput] on the fields that [CreateProjectInput]
    and [UpdateProjectInput] share.  An [order] is a number here, so the
    [typeof] test adds nothing. *)
Definition validateProjectFields (name : option string) (order : option number)
    : list ValidationError :=
  (match name with
   | Some n =>
       if bool_decide (n = "") || bool_decide (String.length (trim n) = 0%nat)
       then [ValidationError.mk "name" "Name is required"] else []
   | None => []
   end)
  ++ (match name with
      | Some n =>
          if bool_decide (n ≠ "") && bool_decide (100 < String.length n)%nat
          then [ValidationError.mk "name" "Name must be 100 characters or less"] else []
      | None => []
      end)
  ++ (match order with
      | Some o =>
          if num_lt o (Num 0)
          then [ValidationError.mk "order" "Order must be a non-negative number"] else []
      | None => []
      end).

Definition validateCreateProjectInput (input : CreateProjectInput) : list ValidationError :=
  validateProjectFields (Some (CreateProjectInput.name input)) (CreateProjectInput.order input).

Definition validateUpdateProjectInput (input : UpdateProjectInput) : list ValidationError :=
  validateProjectFields (UpdateProjectInput.name input) (UpdateProjectInput.order input).

(** [validateTagInput] on an [UpdateTagInput] *)
Definition validateUpdateTagInput (input : UpdateTagInput) : list ValidationError :=
  (match UpdateTagInput.name input with
   | Some name =>
       if bool_decide (name = "") || bool_decide (String.length (trim name) = 0%nat)
       then [ValidationError.mk "name" "Name is required"] else []
   | None => []
   end)
  ++ (match UpdateTagInput.name input with
      | Some name =>
          if bool_decide (name ≠ "") && bool_decide (50 < String.length name)%nat
          then [ValidationError.mk "name" "Name must be 50 characters or less"] else []
      | None => []
      end)
  ++ (match UpdateTagInput.color input with
      | Some color =>
          if bool_decide (color ≠ "") && negb (isValidColor color)
          then [ValidationError.mk "color" "Color must be a valid hex color or blessed color name"]
          else []
      | None => []
      end).

Definition createProject (input : CreateProjectInput) (id : ID) (now : Z) : Project :=
  let now := getCurrentTimestamp now in
  {| Project.id := id;
     Project.name := CreateProjectInput.name input;
     Project.order := default (Num 0) (CreateProjectInput.order input);
     Project.parentId := CreateProjectInput.parentId input;
     Project.createdAt := now;
     Project.updatedAt := now |}.

Definition updateProject (project : Project) (input : UpdateProjectInput) (now : Z) : Project :=
  let now := getCurrentTimestamp now in
  {| Project.id := Project.id project;
     Project.name := default (Project.name project) (UpdateProjectInput.name input);
     Project.order := default (Project.order project) (UpdateProjectInput.order input);
     Project.parentId :=
       assign_opt (UpdateProjectInput.parentId input) (Project.parentId project);
     Project.createdAt := Project.createdAt project;
     Project.updatedAt := now |}.

Definition updateTag (tag : Tag) (input : UpdateTagInput) (now : Z) : Tag :=
  let now := getCurrentTimestamp now in
  {| Tag.id := Tag.id tag;
     Tag.name := default (Tag.name tag) (UpdateTagInput.name input);
     Tag.color := assign_opt (UpdateTagInput.color input) (Tag.color tag);
     Tag.createdAt := Tag.createdAt tag;
     Tag.updatedAt := now |}.
End validation.

(* ------------------------------------------------------------------ *)
(** ** model/services/TaskService.ts

    A method of the service returns its result together with the store it
    leaves behind. *)

Module TaskService.
Section methods.
Context `{JsRuntime}.

Definition all (s : IndexStore.t) : list Task := IndexStore.getAllTasks s.
Definition byId (s : IndexStore.t) (id : ID) : option Task := IndexStore.getTask s id.

Definition create (s : IndexStore.t) (input : CreateTaskInput) (id : ID) (now : Z)
    : Result Task * IndexStore.t :=
  let errors := validateCreateTaskInput input in
  if bool_decide (0 < length errors)%nat then (failure (validationFailed errors), s)
  else
    let task := createTask input id now in
    (success task, IndexStore.addTask s task now).

Definition update (s : IndexStore.t) (input : UpdateTaskInput) (now : Z)
    : Result Task * IndexStore.t :=
  match IndexStore.getTask s (UpdateTaskInput.id input) with
  | None => (failure ("Task with ID " +:+ UpdateTaskInput.id input +:+ " not found"), s)
  | Some existingTask =>
      let errors := validateUpdateTaskInput input in
      if bool_decide (0 < length errors)%nat then (failure (validationFailed errors), s)
      else
        let updatedTask := updateTask existingTask input now in
        (success updatedTask, IndexStore.updateTask s updatedTask now)
  end.

Definition remove (s : IndexStore.t) (id : ID) : Result unit * IndexStore.t :=
  match IndexStore.getTask s id with
  | None => (failure ("Task with ID " +:+ id +:+ " not found"), s)
  | Some _ => (success (), IndexStore.removeTask s id)
  end.

Definition search (s : IndexStore.t) (query : SearchQuery) (now : Z) : list TaskListItem :=
  IndexStore.searchTasks s query now.

Definition byProject (s : IndexStore.t) (projectId : ID) : list Task :=
  IndexStore.getTasksByProject s projectId.

Definition byTag (s : IndexStore.t) (tagId : ID) : list Task :=
  IndexStore.getTasksByTag s tagId.

(** [byStatus(status: string)] for a string that is one of the four statuses;
    no other string has a bucket. *)
Definition byStatus (s : IndexStore.t) (status : Status) : list Task :=
  IndexStore.getTasksByStatus s status.

Definition overdue (s : IndexStore.t) : list Task := IndexStore.getOverdueTasks s.

(** [{ id, status }], [{ id, projectId }], [{ id, tags }], [{ id, priority }]
    and [{ id, dueAt }] *)
Definition inputStatus (id : ID) (status : Status) : UpdateTaskInput :=
  UpdateTaskInput.mk id None None (Some status) None None None None.
Definition inputProjectId (id : ID) (projectId : option ID) : UpdateTaskInput :=
  UpdateTaskInput.mk id None None None None projectId None None.
Definition inputTags (id : ID) (tags : list ID) : UpdateTaskInput :=
  UpdateTaskInput.mk id None None None None None (Some tags) None.
Definition inputPriority (id : ID) (priority : Priority) : UpdateTaskInput :=
  UpdateTaskInput.mk id None None None (Some priority) None None None.
Definition inputDueAt (id : ID) (dueAt : option Timestamp) : UpdateTaskInput :=
  UpdateTaskInput.mk id None None None None None None dueAt.

Definition toggleComplete (s : IndexStore.t) (id : ID) (now : Z) : Result Task * IndexStore.t :=
  match IndexStore.getTask s id with
  | None => (failure ("Task with ID " +:+ id +:+ " not found"), s)
  | Some task =>
      let newStatus := if bool_decide (Task.status task = done) then todo else done in
      update s (inputStatus id newStatus) now
  end.

Definition moveToProject (s : IndexStore.t) (id : ID) (projectId : option ID) (now : Z)
    : Result Task * IndexStore.t :=
  update s (inputProjectId id projectId) now.

Definition addTag (s : IndexStore.t) (id tagId : ID) (now : Z) : Result Task * IndexStore.t :=
  match IndexStore.getTask s id with
  | None => (failure ("Task with ID " +:+ id +:+ " not found"), s)
  | Some task =>
      if bool_decide (tagId ∈ Task.tags task) then (success task, s)
      else update s (inputTags id (Task.tags task ++ [tagId])) now
  end.

Definition removeTag (s : IndexStore.t) (id tagId : ID) (now : Z) : Result Task * IndexStore.t :=
  match IndexStore.getTask s id with
  | None => (failure ("Task with ID " +:+ id +:+ " not found"), s)
  | Some task => update s (inputTags id (filter (λ t, t ≠ tagId) (Task.tags task))) now
  end.

(** [setPriority(id, priority: number)] for a priority that is a whole
    number, as every [Priority] is; then [priority as any] is the number
    itself.  (A number that is not whole and lies between 1 and 5 passes the
    test of the range here and is refused by the validation of [update].) *)
Definition setPriority (s : IndexStore.t) (id : ID) (priority : Z) (now : Z)
    : Result Task * IndexStore.t :=
  if bool_decide (priority < 1) || bool_decide (priority > 5)
  then (failure "Priority must be between 1 and 5", s)
  else update s (inputPriority id priority) now.

Definition setDueDate (s : IndexStore.t) (id : ID) (dueAt : option Timestamp) (now : Z)
    : Result Task * IndexStore.t :=
  update s (inputDueAt id dueAt) now.

(** The body of the loop of [archiveCompleted]: one update, counted when it
    succeeds. *)
Definition archiveStep (now : Z) (acc : Z * IndexStore.t) (task : Task) : Z * IndexStore.t :=
  let '(archivedCount, s) := acc in
  match update s (inputStatus (Task.id task) archived) now with
  | (success _, s') => (archivedCount + 1, s')
  | (failure _, s') => (archivedCount, s')
  end.

(** [archiveCompleted()]; the updates of one call read the clock at the same
    instant [now]. *)
Definition archiveCompleted (s : IndexStore.t) (now : Z) : Result Z * IndexStore.t :=
  let completedTasks := byStatus s done in
  let '(archivedCount, s') := foldl (archiveStep now) (0, s) completedTasks in
  (success archivedCount, s').
End methods.
End TaskService.

(* ------------------------------------------------------------------ *)
(** ** model/services/DataRepository.ts: class ProjectService *)

Module ProjectService.

(** The state of [hierarchy()]: the array [hierarchy] and the set [visited]. *)
Definition HierarchyState : Type := list Project * JsSet.t ID.

(** [allProjects.find(p => p.id === project.parentId)] after
    [if (project.parentId)] *)
Definition findParent (allProjects : list Project) (project : Project) : option Project :=
  if truthy (Project.parentId project) then
    List.find (λ p, bool_decide (Project.id p = default "" (Project.parentId project)))
              allProjects
  else None.

(** The closure [addProject] of [hierarchy()].  It calls itself on the parent
    before it pushes the project; [depth] is the number of nested calls that
    the call stack takes, and a call beyond it ends in the RangeError that the
    engine raises. *)
Fixpoint addProject (depth : nat) (allProjects : list Project) (st : HierarchyState)
    (project : Project) : Outcome HierarchyState :=
  match depth with
  | O => Throws "RangeError: Maximum call stack size exceeded"
  | S depth' =>
      if JsSet.has st.2 (Project.id project) then Returns st
      else
        obind (match findParent allProjects project with
               | Some parent => addProject depth' allProjects st parent
               | None => Returns st
               end)
              (λ st', Returns (st'.1 ++ [project], JsSet.add st'.2 (Project.id project)))
  end.

Section methods.
Context `{JsRuntime}.

Definition all (s : IndexStore.t) : list Project := IndexStore.getAllProjects s.
Definition byId (s : IndexStore.t) (id : ID) : option Project := IndexStore.getProject s id.

Definition create (s : IndexStore.t) (input : CreateProjectInput) (id : ID) (now : Z)
    : Result Project * IndexStore.t :=
  let errors := validateCreateProjectInput input in
  if bool_decide (0 < length errors)%nat then (failure (validationFailed errors), s)
  else
    let project := createProject input id now in
    (success project, IndexStore.addProject s project).

Definition update (s : IndexStore.t) (input : UpdateProjectInput) (now : Z)
    : Result Project * IndexStore.t :=
  match IndexStore.getProject s (UpdateProjectInput.id input) with
  | None => (failure ("Project with ID " +:+ UpdateProjectInput.id input +:+ " not found"), s)
  | Some existingProject =>
      let errors := validateUpdateProjectInput input in
      if bool_decide (0 < length errors)%nat then (failure (validationFailed errors), s)
      else
        let updatedProject := updateProject existingProject input now in
        (success updatedProject, IndexStore.updateProject s updatedProject)
  end.

Definition remove (s : IndexStore.t) (id : ID) : Result unit * IndexStore.t :=
  match IndexStore.getProject s id with
  | None => (failure ("Project with ID " +:+ id +:+ " not found"), s)
  | Some _ => (success (), IndexStore.removeProject s id)
  end.

Definition roots (s : IndexStore.t) : list Project := IndexStore.getRootProjects s.

Definition children (s : IndexStore.t) (parentId : ID) : list Project :=
  IndexStore.getChildProjects s parentId.

(** [hierarchy()]: [allProjects.forEach(addProject); return hierarchy] *)
Definition hierarchy (depth : nat) (s : IndexStore.t) : Outcome (list Project) :=
  let allProjects := all s in
  obind (foldl (λ acc project, obind acc (λ st, addProject depth allProjects st project))
               (Returns ([], JsSet.empty)) allProjects)
        (λ st, Returns st.1).
End methods.
End ProjectService.

(* ------------------------------------------------------------------ *)
(** ** model/services/DataRepository.ts: class TagService *)

Module TagService.
Section methods.
Context `{JsRuntime}.

Definition byName (s : IndexStore.t) (name : string) : option Tag :=
  IndexStore.getTagByName s name.

Definition create (s : IndexStore.t) (input : CreateTagInput) (id : ID) (now : Z)
    : Result Tag * IndexStore.t :=
  let errors := validateTagInput input in
  if bool_decide (0 < length errors)%nat then (failure (validationFailed errors), s)
  else
    let tag := createTag input id now in
    (success tag, IndexStore.addTag s tag).

Definition remove (s : IndexStore.t) (id : ID) : Result unit * IndexStore.t :=
  match IndexStore.getTag s id with
  | None => (failure ("Tag with ID " +:+ id +:+ " not found"), s)
  | Some _ => (success (), IndexStore.removeTag s id)
  end.

(** [getOrCreate(name, color?)]; [id] and [now] are used only when a tag is
    created *)
Definition getOrCreate (s : IndexStore.t) (name : string) (color : option string)
    (id : ID) (now : Z) : Result Tag * IndexStore.t :=
  match byName s name with
  | Some existing => (success existing, s)
  | None => create s (CreateTagInput.mk name color) id now
  end.

Definition all (s : IndexStore.t) : list Tag := IndexStore.getAllTags s.
Definition byId (s : IndexStore.t) (id : ID) : option Tag := IndexStore.getTag s id.

Definition update (s : IndexStore.t) (input : UpdateTagInput) (now : Z)
    : Result Tag * IndexStore.t :=
  match IndexStore.getTag s (UpdateTagInput.id input) with
  | None => (failure ("Tag with ID " +:+ UpdateTagInput.id input +:+ " not found"), s)
  | Some existingTag =>
      let errors := validateUpdateTagInput input in
      if bool_decide (0 < length errors)%nat then (failure (validationFailed errors), s)
      else
        let updatedTag := updateTag existingTag input now in
        (success updatedTag, IndexStore.updateTag s updatedTag)
  end.
End methods.
End TagService.

(* ------------------------------------------------------------------ *)
(** ** model/services/DataRepository.ts: class DataRepository

    The part of the class that works on the store: [getDataStore] and
    [setDataStore].  Loading and saving go through the storage adapter. *)

Module DataRepository.
Section methods.
Context `{JsRuntime}.

Definition getDataStore (s : IndexStore.t) (now : Z) : DataStore :=
  {| DataStore.version := 1;
     DataStore.tasks := IndexStore.getAllTasks s;
     DataStore.projects := IndexStore.getAllProjects s;
     DataStore.tags := IndexStore.getAllTags s;
     DataStore.lastModified := Date_toISOString now |}.

(** [setDataStore(data)]; the [addTask] calls of one load read the clock at
    the same instant [now]. *)
Definition setDataStore (s : IndexStore.t) (data : DataStore) (now : Z) : IndexStore.t :=
  let s0 := IndexStore.clear s in
  let s1 := foldl (λ s task, IndexStore.addTask s task now) s0 (DataStore.tasks data) in
  let s2 := foldl IndexStore.addProject s1 (DataStore.projects data) in
  foldl IndexStore.addTag s2 (DataStore.tags data).
End methods.
End DataRepository.

(* ------------------------------------------------------------------ *)
(** ** model/services/SearchService.ts *)

Module SearchService.

Definition status_of_string (s : string) : option Status :=
  if bool_decide (s = "todo") then Some todo
  else if bool_decide (s = "doing") then Some doing
  else if bool_decide (s = "done") then Some done
  else if bool_decide (s = "archived") then Some archived
  else None.

Definition sortField_of_string (s : string) : option SortField :=
  if bool_decide (s = "title") then Some title
  else if bool_decide (s = "priority") then Some priority
  else if bool_decide (s = "createdAt") then Some createdAt
  else if bool_decide (s = "updatedAt") then Some updatedAt
  else if bool_decide (s = "dueAt") then Some dueAt
  else None.

Definition sortDirection_of_string (s : string) : option SortDirection :=
  if bool_decide (s = "asc") then Some asc
  else if bool_decide (s = "desc") then Some desc
  else None.

(** [xs = xs || []; if (!xs.includes(x)) xs.push(x)] *)
Definition push_unique {A} `{EqDecision A} (xs : option (list A)) (x : A) : option (list A) :=
  let l := default [] xs in
  Some (if bool_decide (x ∈ l) then l else l ++ [x]).

(** [query.text = query.text ? `${query.text} ${token}` : token] *)
Definition append_text (text : option string) (token : string) : option string :=
  if truthy text then Some (default "" text +:+ " " +:+ token) else Some token.

(** [/^\d{4}-\d{2}-\d{2}$/] *)
Definition isoDateRegex : list CharClass :=
  replicate 4 Digit ++ [Lit "-"%char] ++ replicate 2 Digit ++ [Lit "-"%char] ++ replicate 2 Digit.

(** [\d+d$]: one or more digits, or none when [seen], then the letter d *)
Fixpoint digits_then_d (s : string) (seen : bool) : bool :=
  match s with
  | EmptyString => false
  | String c EmptyString => seen && bool_decide (c = "d"%char)
  | String c s' => is_digit c && digits_then_d s' true
  end.

(** [/^\+(\d+)d$/.test(s)] *)
Definition relativeDaysRegex (s : string) : bool :=
  match s with
  | String c s' => bool_decide (c = "+"%char) && digits_then_d s' false
  | EmptyString => false
  end.

Section methods.
Context `{JsRuntime}.

(** [d.toISOString()], which throws on an Invalid Date *)
Definition toISOString (d : number) : Outcome (option string) :=
  match d with
  | Num z => Returns (Some (Date_toISOString z))
  | NaN => Throws "RangeError: Invalid time value"
  end.

Definition parseDueDate (dueStr : string) (now : Z) : Outcome (option string) :=
  let today := Date_localMidnight now in
  let key := toLowerCase dueStr in
  if bool_decide (key = "today") then toISOString (Num today)
  else if bool_decide (key = "tomorrow") then toISOString (Date_addDays today (Num 1))
  else if bool_decide (key = "week") || bool_decide (key = "this-week")
    then toISOString (Date_addDays today (Num 7))
  else if bool_decide (key = "month") || bool_decide (key = "this-month")
    then toISOString (Date_addMonth today)
  else if regex_test isoDateRegex dueStr then toISOString (Date_getTime dueStr)
  else if relativeDaysRegex dueStr then
    let days := parseInt (String.substring 1 (String.length dueStr - 2) dueStr) in
    toISOString (Date_addDays today days)
  else Returns None.

Definition with_text (q : SearchQuery) (text : option string) : SearchQuery :=
  SearchQuery.mk text (SearchQuery.statuses q) (SearchQuery.priorities q) (SearchQuery.tags q)
    (SearchQuery.projectId q) (SearchQuery.dueBefore q) (SearchQuery.sort q).

Definition with_statuses (q : SearchQuery) (statuses : option (list Status)) : SearchQuery :=
  SearchQuery.mk (SearchQuery.text q) statuses (SearchQuery.priorities q) (SearchQuery.tags q)
    (SearchQuery.projectId q) (SearchQuery.dueBefore q) (SearchQuery.sort q).

Definition with_priorities (q : SearchQuery) (priorities : option (list Priority)) : SearchQuery :=
  SearchQuery.mk (SearchQuery.text q) (SearchQuery.statuses q) priorities (SearchQuery.tags q)
    (SearchQuery.projectId q) (SearchQuery.dueBefore q) (SearchQuery.sort q).

Definition with_tags (q : SearchQuery) (tags : option (list ID)) : SearchQuery :=
  SearchQuery.mk (SearchQuery.text q) (SearchQuery.statuses q) (SearchQuery.priorities q) tags
    (SearchQuery.projectId q) (SearchQuery.dueBefore q) (SearchQuery.sort q).

Definition with_projectId (q : SearchQuery) (projectId : option ID) : SearchQuery :=
  SearchQuery.mk (SearchQuery.text q) (SearchQuery.statuses q) (SearchQuery.priorities q)
    (SearchQuery.tags q) projectId (SearchQuery.dueBefore q) (SearchQuery.sort q).

Definition with_dueBefore (q : SearchQuery) (dueBefore : option Timestamp) : SearchQuery :=
  SearchQuery.mk (SearchQuery.text q) (SearchQuery.statuses q) (SearchQuery.priorities q)
    (SearchQuery.tags q) (SearchQuery.projectId q) dueBefore (SearchQuery.sort q).

Definition with_sort (q : SearchQuery) (sort : option (SortField * SortDirection)) : SearchQuery :=
  SearchQuery.mk (SearchQuery.text q) (SearchQuery.statuses q) (SearchQuery.priorities q)
    (SearchQuery.tags q) (SearchQuery.projectId q) (SearchQuery.dueBefore q) sort.

(** the branch shared by [tag:name] and [+name] *)
Definition addTagFilter (s : IndexStore.t) (query : SearchQuery) (tagName : string) : SearchQuery :=
  match IndexStore.getTagByName s tagName with
  | Some tag => with_tags query (push_unique (SearchQuery.tags query) (Tag.id tag))
  | None => query
  end.

(** The body of the loop [for (const token of tokens)] of [parseQuery]. *)
Definition parseToken (s : IndexStore.t) (now : Z) (query : SearchQuery) (token : string)
    : Outcome SearchQuery :=
  if startsWith token "status:" then
    match status_of_string (substring_from 7 token) with
    | Some status => Returns (with_statuses query (push_unique (SearchQuery.statuses query) status))
    | None => Returns query
    end
  else if startsWith token "priority:" then
    match parseInt (substring_from 9 token) with
    | Num p =>
        if bool_decide (1 <= p) && bool_decide (p <= 5)
        then Returns (with_priorities query (push_unique (SearchQuery.priorities query) p))
        else Returns query
    | NaN => Returns query
    end
  else if startsWith token "tag:" then
    Returns (addTagFilter s query (substring_from 4 token))
  else if startsWith token "project:" then
    let projectName := substring_from 8 token in
    match List.find (λ p, bool_decide (toLowerCase (Project.name p) = toLowerCase projectName))
                    (IndexStore.getAllProjects s) with
    | Some project => Returns (with_projectId query (Some (Project.id project)))
    | None => Returns query
    end
  else if startsWith token "due:" then
    obind (parseDueDate (substring_from 4 token) now) (λ dueDate,
      Returns (if truthy dueDate then with_dueBefore query dueDate else query))
  else if startsWith token "sort:" then
    match split_colon (substring_from 5 token) with
    | [f; d] =>
        match sortField_of_string f, sortDirection_of_string d with
        | Some field, Some dir => Returns (with_sort query (Some (field, dir)))
        | _, _ => Returns query
        end
    | _ => Returns query
    end
  else if startsWith token "+" then
    Returns (addTagFilter s query (substring_from 1 token))
  else if startsWith token "-" then
    Returns (with_text query (append_text (SearchQuery.text query) token))
  else
    Returns (with_text query (append_text (SearchQuery.text query) token)).

(** [queryString.trim().split(/\s+/)] *)
Definition tokenize (queryString : string) : list string := split_ws (trim queryString).

Definition parseTokens (s : IndexStore.t) (now : Z) (query : SearchQuery) (tokens : list string)
    : Outcome SearchQuery :=
  foldl (λ acc token, obind acc (λ q, parseToken s now q token)) (Returns query) tokens.

Definition parseQuery (s : IndexStore.t) (queryString : string) (now : Z) : Outcome SearchQuery :=
  parseTokens s now SearchQuery.empty (tokenize queryString).

Definition search (s : IndexStore.t) (query : SearchQuery) (now : Z) : list TaskListItem :=
  IndexStore.searchTasks s query now.

Definition searchByString (s : IndexStore.t) (queryString : string) (now : Z)
    : Outcome (list TaskListItem) :=
  obind (parseQuery s queryString now) (λ query, Returns (search s query now)).

(** [search({ text })], [search({ statuses })], [search({ priorities })],
    [search({ tags: tagIds })] and [search({ projectId })] *)
Definition searchByText (s : IndexStore.t) (text : string) (now : Z) : list TaskListItem :=
  search s (SearchQuery.mk (Some text) None None None None None None) now.

Definition searchByStatus (s : IndexStore.t) (statuses : list Status) (now : Z)
    : list TaskListItem :=
  search s (SearchQuery.mk None (Some statuses) None None None None None) now.

Definition searchByPriority (s : IndexStore.t) (priorities : list Priority) (now : Z)
    : list TaskListItem :=
  search s (SearchQuery.mk None None (Some priorities) None None None None) now.

Definition searchByTags (s : IndexStore.t) (tagIds : list ID) (now : Z) : list TaskListItem :=
  search s (SearchQuery.mk None None None (Some tagIds) None None None) now.

Definition searchByProject (s : IndexStore.t) (projectId : ID) (now : Z) : list TaskListItem :=
  search s (SearchQuery.mk None None None None (Some projectId) None None) now.

(** [search({ dueBefore: new Date().toISOString() })] *)
Definition searchOverdue (s : IndexStore.t) (now : Z) : list TaskListItem :=
  search s (SearchQuery.mk None None None None None (Some (Date_toISOString now)) None) now.

(** [endOfWeek.setDate(today.getDate() + 7)], then
    [search({ dueBefore: endOfWeek.toISOString() })] *)
Definition searchDueThisWeek (s : IndexStore.t) (now : Z) : Outcome (list TaskListItem) :=
  obind (toISOString (Date_addDays now (Num 7))) (λ endOfWeek,
    Returns (search s (SearchQuery.mk None None None None None endOfWeek None) now)).

Definition searchHighPriority (s : IndexStore.t) (now : Z) : list TaskListItem :=
  search s (SearchQuery.mk None None (Some [1; 2]) None None None None) now.

(** [searchRecentlyUpdated(days)] for a whole number of days.  The record made
    for each task has the five fields that the hydration loop of [searchTasks]
    computes, by the same expressions. *)
Definition searchRecentlyUpdated (s : IndexStore.t) (days : Z) (now : Z) : list TaskListItem :=
  let cutoff := Date_addDays now (Num (- days)) in
  IndexStore.hydrate s now
    <$> filter (λ task, num_le cutoff (Date_getTime (Task.updatedAt task)) = true)
               (IndexStore.getAllTasks s).
End methods.
End SearchService.

(* ------------------------------------------------------------------ *)
(** ** Consistent comparators *)

Lemma filter_none {A} (P : A → Prop) `{∀ x, Decision (P x)} (l : list A) :
  (∀ x, x ∈ l → ¬ P x) → filter P l = [].
Proof.
  induction l as [|x l IH]; intros Hl; [done|].
  rewrite filter_cons_False; [|apply Hl, list_elem_of_here].
  apply IH. intros y Hy. by apply Hl, list_elem_of_further.
Qed.

Lemma filter_ext_elem_of {A} (P Q : A → Prop) `{∀ x, Decision (P x)} `{∀ x, Decision (Q x)}
    (l : list A) :
  (∀ x, x ∈ l → P x ↔ Q x) → filter P l = filter Q l.
Proof.
  induction l as [|x l IH]; intros Hl; [done|].
  rewrite !filter_cons.
  rewrite IH by (intros y Hy; by apply Hl, list_elem_of_further).
  pose proof (Hl x (list_elem_of_here _ _)).
  destruct (decide (P x)), (decide (Q x)); naive_solver.
Qed.

Lemma StronglySorted_lookup {A} (R : A → A → Prop) (l : list A) i j x y :
  StronglySorted R l → (i < j)%nat → l !! i = Some x → l !! j = Some y → R x y.
Proof.
  intros Hl. revert i j. induction Hl as [|z l Hl IH Hz]; intros i j Hij Hi Hj; [done|].
  destruct j as [|j]; [lia|]. simpl in Hj. destruct i as [|i]; simpl in Hi.
  - injection Hi as ->. rewrite Forall_forall in Hz. apply Hz. by eapply list_elem_of_lookup_2.
  - apply (IH i j); [lia|done..].
Qed.

Lemma StronglySorted_weaken {A} (R R' : A → A → Prop) (l : list A) :
  (∀ x y, x ∈ l → y ∈ l → R x y → R' x y) → StronglySorted R l → StronglySorted R' l.
Proof.
  intros HR Hl. induction Hl as [|x l Hl IH Hx]; constructor.
  - apply IH. intros y z Hy Hz. apply HR; by apply list_elem_of_further.
  - rewrite Forall_forall in Hx |- *. intros y Hy.
    apply HR; [apply list_elem_of_here|by apply list_elem_of_further|auto].
Qed.

(** What the conditions give: the classes of [=CF] are ordered by [<CF]. *)
Section consistent.
Context {A : Type} (comparefn : A → A → number) (l0 : list A).
Context (Hcons : ConsistentComparator comparefn l0).
Implicit Types a b c : A.

Local Abbreviation order := (SortCompare comparefn).

Lemma consistent_lt_gt a b : a ∈ l0 → b ∈ l0 → order a b < 0 → order b a > 0.
Proof.
  intros Ha Hb Hab.
  destruct (Z.lt_trichotomy (order b a) 0) as [Hba|[Hba|Hba]]; [| |lia].
  - pose proof (consistent_trans_lt _ _ Hcons a b a Ha Hb Ha Hab Hba).
    pose proof (consistent_refl _ _ Hcons a Ha). lia.
  - pose proof (consistent_sym _ _ Hcons b a Hb Ha Hba). lia.
Qed.

Lemma consistent_gt_lt a b : a ∈ l0 → b ∈ l0 → order a b > 0 → order b a < 0.
Proof.
  intros Ha Hb Hab.
  destruct (Z.lt_trichotomy (order b a) 0) as [Hba|[Hba|Hba]]; [lia| |].
  - pose proof (consistent_sym _ _ Hcons b a Hb Ha Hba). lia.
  - pose proof (consistent_trans_gt _ _ Hcons a b a Ha Hb Ha Hab ltac:(lia)).
    pose proof (consistent_refl _ _ Hcons a Ha). lia.
Qed.

Lemma consistent_ge_le a b : a ∈ l0 → b ∈ l0 → 0 <= order a b → order b a <= 0.
Proof.
  intros Ha Hb Hab. destruct (decide (order a b = 0)) as [Heq|Hne].
  - pose proof (consistent_sym _ _ Hcons a b Ha Hb Heq). lia.
  - pose proof (consistent_gt_lt a b Ha Hb ltac:(lia)). lia.
Qed.

Lemma consistent_lt_le_trans a b c :
  a ∈ l0 → b ∈ l0 → c ∈ l0 → order a b < 0 → order b c <= 0 → order a c < 0.
Proof.
  intros Ha Hb Hc Hab Hbc. destruct (decide (order b c = 0)) as [Heq|Hne].
  - destruct (Z.lt_trichotomy (order a c) 0) as [Hac|[Hac|Hac]]; [done| |].
    + pose proof (consistent_sym _ _ Hcons b c Hb Hc Heq) as Hcb.
      pose proof (consistent_trans_eq _ _ Hcons a c b Ha Hc Hb Hac Hcb). lia.
    + pose proof (consistent_gt_lt a c Ha Hc ltac:(lia)) as Hca.
      pose proof (consistent_trans_lt _ _ Hcons c a b Hc Ha Hb Hca Hab) as Hcb.
      pose proof (consistent_lt_gt c b Hc Hb Hcb). lia.
  - apply (consistent_trans_lt _ _ Hcons a b c); [done..|lia].
Qed.

Lemma consistent_le_trans a b c :
  a ∈ l0 → b ∈ l0 → c ∈ l0 → order a b <= 0 → order b c <= 0 → order a c <= 0.
Proof.
  intros Ha Hb Hc Hab Hbc. destruct (decide (order a b = 0)) as [Heq|Hne].
  - destruct (decide (order b c = 0)) as [Heq'|Hne'].
    + pose proof (consistent_trans_eq _ _ Hcons a b c Ha Hb Hc Heq Heq'). lia.
    + destruct (Z.lt_trichotomy (order a c) 0) as [Hac|[Hac|Hac]]; [lia..|].
      pose proof (consistent_gt_lt a c Ha Hc ltac:(lia)) as Hca.
      pose proof (consistent_trans_lt _ _ Hcons b c a Hb Hc Ha ltac:(lia) Hca) as Hba.
      pose proof (consistent_sym _ _ Hcons a b Ha Hb Heq). lia.
  - pose proof (consistent_lt_le_trans a b c Ha Hb Hc ltac:(lia) Hbc). lia.
Qed.

(** two values tied with a third are tied *)
Lemma consistent_tied a b c :
  a ∈ l0 → b ∈ l0 → c ∈ l0 → order a b = 0 → order a c = 0 → order b c = 0.
Proof.
  intros Ha Hb Hc Hab Hac.
  pose proof (consistent_sym _ _ Hcons a b Ha Hb Hab) as Hba.
  by apply (consistent_trans_eq _ _ Hcons b a c).
Qed.
End consistent.

(* ------------------------------------------------------------------ *)
(** ** A host for the examples

    An implementation of the host functions with UTC as the local time zone
    and, as dates, the 24-character timestamps that [toISOString] prints for
    the years 0000 to 9999.  The properties below hold for every host; this one
    runs the examples. *)

Module Host.

(** the lower-case letter of A to Z and of the letters U+00C0 to U+00DE *)
Definition lower_char (c : ascii) : ascii :=
  let n := nat_of_ascii c in
  if bool_decide ((65 <= n <= 90) ∨ (192 <= n <= 222 ∧ n ≠ 215))%nat
  then ascii_of_nat (n + 32) else c.

Fixpoint toLowerCase (s : string) : string :=
  match s with
  | String c s' => String (lower_char c) (toLowerCase s')
  | EmptyString => EmptyString
  end.

Definition digit_value (c : ascii) : Z := Z.of_nat (nat_of_ascii c) - 48.

Fixpoint digits_value (s : string) (acc : Z) : Z :=
  match s with
  | String c s' => digits_value s' (10 * acc + digit_value c)
  | EmptyString => acc
  end.

(** days since 1970-01-01 of a date of the proleptic Gregorian calendar *)
Definition days_from_civil (y m d : Z) : Z :=
  let y := y + (m - 1) / 12 in
  let m := (m - 1) mod 12 + 1 in
  let y' := if bool_decide (m <= 2) then y - 1 else y in
  let era := y' / 400 in
  let yoe := y' - era * 400 in
  let mp := (m + 9) mod 12 in
  let doy := (153 * mp + 2) / 5 + d - 1 in
  let doe := yoe * 365 + yoe / 4 - yoe / 100 + doy in
  era * 146097 + doe - 719468.

Definition civil_from_days (z : Z) : Z * Z * Z :=
  let z := z + 719468 in
  let era := z / 146097 in
  let doe := z - era * 146097 in
  let yoe := (doe - doe / 1460 + doe / 36524 - doe / 146096) / 365 in
  let doy := doe - (365 * yoe + yoe / 4 - yoe / 100) in
  let mp := (5 * doy + 2) / 153 in
  let d := doy - (153 * mp + 2) / 5 + 1 in
  let m := if bool_decide (mp < 10) then mp + 3 else mp - 9 in
  (if bool_decide (m <= 2) then yoe + era * 400 + 1 else yoe + era * 400, m, d).

Definition msPerDay : Z := 86400000.

Definition clamp (z : Z) : number :=
  if bool_decide (- MAX_TIME_VALUE <= z <= MAX_TIME_VALUE) then Num z else NaN.

(** [YYYY-MM-DDTHH:mm:ss.sssZ] *)
Definition timestampRegex : list CharClass :=
  replicate 4 Digit ++ [Lit "-"%char] ++ replicate 2 Digit ++ [Lit "-"%char]
  ++ replicate 2 Digit ++ [Lit "T"%char] ++ replicate 2 Digit ++ [Lit ":"%char]
  ++ replicate 2 Digit ++ [Lit ":"%char] ++ replicate 2 Digit ++ [Lit "."%char]
  ++ replicate 3 Digit ++ [Lit "Z"%char].

Definition field (s : string) (start len : nat) : Z :=
  digits_value (String.substring start len s) 0.

Definition Date_getTime (s : string) : number :=
  if regex_test timestampRegex s then
    let mo := field s 5 2 in
    let d := field s 8 2 in
    let h := field s 11 2 in
    let mi := field s 14 2 in
    let sec := field s 17 2 in
    if bool_decide (1 <= mo <= 12) && bool_decide (1 <= d <= 31) && bool_decide (h <= 23)
       && bool_decide (mi <= 59) && bool_decide (sec <= 59)
    then clamp (days_from_civil (field s 0 4) mo d * msPerDay
                + ((h * 60 + mi) * 60 + sec) * 1000 + field s 20 3)
    else NaN
  else NaN.

(** the [n] low decimal digits of [z] *)
Fixpoint pad (n : nat) (z : Z) : string :=
  match n with
  | O => EmptyString
  | S n' => pad n' (z / 10) +:+ String (ascii_of_nat (Z.to_nat (z mod 10) + 48)) EmptyString
  end.

Definition Date_toISOString (z : Z) : string :=
  let '(y, m, d) := civil_from_days (z / msPerDay) in
  let t := z mod msPerDay in
  pad 4 y +:+ "-" +:+ pad 2 m +:+ "-" +:+ pad 2 d +:+ "T" +:+ pad 2 (t / 3600000) +:+ ":"
  +:+ pad 2 (t / 60000 mod 60) +:+ ":" +:+ pad 2 (t / 1000 mod 60) +:+ "." +:+ pad 3 (t mod 1000)
  +:+ "Z".

Definition Date_localMidnight (z : Z) : Z := z - z mod msPerDay.

Definition Date_addDays (t : Z) (n : number) : number :=
  match n with
  | Num k => clamp (t + k * msPerDay)
  | NaN => NaN
  end.

Definition Date_addMonth (t : Z) : number :=
  let '(y, m, d) := civil_from_days (t / msPerDay) in
  clamp (days_from_civil y (m + 1) 1 * msPerDay + (d - 1) * msPerDay + t mod msPerDay).

Fixpoint leading_digits (s : string) : string :=
  match s with
  | String c s' => if is_digit c then String c (leading_digits s') else EmptyString
  | EmptyString => EmptyString
  end.

(** [parseInt(s)] in base ten: an optional sign, then the leading digits *)
Definition parseInt (s : string) : number :=
  let s := trimStart s in
  let '(sign, body) :=
    match s with
    | String "-"%char s' => (-1, s')
    | String "+"%char s' => (1, s')
    | _ => (1, s)
    end in
  match leading_digits body with
  | EmptyString => NaN
  | ds => Num (sign * digits_value ds 0)
  end.

Lemma Date_getTime_range s z :
  Date_getTime s = Num z → - MAX_TIME_VALUE <= z <= MAX_TIME_VALUE.
Proof.
  unfold Date_getTime, clamp.
  repeat case_match; try discriminate.
  intros [= <-]. by eapply bool_decide_eq_true.
Qed.

(** [Array.prototype.sort] as V8 sorts an array of fewer than 64 elements
    (array-sort.tq: [ArrayTimSortImpl] with a minimal run length of the whole
    array): [CountAndMakeRun] takes the run at the start, reversed when it is
    strictly descending, and [BinaryInsertionSort] inserts the other elements
    one by one at the place that a binary search finds.  (V8 cuts a longer
    array into such runs and merges them.) *)
Section v8.
Context {A : Type} (order : A → A → Z).

(** The loop of [CountAndMakeRun]: the elements after [previousElement] that
    continue the run, and the elements left. *)
Fixpoint extendRun (isDescending : bool) (previousElement : A) (l : list A) : list A * list A :=
  match l with
  | [] => ([], [])
  | currentElement :: l' =>
      let o := order currentElement previousElement in
      if (if isDescending then bool_decide (0 <= o) else bool_decide (o < 0)) then ([], l)
      else
        let '(run, rest) := extendRun isDescending currentElement l' in
        (currentElement :: run, rest)
  end.

(** [CountAndMakeRun]: the run at the start of the array, reversed when it is
    strictly descending, and the elements after it. *)
Definition countAndMakeRun (l : list A) : list A * list A :=
  match l with
  | elementHigh :: elementLow :: l' =>
      let isDescending := bool_decide (order elementLow elementHigh < 0) in
      let '(run, rest) := extendRun isDescending elementLow l' in
      let run := elementHigh :: elementLow :: run in
      (if isDescending then reverse run else run, rest)
  | _ => (l, [])
  end.

(** The search loop of [BinaryInsertionSort] for [pivot] in the sorted part
    [work]; [fuel] bounds the number of halvings. *)
Fixpoint binarySearch (pivot : A) (work : list A) (left right : nat) (fuel : nat) : nat :=
  match fuel with
  | O => left
  | S fuel' =>
      if bool_decide (left < right)%nat then
        let mid := (left + (right - left) / 2)%nat in
        match work !! mid with
        | Some x =>
            if bool_decide (order pivot x < 0) then binarySearch pivot work left mid fuel'
            else binarySearch pivot work (mid + 1) right fuel'
        | None => left
        end
      else left
  end.

(** One round of [BinaryInsertionSort]: [pivot] is put at the place found. *)
Definition binaryInsert (work : list A) (pivot : A) : list A :=
  let left := binarySearch pivot work 0 (length work) (length work) in
  take left work ++ pivot :: drop left work.

Definition timSort (l : list A) : list A :=
  let '(run, rest) := countAndMakeRun l in
  foldl binaryInsert run rest.
End v8.

Definition Array_sort {A} (comparefn : A → A → number) (l : list A) : list A :=
  timSort (SortCompare comparefn) l.

Section laws.
Context {A : Type} (order : A → A → Z).
Implicit Types (l run rest work : list A) (x y pivot : A).

Lemma binarySearch_S pivot work left right fuel :
  binarySearch order pivot work left right (S fuel)
  = if bool_decide (left < right)%nat then
      match work !! (left + (right - left) / 2)%nat with
      | Some x =>
          if bool_decide (order pivot x < 0)
          then binarySearch order pivot work left (left + (right - left) / 2)%nat fuel
          else binarySearch order pivot work (left + (right - left) / 2 + 1)%nat right fuel
      | None => left
      end
    else left.
Proof. reflexivity. Qed.

Lemma extendRun_app desc prev l run rest :
  extendRun order desc prev l = (run, rest) → l = run ++ rest.
Proof.
  revert prev run rest. induction l as [|x l IH]; intros prev run rest; simpl.
  - by intros [= <- <-].
  - case_match; [by intros [= <- <-]|].
    destruct (extendRun order desc x l) as [run' rest'] eqn:E.
    intros [= <- <-]. simpl. f_equal. by eapply IH.
Qed.

Lemma countAndMakeRun_Permutation l run rest :
  countAndMakeRun order l = (run, rest) → run ++ rest ≡ₚ l.
Proof.
  unfold countAndMakeRun. destruct l as [|x [|y l]].
  - by intros [= <- <-].
  - by intros [= <- <-].
  - destruct (extendRun order _ y l) as [run' rest'] eqn:E.
    apply extendRun_app in E as ->. intros [= <- <-].
    case_bool_decide; [|done].
    by rewrite reverse_Permutation.
Qed.

Lemma binaryInsert_Permutation work pivot : binaryInsert order work pivot ≡ₚ work ++ [pivot].
Proof.
  unfold binaryInsert. set (left := binarySearch _ _ _ _ _ _).
  etrans; [symmetry; apply Permutation_middle|].
  rewrite take_drop. apply Permutation_cons_append.
Qed.

Lemma foldl_binaryInsert_Permutation rest work :
  foldl (binaryInsert order) work rest ≡ₚ work ++ rest.
Proof.
  revert work. induction rest as [|x rest IH]; intros work; simpl.
  - by rewrite app_nil_r.
  - rewrite IH, binaryInsert_Permutation. by rewrite <- app_assoc.
Qed.

Lemma timSort_Permutation l : timSort order l ≡ₚ l.
Proof.
  unfold timSort. destruct (countAndMakeRun order l) as [run rest] eqn:E.
  rewrite foldl_binaryInsert_Permutation. by apply countAndMakeRun_Permutation.
Qed.
End laws.

Section sorted.
Context {A : Type} (comparefn : A → A → number) (l0 : list A).
Context (Hcons : ConsistentComparator comparefn l0).
Implicit Types (l run rest work : list A) (x y pivot a : A).

Local Abbreviation order := (SortCompare comparefn).

(** [x] is not after [y], and [x] is before [y], among the values [l0] *)
Definition notAfter x y : Prop := x ∈ l0 ∧ y ∈ l0 ∧ order x y <= 0.
Definition before x y : Prop := x ∈ l0 ∧ y ∈ l0 ∧ order x y < 0.

#[local] Instance notAfter_trans : Transitive notAfter.
Proof.
  intros x y z (Hx & Hy & Hxy) (_ & Hz & Hyz). split_and!; [done..|].
  by apply (consistent_le_trans comparefn l0 Hcons x y z).
Qed.

#[local] Instance before_trans : Transitive before.
Proof.
  intros x y z (Hx & Hy & Hxy) (_ & Hz & Hyz). split_and!; [done..|].
  by apply (consistent_trans_lt _ _ Hcons x y z).
Qed.

(** The place that the search returns splits the sorted part: the elements
    before it are not after the pivot, those from it on are after it. *)
Lemma binarySearch_spec pivot work fuel left right :
  pivot ∈ l0 → StronglySorted notAfter work → Forall (λ x, x ∈ l0) work →
  (left <= right <= length work)%nat → (right - left <= fuel)%nat →
  (∀ i x, (i < left)%nat → work !! i = Some x → 0 <= order pivot x) →
  (∀ i x, (right <= i)%nat → work !! i = Some x → order pivot x < 0) →
  (∀ i x, (i < binarySearch order pivot work left right fuel)%nat →
          work !! i = Some x → 0 <= order pivot x)
  ∧ (∀ i x, (binarySearch order pivot work left right fuel <= i)%nat →
            work !! i = Some x → order pivot x < 0).
Proof.
  intros Hp Hsorted Hdom. pose proof (proj1 (Forall_lookup _ _) Hdom) as Hdom'.
  revert left right. induction fuel as [|fuel IH]; intros left right Hlr Hfuel Hleft Hright.
  { simpl. split; [done|]. intros i x Hi. apply Hright. lia. }
  rewrite binarySearch_S.
  case_bool_decide as Hlt; [|split; [done|]; intros i x Hi; apply Hright; lia].
  set (mid := (left + (right - left) / 2)%nat).
  assert (left <= mid < right)%nat as Hmid.
  { unfold mid. pose proof (Nat.div_lt (right - left) 2 ltac:(lia) ltac:(lia)). lia. }
  destruct (work !! mid) as [xm|] eqn:Hxm;
    [|apply lookup_ge_None in Hxm; lia].
  case_bool_decide as Hord.
  - apply IH; [lia|lia|done|].
    intros i x Hi Hx. destruct (decide (i = mid)) as [->|Hne]; [congruence|].
    destruct (StronglySorted_lookup notAfter work mid i xm x Hsorted ltac:(lia) Hxm Hx) as (? & ? & ?).
    by apply (consistent_lt_le_trans comparefn l0 Hcons pivot xm x).
  - apply IH; [lia|lia| |done].
    intros i x Hi Hx. destruct (decide (i = mid)) as [->|Hne]; [simplify_eq; lia|].
    destruct (StronglySorted_lookup notAfter work i mid x xm Hsorted ltac:(lia) Hx Hxm) as (? & ? & ?).
    destruct (decide (order pivot x < 0)) as [Hneg|]; [|lia].
    pose proof (consistent_lt_le_trans comparefn l0 Hcons pivot x xm Hp ltac:(done) ltac:(done)
                  Hneg ltac:(done)). lia.
Qed.

Lemma binaryInsert_sorted work pivot :
  pivot ∈ l0 → StronglySorted notAfter work → Forall (λ x, x ∈ l0) work →
  StronglySorted notAfter (binaryInsert order work pivot)
  ∧ ∀ a, a ∈ l0 →
      filter (λ x, order a x = 0) (binaryInsert order work pivot)
      = filter (λ x, order a x = 0) (work ++ [pivot]).
Proof.
  intros Hp Hsorted Hdom. unfold binaryInsert.
  set (p := binarySearch _ _ _ _ _ _).
  destruct (binarySearch_spec pivot work (length work) 0 (length work) Hp Hsorted Hdom)
    as [Hbefore Hafter]; [lia|lia|intros; lia|intros i x Hi Hx| ].
  { apply lookup_lt_Some in Hx. lia. }
  assert (Forall (λ x, x ∈ l0 ∧ 0 <= order pivot x) (take p work)) as Htake.
  { apply Forall_lookup. intros i x Hx. apply lookup_take_Some in Hx as [Hx Hi].
    pose proof (proj1 (Forall_lookup _ _) Hdom) as Hdom'. eauto. }
  assert (Forall (λ x, x ∈ l0 ∧ order pivot x < 0) (drop p work)) as Hdrop.
  { apply Forall_lookup. intros i x Hx. rewrite lookup_drop in Hx.
    pose proof (proj1 (Forall_lookup _ _) Hdom) as Hdom'.
    split; [eauto|]. apply (Hafter (p + i)%nat); [lia|done]. }
  pose proof (take_drop p work) as Hw. clear Hbefore Hafter. clearbody p.
  set (before := take p work) in *. set (after := drop p work) in *.
  clearbody before after. subst work.
  apply StronglySorted_app in Hsorted as (Hcross & Hs1 & Hs2).
  rewrite Forall_forall in Htake, Hdrop.
  split.
  - apply StronglySorted_app. split_and!; [|done|].
    + intros x1 x2 Hx1 [->|Hx2]%elem_of_cons; [|by apply Hcross].
      destruct (Htake x1 Hx1) as [Hd Hge].
      split_and!; [done..|]. by apply (consistent_ge_le comparefn l0 Hcons).
    + constructor; [done|]. apply Forall_forall. intros x Hx.
      destruct (Hdrop x Hx) as [Hd Hlt]. split_and!; [done..|lia].
  - intros a Ha. rewrite !filter_app, !filter_cons, filter_nil.
    destruct (decide (order a pivot = 0)) as [Hap|]; [|by rewrite app_nil_r].
    assert (filter (λ x, order a x = 0) after = []) as ->; [|by rewrite !app_nil_r].
    apply filter_none. intros x Hx Hax. destruct (Hdrop x Hx) as [Hd Hlt].
    pose proof (consistent_tied comparefn l0 Hcons a pivot x Ha Hp Hd Hap Hax). lia.
Qed.

Lemma foldl_binaryInsert_sorted rest work :
  Forall (λ x, x ∈ l0) work → Forall (λ x, x ∈ l0) rest → StronglySorted notAfter work →
  StronglySorted notAfter (foldl (binaryInsert order) work rest)
  ∧ ∀ a, a ∈ l0 →
      filter (λ x, order a x = 0) (foldl (binaryInsert order) work rest)
      = filter (λ x, order a x = 0) (work ++ rest).
Proof.
  revert work. induction rest as [|pivot rest IH]; intros work Hwork Hrest Hsorted; simpl.
  - split; [done|]. intros a _. by rewrite app_nil_r.
  - apply Forall_cons in Hrest as [Hp Hrest].
    destruct (binaryInsert_sorted work pivot Hp Hsorted Hwork) as [Hs Hf].
    destruct (IH (binaryInsert order work pivot)) as [Hs' Hf']; [|done|done|].
    { rewrite binaryInsert_Permutation. apply Forall_app. split; [done|by constructor]. }
    split; [done|]. intros a Ha. rewrite (Hf' a Ha), filter_app, (Hf a Ha).
    by rewrite <- filter_app, <- app_assoc.
Qed.

(** The run that [CountAndMakeRun] finds is a chain of the comparator. *)
Lemma extendRun_chain desc prev l run rest :
  extendRun order desc prev l = (run, rest) →
  Sorted (λ x y, if desc then order y x < 0 else 0 <= order y x) (prev :: run).
Proof.
  revert prev run rest. induction l as [|x l IH]; intros prev run rest; simpl.
  - intros [= <- <-]. repeat constructor.
  - destruct (if desc then bool_decide (0 <= order x prev) else bool_decide (order x prev < 0))
      eqn:Hstop.
    + intros [= <- <-]. repeat constructor.
    + destruct (extendRun order desc x l) as [run' rest'] eqn:E.
      intros [= <- <-]. constructor; [by eapply IH|].
      constructor. destruct desc.
      * apply bool_decide_eq_false in Hstop. lia.
      * apply bool_decide_eq_false in Hstop. lia.
Qed.

Lemma Sorted_dom (R R' : A → A → Prop) l :
  (∀ x y, x ∈ l0 → y ∈ l0 → R x y → R' x y) →
  Forall (λ x, x ∈ l0) l → Sorted R l → Sorted R' l.
Proof.
  intros HR Hdom. induction 1 as [|x l Hl IH Hx]; [constructor|].
  apply Forall_cons in Hdom as [Hd Hdom]. constructor; [auto|].
  destruct Hx as [|y l' Hxy]; constructor.
  apply Forall_cons in Hdom as [Hy _]. auto.
Qed.

(** A strictly sorted list has at most one element of a class of ties. *)
Lemma filter_tied_strict a l :
  a ∈ l0 → StronglySorted before l → (length (filter (λ x, (order a x = 0)%Z) l) <= 1)%nat.
Proof.
  intros Ha. induction 1 as [|z l Hl IH Hz]; [simpl; lia|].
  rewrite filter_cons. case_decide as Haz; [|done].
  rewrite filter_none; [simpl; lia|].
  intros w Hw Haw. rewrite Forall_forall in Hz. destruct (Hz w Hw) as (Hzd & Hwd & Hzw).
  pose proof (consistent_tied comparefn l0 Hcons a z w Ha Hzd Hwd Haz Haw). lia.
Qed.

Lemma countAndMakeRun_sorted l run rest :
  countAndMakeRun order l = (run, rest) → Forall (λ x, x ∈ l0) l →
  StronglySorted notAfter run
  ∧ ∀ a, a ∈ l0 → filter (λ x, order a x = 0) (run ++ rest) = filter (λ x, order a x = 0) l.
Proof.
  unfold countAndMakeRun. destruct l as [|x [|y l]].
  - intros [= <- <-] _. split; [constructor|done].
  - intros [= <- <-] _. split; [repeat constructor|done].
  - destruct (extendRun order _ y l) as [run' rest'] eqn:E.
    pose proof (extendRun_app order _ _ _ _ _ E) as ->.
    apply extendRun_chain in E.
    intros [= <- <-] Hdom.
    assert (Forall (λ x, x ∈ l0) (x :: y :: run')) as Hdom'.
    { rewrite !app_comm_cons in Hdom. by apply Forall_app in Hdom as [? _]. }
    destruct (bool_decide (order y x < 0)) eqn:Hdesc.
    + (* strictly descending: reversed *)
      apply bool_decide_eq_true in Hdesc.
      assert (Sorted (flip before) (x :: y :: run')) as Hchain.
      { apply (Sorted_dom (λ a b, order b a < 0)); [by intros a b ? ? ?| done|].
        constructor; [done|by constructor]. }
      apply Sorted_reverse in Hchain.
      assert (StronglySorted before (reverse (x :: y :: run'))) as Hs.
      { apply Sorted_StronglySorted; [apply before_trans|].
        eapply (Sorted_dom (flip (flip before))); [by intros a b _ _ ?| |done].
        by rewrite reverse_Permutation. }
      split.
      * eapply StronglySorted_weaken; [|done]. intros a b _ _ (? & ? & ?). split_and!; [done..|lia].
      * intros a Ha. change (x :: y :: run' ++ rest') with ((x :: y :: run') ++ rest').
        rewrite !filter_app. f_equal.
        pose proof (filter_tied_strict a _ Ha Hs) as Hlen.
        rewrite filter_reverse in Hlen |- *. rewrite length_reverse in Hlen.
        destruct (filter _ (x :: y :: run')) as [|u [|v t]]; [done|done|simpl in Hlen; lia].
    + apply bool_decide_eq_false in Hdesc. split; [|done].
      apply Sorted_StronglySorted; [apply notAfter_trans|].
      apply (Sorted_dom (λ a b, 0 <= order b a)).
      * intros a b Ha Hb Hab. split_and!; [done..|].
        by apply (consistent_ge_le comparefn l0 Hcons).
      * done.
      * constructor; [done|]. constructor. lia.
Qed.

Lemma timSort_sorted l :
  Forall (λ x, x ∈ l0) l →
  StronglySorted (λ x y, order x y <= 0) (timSort order l)
  ∧ ∀ a, a ∈ l0 → filter (λ x, order a x = 0) (timSort order l) = filter (λ x, order a x = 0) l.
Proof.
  intros Hdom. unfold timSort.
  destruct (countAndMakeRun order l) as [run rest] eqn:E.
  destruct (countAndMakeRun_sorted l run rest E Hdom) as [Hrun Hf].
  pose proof (countAndMakeRun_Permutation order l run rest E) as Hperm.
  rewrite <- Hperm in Hdom. apply Forall_app in Hdom as [Hd1 Hd2].
  destruct (foldl_binaryInsert_sorted rest run Hd1 Hd2 Hrun) as [Hs Hf'].
  split.
  - eapply StronglySorted_weaken; [|done]. by intros x y _ _ (_ & _ & ?).
  - intros a Ha. by rewrite Hf', Hf.
Qed.
End sorted.

Lemma Array_sort_permutation {A} (comparefn : A → A → number) (l : list A) :
  Array_sort comparefn l ≡ₚ l.
Proof. apply timSort_Permutation. Qed.

Lemma Array_sort_sorted {A} (comparefn : A → A → number) (l : list A) :
  ConsistentComparator comparefn l →
  StronglySorted (λ x y, SortCompare comparefn x y <= 0) (Array_sort comparefn l).
Proof.
  intros Hcons. apply (timSort_sorted comparefn l Hcons). by apply Forall_forall.
Qed.

Lemma Array_sort_stable {A} (comparefn : A → A → number) (l : list A) :
  ConsistentComparator comparefn l →
  ∀ a, a ∈ l →
    filter (λ x, SortCompare comparefn a x = 0) (Array_sort comparefn l)
    = filter (λ x, SortCompare comparefn a x = 0) l.
Proof.
  intros Hcons. apply (timSort_sorted comparefn l Hcons). by apply Forall_forall.
Qed.
End Host.

Definition hostRuntime : JsRuntime :=
  {| toLowerCase := Host.toLowerCase;
     Date_getTime := Host.Date_getTime;
     Date_toISOString := Host.Date_toISOString;
     Date_localMidnight := Host.Date_localMidnight;
     Date_addDays := Host.Date_addDays;
     Date_addMonth := Host.Date_addMonth;
     parseInt := Host.parseInt;
     Date_getTime_range := Host.Date_getTime_range;
     Date_getTime_empty := eq_refl;
     Array_sort := @Host.Array_sort;
     Array_sort_permutation := @Host.Array_sort_permutation;
     Array_sort_sorted := @Host.Array_sort_sorted;
     Array_sort_stable := @Host.Array_sort_stable |}.

(* ------------------------------------------------------------------ *)
(** ** Vocabulary of the properties *)

(** [id] is in the bucket of [k]: the index has a set under [k] and the set
    has [id]. *)
Definition in_bucket {K} `{EqDecision K}
    (index : JsMap.t K (JsSet.t ID)) (k : K) (id : ID) : Prop :=
  ∃ ids, JsMap.get index k = Some ids ∧ id ∈ ids.

(** A project id that the index code takes as present: defined and not [""]. *)
Definition projectOf (task : Task) (p : ID) : Prop :=
  Task.projectId task = Some p ∧ p ≠ "".

(** The indexes of [s] hold every contribution of the tasks [f] (a lookup
    function, so that it can also describe the map in the middle of an
    update), and every task is stored under its own id. *)
Record Complete (f : ID → option Task) (s : IndexStore.t) : Prop := {
  complete_key : ∀ id t, f id = Some t → Task.id t = id;
  complete_status : ∀ id t, f id = Some t →
    in_bucket (IndexStore.tasksByStatus s) (Task.status t) id;
  complete_priority : ∀ id t, f id = Some t →
    in_bucket (IndexStore.tasksByPriority s) (Task.priority t) id;
  complete_tag : ∀ id t tag, f id = Some t → tag ∈ Task.tags t →
    in_bucket (IndexStore.tasksByTag s) tag id;
  complete_project : ∀ id t p, f id = Some t → projectOf t p →
    in_bucket (IndexStore.tasksByProject s) p id
}.

(** The indexes of [s] hold nothing but contributions of the tasks [f]. *)
Record Sound (f : ID → option Task) (s : IndexStore.t) : Prop := {
  sound_status : ∀ id st, in_bucket (IndexStore.tasksByStatus s) st id →
    ∃ t, f id = Some t ∧ Task.status t = st;
  sound_priority : ∀ id p, in_bucket (IndexStore.tasksByPriority s) p id →
    ∃ t, f id = Some t ∧ Task.priority t = p;
  sound_tag : ∀ id tag, in_bucket (IndexStore.tasksByTag s) tag id →
    ∃ t, f id = Some t ∧ tag ∈ Task.tags t;
  sound_project : ∀ id p, in_bucket (IndexStore.tasksByProject s) p id →
    ∃ t, f id = Some t ∧ projectOf t p;
  sound_overdue : ∀ id, id ∈ IndexStore.overdueTasks s → is_Some (f id)
}.

(** Index consistency of a store: its indexes are exactly the contributions of
    its tasks. *)
Definition IndexConsistent (s : IndexStore.t) : Prop :=
  Complete (IndexStore.getTask s) s ∧ Sound (IndexStore.getTask s) s.

(** [id] is in no bucket of the four indexes and not in the overdue set. *)
Definition purged (s : IndexStore.t) (id : ID) : Prop :=
  (∀ st, ¬ in_bucket (IndexStore.tasksByStatus s) st id)
  ∧ (∀ p, ¬ in_bucket (IndexStore.tasksByPriority s) p id)
  ∧ (∀ tag, ¬ in_bucket (IndexStore.tasksByTag s) tag id)
  ∧ (∀ p, ¬ in_bucket (IndexStore.tasksByProject s) p id)
  ∧ id ∉ IndexStore.overdueTasks s.

(** The commands on projects and tags leave tasks and indexes alone. *)
Definition same_tasks_and_indexes (s s' : IndexStore.t) : Prop :=
  IndexStore.tasks s' = IndexStore.tasks s
  ∧ IndexStore.tasksByProject s' = IndexStore.tasksByProject s
  ∧ IndexStore.tasksByTag s' = IndexStore.tasksByTag s
  ∧ IndexStore.tasksByStatus s' = IndexStore.tasksByStatus s
  ∧ IndexStore.tasksByPriority s' = IndexStore.tasksByPriority s
  ∧ IndexStore.overdueTasks s' = IndexStore.overdueTasks s.

(** The lookup function [f] without [id], and with [task] under its id. *)
Definition without (f : ID → option Task) (id : ID) : ID → option Task :=
  λ id', if decide (id = id') then None else f id'.

Definition with_task (f : ID → option Task) (task : Task) : ID → option Task :=
  λ id', if decide (Task.id task = id') then Some task else f id'.

(** The mutators of the store as commands, to speak of sequences of them. *)
Inductive Op :=
  | AddTask (task : Task) (now : Z)
  | UpdateTask (task : Task) (now : Z)
  | RemoveTask (id : ID)
  | AddProject (project : Project)
  | UpdateProject (project : Project)
  | RemoveProject (id : ID)
  | AddTag (tag : Tag)
  | UpdateTag (tag : Tag)
  | RemoveTag (id : ID)
  | Clear.

(** The calls on a repository whose tags are made through
    [TagService.getOrCreate]: that method, with the id and the instant that a
    created tag gets, and the mutators of the store. *)
Inductive Call :=
  | GetOrCreate (name : string) (color : option string) (id : ID) (now : Z)
  | Command (op : Op).

Section ops.
Context `{JsRuntime}.

Definition apply (s : IndexStore.t) (op : Op) : IndexStore.t :=
  match op with
  | AddTask task now => IndexStore.addTask s task now
  | UpdateTask task now => IndexStore.updateTask s task now
  | RemoveTask id => IndexStore.removeTask s id
  | AddProject p => IndexStore.addProject s p
  | UpdateProject p => IndexStore.updateProject s p
  | RemoveProject id => IndexStore.removeProject s id
  | AddTag tag => IndexStore.addTag s tag
  | UpdateTag tag => IndexStore.updateTag s tag
  | RemoveTag id => IndexStore.removeTag s id
  | Clear => IndexStore.clear s
  end.

(** the store after the commands [ops], starting from [s] *)
Definition run_from (s : IndexStore.t) (ops : list Op) : IndexStore.t := foldl apply s ops.

(** the store after the commands [ops], starting from [new IndexStore()] *)
Definition run (ops : list Op) : IndexStore.t := run_from IndexStore.new ops.

(** Every [AddTask] of the sequence adds an id that the store does not hold at
    that point, as [TaskService.create] does with a fresh UUID. *)
Fixpoint adds_fresh (s : IndexStore.t) (ops : list Op) : Prop :=
  match ops with
  | [] => True
  | op :: ops' =>
      match op with
      | AddTask task _ => IndexStore.getTask s (Task.id task) = None
      | _ => True
      end ∧ adds_fresh (apply s op) ops'
  end.


Definition call (s : IndexStore.t) (c : Call) : IndexStore.t :=
  match c with
  | GetOrCreate name color id now => (TagService.getOrCreate s name color id now).2
  | Command op => apply s op
  end.

(** the store after the calls [cs], starting from [new IndexStore()] *)
Definition calls (cs : list Call) : IndexStore.t := foldl call IndexStore.new cs.


End ops.

Section matching.
Context `{JsRuntime}.

(** What a query asks of a task, category by category, as [searchTasks]
    reads the query: a list counts when it is given and not empty, a string
    when it is given and not [""]. *)
Definition task_matches (query : SearchQuery) (task : Task) : bool :=
  match nonEmpty (SearchQuery.statuses query) with
  | Some statuses => bool_decide (Task.status task ∈ statuses)
  | None => true
  end
  && match nonEmpty (SearchQuery.priorities query) with
     | Some priorities => bool_decide (Task.priority task ∈ priorities)
     | None => true
     end
  && match nonEmpty (SearchQuery.tags query) with
     | Some tagIds => bool_decide (Exists (λ tagId, tagId ∈ Task.tags task) tagIds)
     | None => true
     end
  && (if truthy (SearchQuery.projectId query)
      then bool_decide (Task.projectId task = SearchQuery.projectId query) else true)
  && (if truthy (SearchQuery.dueBefore query)
      then IndexStore.dueAt_before (default "" (SearchQuery.dueBefore query)) task else true)
  && (if truthy (SearchQuery.text query)
      then IndexStore.text_in_task (toLowerCase (default "" (SearchQuery.text query))) task
      else true).

(** The same with every given list counted, the empty one too: a task passes
    a category when the field is absent or names a value of the task. *)
Definition task_matches_given (query : SearchQuery) (task : Task) : bool :=
  match SearchQuery.statuses query with
  | Some statuses => bool_decide (Task.status task ∈ statuses)
  | None => true
  end
  && match SearchQuery.priorities query with
     | Some priorities => bool_decide (Task.priority task ∈ priorities)
     | None => true
     end
  && match SearchQuery.tags query with
     | Some tagIds => bool_decide (Exists (λ tagId, tagId ∈ Task.tags task) tagIds)
     | None => true
     end
  && match SearchQuery.projectId query with
     | Some p => bool_decide (Task.projectId task = Some p)
     | None => true
     end.

(** The ids that the index buckets and the scans let through, as a
    proposition: union within a category, intersection across them. *)
Definition in_candidates (s : IndexStore.t) (query : SearchQuery) (id : ID) : Prop :=
  match nonEmpty (SearchQuery.statuses query) with
  | Some statuses => ∃ st, st ∈ statuses ∧ in_bucket (IndexStore.tasksByStatus s) st id
  | None => is_Some (IndexStore.getTask s id)
  end
  ∧ match nonEmpty (SearchQuery.priorities query) with
    | Some priorities => ∃ p, p ∈ priorities ∧ in_bucket (IndexStore.tasksByPriority s) p id
    | None => True
    end
  ∧ match nonEmpty (SearchQuery.tags query) with
    | Some tagIds => ∃ tagId, tagId ∈ tagIds ∧ in_bucket (IndexStore.tasksByTag s) tagId id
    | None => True
    end
  ∧ (truthy (SearchQuery.projectId query) →
     in_bucket (IndexStore.tasksByProject s) (default "" (SearchQuery.projectId query)) id)
  ∧ (truthy (SearchQuery.dueBefore query) →
     IndexStore.due_before s (default "" (SearchQuery.dueBefore query)) id)
  ∧ (truthy (SearchQuery.text query) →
     IndexStore.text_matches s (toLowerCase (default "" (SearchQuery.text query))) id).
End matching.

(** The queries with one field: [{ statuses }], [{ priorities }], [{ tags }],
    [{ projectId }] and [{ sort: { field, dir } }]. *)
Definition queryStatuses (statuses : list Status) : SearchQuery :=
  SearchQuery.mk None (Some statuses) None None None None None.
Definition queryPriorities (priorities : list Priority) : SearchQuery :=
  SearchQuery.mk None None (Some priorities) None None None None.
Definition queryTags (tagIds : list ID) : SearchQuery :=
  SearchQuery.mk None None None (Some tagIds) None None None.
Definition queryProject (projectId : ID) : SearchQuery :=
  SearchQuery.mk None None None None (Some projectId) None None.
Definition querySort (field : SortField) (dir : SortDirection) : SearchQuery :=
  SearchQuery.mk None None None None None None (Some (field, dir)).

(** the ids and the priorities of a result, in order *)
Definition ids_of (items : list TaskListItem) : list ID :=
  (λ item, Task.id (TaskListItem.task item)) <$> items.
Definition priorities_of (items : list TaskListItem) : list Priority :=
  (λ item, Task.priority (TaskListItem.task item)) <$> items.

(* ------------------------------------------------------------------ *)
(** ** Fixtures of the examples *)

Section fixtures.
#[local] Existing Instance hostRuntime.

(** 2024-01-01T00:00:00.000Z and one day later *)
Definition day0 : Z := 1704067200000.
Definition day1 : Z := day0 + 86400000.

Definition input (title : string) (status : Status) (priority : Priority)
    (projectId : option ID) (tags : list ID) (dueAt : option Timestamp) : CreateTaskInput :=
  CreateTaskInput.mk title None (Some status) (Some priority) projectId (Some tags) dueAt.

Definition projectWork : Project :=
  Project.mk "p-work" "Work" (Num 0) None "2024-01-01T00:00:00.000Z" "2024-01-01T00:00:00.000Z".

Definition tagUrgent : Tag := createTag (CreateTagInput.mk "Urgent" (Some "red")) "t-1" day0.
Definition tagUrgentLower : Tag := createTag (CreateTagInput.mk "urgent" None) "t-2" day0.

(** A (priority 1, todo, in project Work, tagged urgent, due on day 0),
    B (priority 3, done, due on day 0), C (priority 5, doing, no due date),
    D (priority 2, todo, tagged urgent) *)
Definition taskA : Task :=
  createTask (input "Important task" todo 1 (Some "p-work") ["t-1"]
                    (Some "2024-01-01T00:00:00.000Z")) "a" day0.
Definition taskB : Task :=
  createTask (input "Regular task" done 3 None [] (Some "2024-01-01T00:00:00.000Z")) "b" day0.
Definition taskC : Task := createTask (input "Call back" doing 5 None [] None) "c" day0.
Definition taskD : Task := createTask (input "Daily review" todo 2 None ["t-1"] None) "d" day0.

(** [taskA] again under the same id, now done *)
Definition taskA_done : Task :=
  createTask (input "Important task" done 1 (Some "p-work") ["t-1"] None) "a" day0.

(** the store after adding A and B *)
Definition storeAB : IndexStore.t :=
  run [AddProject projectWork; AddTag tagUrgent; AddTask taskA day0; AddTask taskB day0].

(** the calls that build the store of the tasks A and B, its tag made by
    [getOrCreate] *)
Definition callsAB : list Call :=
  [Command (AddProject projectWork); GetOrCreate "Urgent" (Some "red") "t-1" day0;
   Command (AddTask taskA day0); Command (AddTask taskB day0)].

(** the store after adding tasks of priorities 3, 1, 5, 2 in this order *)
Definition storeBACD : IndexStore.t :=
  run [AddProject projectWork; AddTag tagUrgent;
       AddTask taskB day0; AddTask taskA day0; AddTask taskC day0; AddTask taskD day0].

(** the store after [addTask] of A and then of another task with A's id *)
Definition storeReadded : IndexStore.t := run [AddTask taskA day0; AddTask taskA_done day0].

(** a task created at [createdAt], and seven of them: u1, u2 and u5 with a
    [createdAt] that is not a date, u3 created on January 3, u4 on January 1,
    u6 and u7 on January 2 *)
Definition taskCreated (id : ID) (createdAt : Timestamp) : Task :=
  Task.mk id "Report" None todo 3 None [] createdAt createdAt None None.

Definition storeDates : IndexStore.t :=
  run [AddTask (taskCreated "u1" "soon") day0;
       AddTask (taskCreated "u2" "soon") day0;
       AddTask (taskCreated "u3" "2024-01-03T00:00:00.000Z") day0;
       AddTask (taskCreated "u4" "2024-01-01T00:00:00.000Z") day0;
       AddTask (taskCreated "u5" "soon") day0;
       AddTask (taskCreated "u6" "2024-01-02T00:00:00.000Z") day0;
       AddTask (taskCreated "u7" "2024-01-02T00:00:00.000Z") day0].

(** two tags whose names differ in case only, the second created last *)
Definition storeTwoTags : IndexStore.t := run [AddTag tagUrgent; AddTag tagUrgentLower].

End fixtures.

Section fixture_queries.
(** [search({statuses:[todo,doing], tags:[urgent]})] *)
Definition queryTodoDoingUrgent : SearchQuery :=
  SearchQuery.mk None (Some [todo; doing]) None (Some ["t-1"]) None None None.

(** [{ id: 'zz', status: 'done' }] and [{ id: 'a', status: 'done' }] *)
Definition inputDone (id : ID) : UpdateTaskInput :=
  UpdateTaskInput.mk id None None (Some done) None None None None.

(** [{ id: 'a', title: 'Renamed' }] *)
Definition inputRename (id : ID) : UpdateTaskInput :=
  UpdateTaskInput.mk id (Some "Renamed") None None None None None None.
End fixture_queries.

(** The invariant of the data model: [completedAt] is present iff the status
    is [done]. *)
Definition completedAt_iff_done (task : Task) : Prop :=
  is_Some (Task.completedAt task) ↔ Task.status task = done.


(* ------------------------------------------------------------------ *)
(** ** The order of the design

    The key by which the design orders the records for a sort field: the
    lower-cased title, the priority, an instant, or "never" for a task
    without due date, which comes after every instant. *)

Inductive SortKey :=
  | KeyText (v : string)
  | KeyNumber (v : Z)
  | KeyNever.

#[global] Instance SortKey_eq_dec : EqDecision SortKey.
Proof. solve_decision. Defined.

Definition key_le (a b : SortKey) : Prop :=
  match a, b with
  | KeyText x, KeyText y => String.leb x y = true
  | KeyNumber x, KeyNumber y => x <= y
  | KeyNumber _, KeyNever => True
  | KeyNever, KeyNever => True
  | _, _ => False
  end.

Section order.
Context `{JsRuntime}.

(** the instant that a timestamp denotes, if it denotes one *)
Definition instant (timestamp : Timestamp) : option SortKey :=
  match Date_getTime timestamp with
  | Num z => Some (KeyNumber z)
  | NaN => None
  end.

(** the key of a record; none when the timestamp to compare is not a date *)
Definition sortKey (field : SortField) (item : TaskListItem) : option SortKey :=
  let task := TaskListItem.task item in
  match field with
  | title => Some (KeyText (toLowerCase (Task.title task)))
  | priority => Some (KeyNumber (Task.priority task))
  | createdAt => instant (Task.createdAt task)
  | updatedAt => instant (Task.updatedAt task)
  | dueAt =>
      match Task.dueAt task with
      | Some due => if bool_decide (due ≠ "") then instant due else Some KeyNever
      | None => Some KeyNever
      end
  end.

(** The comparison value of a record with a key. *)
Definition value_of_key (k : SortKey) : IndexStore.SortValue :=
  match k with
  | KeyText v => IndexStore.VString v
  | KeyNumber v => IndexStore.VNumber (Num v)
  | KeyNever => IndexStore.VNumber (Num MAX_SAFE_INTEGER)
  end.

(** The keys of a field are of one kind: texts, numbers, or instants and
    "never". *)
Definition key_kind (field : SortField) (k : SortKey) : Prop :=
  match field, k with
  | title, KeyText _ => True
  | priority, KeyNumber _ => True
  | (createdAt | updatedAt), KeyNumber z => z <= MAX_TIME_VALUE
  | dueAt, KeyNumber z => z <= MAX_TIME_VALUE
  | dueAt, KeyNever => True
  | _, _ => False
  end.

(** [a] is not after [b] in the order of [field] and [dir] *)
Definition ordered (field : SortField) (dir : SortDirection) (a b : TaskListItem) : Prop :=
  match sortKey field a, sortKey field b with
  | Some ka, Some kb => if decide (dir = asc) then key_le ka kb else key_le kb ka
  | _, _ => False
  end.
End order.

(* ------------------------------------------------------------------ *)
(** ** Tokens of the text query *)











(* ------------------------------------------------------------------ *)
(** ** Well-formed stores, valid entities, parsed queries *)

(** A map lists each key once and holds every value under the value's own id. *)
Definition Keyed {V} (key : V → ID) (m : JsMap.t ID V) : Prop :=
  NoDup (JsMap.keys m) ∧ ∀ k v, JsMap.get m k = Some v → key v = k.

(** An index lists each key once, and each of its buckets is a non-empty set
    that holds each id once. *)
Definition BucketsWellFormed {K} `{EqDecision K} (index : JsMap.t K (JsSet.t ID)) : Prop :=
  NoDup (JsMap.keys index)
  ∧ ∀ k ids, JsMap.get index k = Some ids → ids ≠ [] ∧ NoDup ids.

Record StoreWellFormed (s : IndexStore.t) : Prop := {
  wf_tasks : Keyed Task.id (IndexStore.tasks s);
  wf_projects : Keyed Project.id (IndexStore.projects s);
  wf_tags : Keyed Tag.id (IndexStore.tags s);
  wf_tagByName : NoDup (JsMap.keys (IndexStore.tagByName s));
  wf_byProject : BucketsWellFormed (IndexStore.tasksByProject s);
  wf_byTag : BucketsWellFormed (IndexStore.tasksByTag s);
  wf_byStatus : BucketsWellFormed (IndexStore.tasksByStatus s);
  wf_byPriority : BucketsWellFormed (IndexStore.tasksByPriority s);
  wf_overdue : NoDup (IndexStore.overdueTasks s)
}.

(** Every id of the maintained overdue set is the id of a stored task that
    was overdue at some instant. *)
Definition OverdueSound `{JsRuntime} (s : IndexStore.t) : Prop :=
  ∀ id, id ∈ IndexStore.overdueTasks s →
        ∃ t now, IndexStore.getTask s id = Some t ∧ IndexStore.overdue_at now t = true.

(** [a] is not after [b] by [order]. *)
Definition order_le (a b : Project) : Prop :=
  num_le (Project.order a) (Project.order b) = true.

(** [q] comes before [p] in [h]. *)
Definition comes_before {A} (h : list A) (q p : A) : Prop :=
  ∃ l1 l2, h = l1 ++ p :: l2 ∧ q ∈ l1.

(** The state of [hierarchy()] between two calls of [addProject]: [visited]
    holds the ids of [hierarchy], no id twice; the projects are projects of
    [allProjects], and each comes after its parent. *)
Record HierarchyInv (allProjects : list Project) (st : ProjectService.HierarchyState) : Prop := {
  hinv_visited : ∀ id, id ∈ st.2 ↔ id ∈ Project.id <$> st.1;
  hinv_nodup : NoDup (Project.id <$> st.1);
  hinv_sub : ∀ p, p ∈ st.1 → p ∈ allProjects;
  hinv_order : ∀ p q, p ∈ st.1 → ProjectService.findParent allProjects p = Some q →
                      comes_before st.1 q p
}.

Definition stackOverflow : string := "RangeError: Maximum call stack size exceeded".

(** A task that passes the checks of [validateTaskInput]. *)
Definition ValidTask `{JsRuntime} (t : Task) : Prop :=
  trim (Task.title t) ≠ "" ∧ (String.length (Task.title t) ≤ 200)%nat
  ∧ 1 <= Task.priority t <= 5
  ∧ (∀ d, Task.dueAt t = Some d → isValidTimestamp d = true)
  ∧ forallb isValidUuid (Task.tags t) = true.

Definition AllValid `{JsRuntime} (s : IndexStore.t) : Prop :=
  ∀ id t, IndexStore.getTask s id = Some t → ValidTask t.

(** The status that [toggleComplete] gives a task. *)
Definition toggled (status : Status) : Status :=
  if bool_decide (status = done) then todo else done.

(** The task that [archiveCompleted] stores for a completed task. *)
Definition archivedTask `{JsRuntime} (now : Z) (t : Task) : Task :=
  updateTask t (TaskService.inputStatus (Task.id t) archived) now.

(** milliseconds in a day *)
Definition millisecondsPerDay : Z := 1000 * 60 * 60 * 24.


(** A project that passes the checks of [validateProjectInput]. *)
Definition ValidProject (p : Project) : Prop :=
  trim (Project.name p) ≠ "" ∧ (String.length (Project.name p) ≤ 100)%nat
  ∧ num_lt (Project.order p) (Num 0) = false.

Definition AllValidProjects (s : IndexStore.t) : Prop :=
  ∀ id p, IndexStore.getProject s id = Some p → ValidProject p.

(** Further fixtures: a sub-project of Work that is stored before it, a tag
    id that is a UUID, and the store with B and C, whose tasks pass the
    validation. *)
Section more_fixtures.
#[local] Existing Instance hostRuntime.

Definition projectSub : Project :=
  Project.mk "p-sub" "Sub" (Num 1) (Some "p-work") "2024-01-01T00:00:00.000Z" "2024-01-01T00:00:00.000Z".

Definition opsProjects : list Op := [AddProject projectSub; AddProject projectWork].

(** a second root project and a second child of Work, stored before Work *)
Definition projectHome : Project :=
  Project.mk "p-home" "Home" (Num 2) None "2024-01-01T00:00:00.000Z" "2024-01-01T00:00:00.000Z".
Definition projectInbox : Project :=
  Project.mk "p-inbox" "Inbox" (Num 0) (Some "p-work")
             "2024-01-01T00:00:00.000Z" "2024-01-01T00:00:00.000Z".

Definition opsProjectTree : list Op :=
  [AddProject projectHome; AddProject projectSub; AddProject projectInbox;
   AddProject projectWork].

(** three root projects of orders 3, [NaN] and 1 *)
Definition projectOrdered (id : ID) (order : number) : Project :=
  Project.mk id "Plan" order None "2024-01-01T00:00:00.000Z" "2024-01-01T00:00:00.000Z".

Definition opsProjectsNaN : list Op :=
  [AddProject (projectOrdered "p-3" (Num 3)); AddProject (projectOrdered "p-nan" NaN);
   AddProject (projectOrdered "p-1" (Num 1))].

(** 1 for a project with a parent id, 0 for one without *)
Definition projectLevel (p : Project) : nat :=
  if truthy (Project.parentId p) then 1%nat else 0%nat.

Definition uuidTag : ID := "123e4567-e89b-42d3-a456-426614174000".

Definition opsAB : list Op :=
  [AddProject projectWork; AddTag tagUrgent; AddTask taskA day0; AddTask taskB day0].

Definition opsBC : list Op := [AddTask taskB day0; AddTask taskC day0].

Definition storeBC : IndexStore.t := run opsBC.

(** the tasks A, B and C added on day 1, when the due date of A and B is past *)
Definition opsOverdue : list Op := [AddTask taskA day1; AddTask taskB day1; AddTask taskC day1].

(** [{ id: 't-1', name: 'Important' }] *)
Definition inputRenameTag : UpdateTagInput := UpdateTagInput.mk "t-1" (Some "Important") None.

(** a snapshot with the tasks A and B *)
Definition dataAB : DataStore :=
  DataStore.mk 1 [taskA; taskB] [projectWork] [tagUrgent] "2024-01-01T00:00:00.000Z".
End more_fixtures.

(* ================================================================== *)
(** * Properties *)

(** ** Sets and maps *)

Section containers.
Context {A : Type} `{EqDecision A}.
Implicit Types (s : list A) (x y : A).

Lemma JsSet_has_true s x : JsSet.has s x = true ↔ x ∈ s.
Proof. unfold JsSet.has. by rewrite bool_decide_eq_true. Qed.

Lemma JsSet_has_Is_true s x : JsSet.has s x ↔ x ∈ s.
Proof. unfold JsSet.has. by rewrite bool_decide_spec. Qed.

Lemma JsSet_elem_of_add s x y : y ∈ JsSet.add s x ↔ y ∈ s ∨ y = x.
Proof.
  unfold JsSet.add. destruct (JsSet.has s x) eqn:E.
  - apply JsSet_has_true in E. split; [by left|]. intros [?| ->]; done.
  - rewrite elem_of_app, list_elem_of_singleton. done.
Qed.

Lemma JsSet_elem_of_delete s x y : y ∈ JsSet.delete s x ↔ y ∈ s ∧ y ≠ x.
Proof. unfold JsSet.delete. rewrite list_elem_of_filter. tauto. Qed.

Lemma JsSet_elem_of_add_all (xs : list A) s y : y ∈ JsSet.add_all s xs ↔ y ∈ s ∨ y ∈ xs.
Proof.
  unfold JsSet.add_all. revert s. induction xs as [|x xs IH]; intros s; simpl.
  - rewrite elem_of_nil. tauto.
  - rewrite IH, JsSet_elem_of_add, elem_of_cons. tauto.
Qed.

Lemma JsSet_elem_of_of_list (xs : list A) y : y ∈ JsSet.of_list xs ↔ y ∈ xs.
Proof.
  unfold JsSet.of_list. rewrite JsSet_elem_of_add_all.
  unfold JsSet.empty. rewrite elem_of_nil. tauto.
Qed.

Lemma JsSet_NoDup_add s x : NoDup s → NoDup (JsSet.add s x).
Proof.
  intros Hs. unfold JsSet.add. destruct (JsSet.has s x) eqn:E; [done|].
  apply NoDup_app. split_and!; [done| |apply NoDup_singleton].
  intros y Hy ->%list_elem_of_singleton.
  apply JsSet_has_true in Hy. congruence.
Qed.

Lemma JsSet_NoDup_add_all (xs : list A) s : NoDup s → NoDup (JsSet.add_all s xs).
Proof.
  unfold JsSet.add_all. revert s. induction xs as [|x xs IH]; intros s Hs; simpl; [done|].
  apply IH, JsSet_NoDup_add, Hs.
Qed.

Lemma JsSet_NoDup_of_list (xs : list A) : NoDup (JsSet.of_list xs).
Proof. apply JsSet_NoDup_add_all, NoDup_nil_2. Qed.

Lemma JsSet_of_list_nil : JsSet.of_list (A := A) [] = [].
Proof. done. Qed.
End containers.

Section maps.
Context {K V : Type} `{EqDecision K}.
Implicit Types (m : list (K * V)) (k : K) (v : V).

Lemma JsMap_get_set_eq m k v : JsMap.get (JsMap.set m k v) k = Some v.
Proof.
  induction m as [|[k' v'] m IH]; simpl.
  - by rewrite decide_True.
  - destruct (decide (k' = k)); simpl.
    + by rewrite decide_True.
    + by rewrite decide_False.
Qed.

Lemma JsMap_get_set_ne m k k' v : k ≠ k' → JsMap.get (JsMap.set m k v) k' = JsMap.get m k'.
Proof.
  intros Hne. induction m as [|[k0 v0] m IH]; simpl.
  - by rewrite decide_False.
  - destruct (decide (k0 = k)) as [->|]; simpl.
    + by rewrite !decide_False.
    + by rewrite IH.
Qed.

Lemma JsMap_get_set m k k' v :
  JsMap.get (JsMap.set m k v) k' = if decide (k = k') then Some v else JsMap.get m k'.
Proof.
  destruct (decide (k = k')) as [->|]; [apply JsMap_get_set_eq|by apply JsMap_get_set_ne].
Qed.

Lemma JsMap_get_delete m k k' :
  JsMap.get (JsMap.delete m k) k' = if decide (k = k') then None else JsMap.get m k'.
Proof.
  unfold JsMap.delete. induction m as [|[k0 v0] m IH]; simpl.
  - by destruct (decide (k = k')).
  - destruct (decide (k0 = k)) as [->|].
    + rewrite filter_cons_False by (simpl; tauto). rewrite IH.
      destruct (decide (k = k')); done.
    + rewrite filter_cons_True by done. simpl. rewrite IH.
      destruct (decide (k0 = k')) as [->|]; [|done]. by rewrite decide_False.
Qed.

Lemma JsMap_elem_of_keys m k : k ∈ JsMap.keys m ↔ is_Some (JsMap.get m k).
Proof.
  unfold JsMap.keys. induction m as [|[k' v'] m IH]; simpl.
  - rewrite elem_of_nil. split; [done|]. by intros [? ?].
  - rewrite elem_of_cons, IH. destruct (decide (k' = k)) as [->|]; [|naive_solver].
    split; eauto.
Qed.
End maps.

(** ** Buckets *)

Section buckets.
Context {K : Type} `{EqDecision K}.
Implicit Types (index : list (K * list ID)) (k : K) (id : ID).

Lemma in_bucket_add index k id k' id' :
  in_bucket (IndexStore.bucket_add index k id) k' id'
  ↔ in_bucket index k' id' ∨ (k' = k ∧ id' = id).
Proof.
  unfold IndexStore.bucket_add, JsMap.has, in_bucket.
  destruct (JsMap.get index k) as [ids0|] eqn:E.
  - rewrite E. setoid_rewrite JsMap_get_set.
    destruct (decide (k = k')) as [<-|Hne].
    + split.
      * intros (ids & [= <-] & Hin). apply JsSet_elem_of_add in Hin as [?| ->]; eauto.
      * intros [(ids & Hg & Hin)|[_ ->]]; eexists; (split; [done|]);
          apply JsSet_elem_of_add; [left|right]; congruence.
    + split; [by left|]. intros [?|[-> _]]; done.
  - rewrite JsMap_get_set_eq. setoid_rewrite JsMap_get_set.
    destruct (decide (k = k')) as [<-|Hne].
    + split.
      * intros (ids & [= <-] & Hin). apply JsSet_elem_of_add in Hin as [Hin| ->]; [|eauto].
        by apply elem_of_nil in Hin.
      * intros [(ids & Hg & Hin)|[_ ->]]; [congruence|].
        eexists; split; [done|]. apply JsSet_elem_of_add. by right.
    + setoid_rewrite JsMap_get_set_ne; [|done]. split; [by left|]. intros [?|[-> _]]; done.
Qed.

Lemma in_bucket_remove index k id k' id' :
  in_bucket (IndexStore.bucket_remove index k id) k' id'
  ↔ in_bucket index k' id' ∧ ¬ (k' = k ∧ id' = id).
Proof.
  unfold IndexStore.bucket_remove, in_bucket.
  destruct (JsMap.get index k) as [ids0|] eqn:E.
  - case_bool_decide as Hsize.
    + apply length_zero_iff_nil in Hsize.
      setoid_rewrite JsMap_get_delete.
      destruct (decide (k = k')) as [<-|Hne].
      * split; [by intros (? & ? & ?)|].
        intros [(ids & Hg & Hin) Hn]. exfalso.
        assert (id' ∈ JsSet.delete ids0 id) as Hd.
        { apply JsSet_elem_of_delete. split; [congruence|]. naive_solver. }
        rewrite Hsize in Hd. by apply elem_of_nil in Hd.
      * split; [intros ?; split; [done|naive_solver]|by intros [? _]].
    + setoid_rewrite JsMap_get_set.
      destruct (decide (k = k')) as [<-|Hne].
      * split.
        -- intros (ids & [= <-] & Hin). apply JsSet_elem_of_delete in Hin as [Hin Hne].
           split; [eauto|naive_solver].
        -- intros [(ids & Hg & Hin) Hn]. eexists; split; [done|].
           apply JsSet_elem_of_delete. split; [congruence|naive_solver].
      * split; [intros ?; split; [done|naive_solver]|by intros [? _]].
  - split; [|by intros [? _]]. intros (ids & Hg & Hin). split; [eauto|].
    intros [-> _]. congruence.
Qed.

Lemma in_bucket_add_all index (ks : list K) id k' id' :
  in_bucket (foldl (λ ix k, IndexStore.bucket_add ix k id) index ks) k' id'
  ↔ in_bucket index k' id' ∨ (k' ∈ ks ∧ id' = id).
Proof.
  revert index. induction ks as [|k ks IH]; intros index; simpl.
  - rewrite elem_of_nil. tauto.
  - rewrite IH, in_bucket_add, elem_of_cons. tauto.
Qed.

Lemma in_bucket_remove_all index (ks : list K) id k' id' :
  in_bucket (foldl (λ ix k, IndexStore.bucket_remove ix k id) index ks) k' id'
  ↔ in_bucket index k' id' ∧ ¬ (k' ∈ ks ∧ id' = id).
Proof.
  revert index. induction ks as [|k ks IH]; intros index; simpl.
  - rewrite elem_of_nil. tauto.
  - rewrite IH, in_bucket_remove, elem_of_cons. tauto.
Qed.

Lemma elem_of_union_buckets index (ks : list K) id :
  id ∈ IndexStore.union_buckets index ks ↔ ∃ k, k ∈ ks ∧ in_bucket index k id.
Proof.
  unfold IndexStore.union_buckets.
  assert (∀ acc, id ∈ foldl (λ acc k,
            match JsMap.get index k with
            | Some ids => JsSet.add_all acc ids
            | None => acc
            end) acc ks ↔ id ∈ acc ∨ ∃ k, k ∈ ks ∧ in_bucket index k id) as Hgen.
  { induction ks as [|k ks IH]; intros acc; simpl.
    - split; [by left|]. intros [?|(k & Hk & _)]; [done|]. by apply elem_of_nil in Hk.
    - rewrite IH. unfold in_bucket. setoid_rewrite elem_of_cons.
      destruct (JsMap.get index k) as [ids|] eqn:E.
      + rewrite JsSet_elem_of_add_all. split.
        * intros [[?|?]|(k' & ? & ?)]; [by left|right|right]; naive_solver.
        * intros [?|(k' & [->|?] & ids' & Hg & ?)]; [by left; left| |right; naive_solver].
          left; right. congruence.
      + split.
        * intros [?|(k' & ? & ?)]; [by left|right]; naive_solver.
        * intros [?|(k' & [->|?] & ids' & Hg & ?)]; [by left|congruence|right; naive_solver]. }
  rewrite Hgen. unfold JsSet.empty. rewrite elem_of_nil. tauto.
Qed.

Lemma NoDup_union_buckets index (ks : list K) : NoDup (IndexStore.union_buckets index ks).
Proof.
  unfold IndexStore.union_buckets.
  assert (∀ acc, NoDup acc → NoDup (foldl (λ acc k,
            match JsMap.get index k with
            | Some ids => JsSet.add_all acc ids
            | None => acc
            end) acc ks)) as Hgen.
  { induction ks as [|k ks IH]; intros acc Hacc; simpl; [done|].
    apply IH. destruct (JsMap.get index k); [by apply JsSet_NoDup_add_all|done]. }
  apply Hgen, NoDup_nil_2.
Qed.
End buckets.

Lemma elem_of_intersect (taskIds other : list ID) id :
  id ∈ IndexStore.intersect taskIds other ↔ id ∈ taskIds ∧ id ∈ other.
Proof.
  unfold IndexStore.intersect.
  rewrite JsSet_elem_of_of_list, list_elem_of_filter, JsSet_has_Is_true. tauto.
Qed.

(** ** Index maintenance *)

Section maintenance.
Context `{JsRuntime}.
Implicit Types (s : IndexStore.t) (f : ID → option Task) (task old : Task).

Lemma Complete_ext f g s : (∀ id, f id = g id) → Complete f s → Complete g s.
Proof.
  intros Hfg [Hk Hs Hp Ht Hj].
  split; intros *; rewrite <- Hfg; eauto.
Qed.

Lemma Sound_ext f g s : (∀ id, f id = g id) → Sound f s → Sound g s.
Proof.
  intros Hfg [Hs Hp Ht Hj Ho].
  split; intros *; rewrite <- Hfg; eauto.
Qed.

Lemma Complete_set_tasks f s m : Complete f s → Complete f (IndexStore.set_tasks s m).
Proof. intros [Hk Hs Hp Ht Hj]. by split. Qed.

Lemma Sound_set_tasks f s m : Sound f s → Sound f (IndexStore.set_tasks s m).
Proof. intros [Hs Hp Ht Hj Ho]. by split. Qed.

(** The project index after [removeTaskFromIndexes] and [updateTaskIndexes]. *)
Lemma in_project_remove s old p id :
  in_bucket (IndexStore.tasksByProject (IndexStore.removeTaskFromIndexes s old)) p id
  ↔ in_bucket (IndexStore.tasksByProject s) p id ∧ ¬ (projectOf old p ∧ id = Task.id old).
Proof.
  unfold projectOf. simpl. destruct (Task.projectId old) as [q|]; [|naive_solver].
  case_bool_decide; [|naive_solver].
  rewrite in_bucket_remove. naive_solver.
Qed.

Lemma in_project_update s task now p id :
  in_bucket (IndexStore.tasksByProject (IndexStore.updateTaskIndexes s task now)) p id
  ↔ in_bucket (IndexStore.tasksByProject s) p id ∨ (projectOf task p ∧ id = Task.id task).
Proof.
  unfold projectOf. simpl. destruct (Task.projectId task) as [q|]; [|naive_solver].
  case_bool_decide; [|naive_solver].
  rewrite in_bucket_add. naive_solver.
Qed.

Lemma Complete_removeTaskFromIndexes f s old :
  Complete f s →
  Complete (without f (Task.id old)) (IndexStore.removeTaskFromIndexes s old).
Proof.
  intros [Hk Hs Hp Ht Hj]. unfold without.
  split; [intros id t|intros id t|intros id t|intros id t tag|intros id t p];
    (case_decide; [done|]); intros Hf.
  - eauto.
  - simpl. apply in_bucket_remove. naive_solver.
  - simpl. apply in_bucket_remove. naive_solver.
  - intros Htag. simpl. apply in_bucket_remove_all. naive_solver.
  - intros Hpr. apply in_project_remove. naive_solver.
Qed.

Lemma Sound_removeTaskFromIndexes f s old :
  Sound f s → f (Task.id old) = Some old →
  Sound (without f (Task.id old)) (IndexStore.removeTaskFromIndexes s old).
Proof.
  intros [Hs Hp Ht Hj Ho] Hold. unfold without.
  split.
  - intros id st [Hin Hn]%in_bucket_remove.
    destruct (Hs _ _ Hin) as (t & Hf & Hst). case_decide; [|eauto].
    subst id. naive_solver.
  - intros id p [Hin Hn]%in_bucket_remove.
    destruct (Hp _ _ Hin) as (t & Hf & Hst). case_decide; [|eauto].
    subst id. naive_solver.
  - intros id tag [Hin Hn]%in_bucket_remove_all.
    destruct (Ht _ _ Hin) as (t & Hf & Hst). case_decide; [|eauto].
    subst id. naive_solver.
  - intros id p [Hin Hn]%in_project_remove.
    destruct (Hj _ _ Hin) as (t & Hf & Hst). case_decide; [|eauto].
    subst id. naive_solver.
  - intros id [Hin Hne]%JsSet_elem_of_delete. rewrite decide_False by done. eauto.
Qed.

Lemma Complete_updateTaskIndexes f s task now :
  Complete f s →
  Complete (with_task f task) (IndexStore.updateTaskIndexes s task now).
Proof.
  intros [Hk Hs Hp Ht Hj]. unfold with_task.
  split; [intros id t|intros id t|intros id t|intros id t tag|intros id t p];
    case_decide; intros Hf; simplify_eq/=; eauto.
  - apply in_bucket_add. naive_solver.
  - apply in_bucket_add. naive_solver.
  - apply in_bucket_add. naive_solver.
  - apply in_bucket_add. naive_solver.
  - intros ?. apply in_bucket_add_all. naive_solver.
  - intros ?. apply in_bucket_add_all. naive_solver.
  - intros ?. apply (in_project_update s t now). naive_solver.
  - intros ?. apply (in_project_update s task now). naive_solver.
Qed.

Lemma Sound_updateTaskIndexes f s task now :
  Sound f s → f (Task.id task) = None →
  Sound (with_task f task) (IndexStore.updateTaskIndexes s task now).
Proof.
  intros [Hs Hp Ht Hj Ho] Hfresh. unfold with_task.
  split.
  - intros id st [Hin|[-> ->]]%in_bucket_add.
    + destruct (Hs _ _ Hin) as (t & Hf & Hst). rewrite decide_False by congruence. eauto.
    + rewrite decide_True by done. eauto.
  - intros id p [Hin|[-> ->]]%in_bucket_add.
    + destruct (Hp _ _ Hin) as (t & Hf & Hst). rewrite decide_False by congruence. eauto.
    + rewrite decide_True by done. eauto.
  - intros id tag [Hin|[? ->]]%in_bucket_add_all.
    + destruct (Ht _ _ Hin) as (t & Hf & Hst). rewrite decide_False by congruence. eauto.
    + rewrite decide_True by done. eauto.
  - intros id p [Hin|[? ->]]%in_project_update.
    + destruct (Hj _ _ Hin) as (t & Hf & Hst). rewrite decide_False by congruence. eauto.
    + rewrite decide_True by done. eauto.
  - intros id. simpl. case_match.
    + intros [Hin| ->]%JsSet_elem_of_add.
      * case_decide; [eauto|]. by apply Ho.
      * rewrite decide_True by done. eauto.
    + intros [Hin Hne]%JsSet_elem_of_delete. rewrite decide_False by done. by apply Ho.
Qed.

Lemma getTask_addTask s task now id :
  IndexStore.getTask (IndexStore.addTask s task now) id = with_task (IndexStore.getTask s) task id.
Proof. unfold IndexStore.getTask, with_task. simpl. apply JsMap_get_set. Qed.

Lemma getTask_updateTask s task now id :
  IndexStore.getTask (IndexStore.updateTask s task now) id
  = with_task (IndexStore.getTask s) task id.
Proof.
  unfold IndexStore.getTask, IndexStore.updateTask, with_task.
  destruct (JsMap.get (IndexStore.tasks s) (Task.id task)); simpl; apply JsMap_get_set.
Qed.

Lemma getTask_removeTask s id id' :
  IndexStore.getTask (IndexStore.removeTask s id) id' = without (IndexStore.getTask s) id id'.
Proof.
  unfold IndexStore.getTask, IndexStore.removeTask, without.
  destruct (JsMap.get (IndexStore.tasks s) id) eqn:E; simpl.
  - apply JsMap_get_delete.
  - case_decide; congruence.
Qed.

Lemma with_task_without f task id :
  with_task (without f (Task.id task)) task id = with_task f task id.
Proof. unfold with_task, without. by case_decide. Qed.

Lemma Complete_new : Complete (IndexStore.getTask IndexStore.new) IndexStore.new.
Proof. by split. Qed.

Lemma Sound_new : Sound (IndexStore.getTask IndexStore.new) IndexStore.new.
Proof.
  split; try by intros ? ? (? & ? & ?).
  by intros ? ?%elem_of_nil.
Qed.

(** [addTask] keeps the indexes complete, whether or not the id is new. *)
Lemma Complete_addTask s task now :
  Complete (IndexStore.getTask s) s →
  Complete (IndexStore.getTask (IndexStore.addTask s task now)) (IndexStore.addTask s task now).
Proof.
  intros Hc. eapply Complete_ext; [intros id; symmetry; apply getTask_addTask|].
  apply Complete_updateTaskIndexes, Complete_set_tasks, Hc.
Qed.

(** [addTask] of an id that the store does not hold keeps the indexes sound. *)
Lemma Sound_addTask s task now :
  Sound (IndexStore.getTask s) s → IndexStore.getTask s (Task.id task) = None →
  Sound (IndexStore.getTask (IndexStore.addTask s task now)) (IndexStore.addTask s task now).
Proof.
  intros Hs Hfresh. eapply Sound_ext; [intros id; symmetry; apply getTask_addTask|].
  apply Sound_updateTaskIndexes; [|done]. apply Sound_set_tasks, Hs.
Qed.

Lemma Complete_updateTask s task now :
  Complete (IndexStore.getTask s) s →
  Complete (IndexStore.getTask (IndexStore.updateTask s task now))
           (IndexStore.updateTask s task now).
Proof.
  intros Hc. eapply Complete_ext; [intros id; symmetry; apply getTask_updateTask|].
  unfold IndexStore.updateTask.
  destruct (JsMap.get (IndexStore.tasks s) (Task.id task)) as [old|] eqn:E.
  - eapply Complete_ext; [apply with_task_without|].
    apply Complete_updateTaskIndexes, Complete_set_tasks.
    rewrite <- (complete_key _ _ Hc _ _ E).
    by apply Complete_removeTaskFromIndexes.
  - apply Complete_updateTaskIndexes, Complete_set_tasks, Hc.
Qed.

Lemma Sound_updateTask s task now :
  IndexConsistent s →
  Sound (IndexStore.getTask (IndexStore.updateTask s task now))
        (IndexStore.updateTask s task now).
Proof.
  intros [Hc Hs]. eapply Sound_ext; [intros id; symmetry; apply getTask_updateTask|].
  unfold IndexStore.updateTask.
  destruct (JsMap.get (IndexStore.tasks s) (Task.id task)) as [old|] eqn:E.
  - eapply Sound_ext; [apply with_task_without|].
    apply Sound_updateTaskIndexes; [|unfold without; by rewrite decide_True].
    apply Sound_set_tasks.
    pose proof (complete_key _ _ Hc _ _ E) as Hid. rewrite <- Hid.
    apply Sound_removeTaskFromIndexes; [done|]. by rewrite Hid.
  - apply Sound_updateTaskIndexes; [|done]. apply Sound_set_tasks, Hs.
Qed.

Lemma Complete_removeTask s id :
  Complete (IndexStore.getTask s) s →
  Complete (IndexStore.getTask (IndexStore.removeTask s id)) (IndexStore.removeTask s id).
Proof.
  intros Hc. eapply Complete_ext; [intros id'; symmetry; apply getTask_removeTask|].
  unfold IndexStore.removeTask.
  destruct (JsMap.get (IndexStore.tasks s) id) as [old|] eqn:E.
  - apply Complete_set_tasks.
    rewrite <- (complete_key _ _ Hc _ _ E).
    by apply Complete_removeTaskFromIndexes.
  - eapply Complete_ext; [|done]. intros id'. unfold without.
    case_decide; [|done]. subst id'. done.
Qed.

Lemma Sound_removeTask s id :
  IndexConsistent s →
  Sound (IndexStore.getTask (IndexStore.removeTask s id)) (IndexStore.removeTask s id).
Proof.
  intros [Hc Hs]. eapply Sound_ext; [intros id'; symmetry; apply getTask_removeTask|].
  unfold IndexStore.removeTask.
  destruct (JsMap.get (IndexStore.tasks s) id) as [old|] eqn:E.
  - apply Sound_set_tasks.
    pose proof (complete_key _ _ Hc _ _ E) as Hid. rewrite <- Hid.
    apply Sound_removeTaskFromIndexes; [done|]. by rewrite Hid.
  - eapply Sound_ext; [|done]. intros id'. unfold without.
    case_decide; [|done]. subst id'. done.
Qed.

Lemma same_Complete s s' :
  same_tasks_and_indexes s s' →
  Complete (IndexStore.getTask s) s → Complete (IndexStore.getTask s') s'.
Proof.
  intros (Ht & Hj & Hg & Hst & Hp & Ho) [? ? ? ? ?]. unfold IndexStore.getTask.
  split; rewrite ?Ht, ?Hj, ?Hg, ?Hst, ?Hp; done.
Qed.

Lemma same_Sound s s' :
  same_tasks_and_indexes s s' →
  Sound (IndexStore.getTask s) s → Sound (IndexStore.getTask s') s'.
Proof.
  intros (Ht & Hj & Hg & Hst & Hp & Ho) [? ? ? ? ?]. unfold IndexStore.getTask.
  split; rewrite ?Ht, ?Hj, ?Hg, ?Hst, ?Hp, ?Ho; done.
Qed.

Lemma apply_Complete s op :
  Complete (IndexStore.getTask s) s → Complete (IndexStore.getTask (apply s op)) (apply s op).
Proof.
  intros Hc. destruct op as [task now|task now|id|p|p|id|tag|tag|id|]; simpl.
  - by apply Complete_addTask.
  - by apply Complete_updateTask.
  - by apply Complete_removeTask.
  - apply (same_Complete s); [by repeat split|done].
  - apply (same_Complete s); [by repeat split|done].
  - apply (same_Complete s); [by repeat split|done].
  - apply (same_Complete s); [by repeat split|done].
  - apply (same_Complete s); [by repeat split|done].
  - unfold IndexStore.removeTag. destruct (JsMap.get (IndexStore.tags s) id); [|done].
    apply (same_Complete s); [by repeat split|done].
  - apply Complete_new.
Qed.

Lemma apply_Consistent s op :
  adds_fresh s [op] → IndexConsistent s → IndexConsistent (apply s op).
Proof.
  intros [Hfresh _] [Hc Hs]. split; [by apply apply_Complete|].
  destruct op as [task now|task now|id|p|p|id|tag|tag|id|]; simpl.
  - by apply Sound_addTask.
  - by apply Sound_updateTask.
  - by apply Sound_removeTask.
  - apply (same_Sound s); [by repeat split|done].
  - apply (same_Sound s); [by repeat split|done].
  - apply (same_Sound s); [by repeat split|done].
  - apply (same_Sound s); [by repeat split|done].
  - apply (same_Sound s); [by repeat split|done].
  - unfold IndexStore.removeTag. destruct (JsMap.get (IndexStore.tags s) id); [|done].
    apply (same_Sound s); [by repeat split|done].
  - apply Sound_new.
Qed.

(** Every store the commands can build has complete indexes. *)
Lemma run_from_Complete ops s :
  Complete (IndexStore.getTask s) s →
  Complete (IndexStore.getTask (run_from s ops)) (run_from s ops).
Proof.
  revert s. induction ops as [|op ops IH]; intros s Hc; [done|].
  apply IH, apply_Complete, Hc.
Qed.

(** Every store built by commands that add fresh ids only is index consistent. *)
Lemma run_from_Consistent ops s :
  adds_fresh s ops → IndexConsistent s → IndexConsistent (run_from s ops).
Proof.
  revert s. induction ops as [|op ops IH]; intros s Hf Hc; [done|].
  destruct Hf as [Hop Hf]. apply IH; [done|]. by apply apply_Consistent.
Qed.

Lemma run_Complete ops : Complete (IndexStore.getTask (run ops)) (run ops).
Proof. apply run_from_Complete, Complete_new. Qed.

Lemma run_Consistent ops : adds_fresh IndexStore.new ops → IndexConsistent (run ops).
Proof. intros Hf. apply run_from_Consistent; [done|]. split; [apply Complete_new|apply Sound_new]. Qed.

(** [removeTask] keeps a consistent store consistent, and purges the id. *)
Lemma removeTask_purged s id :
  IndexConsistent s →
  IndexConsistent (IndexStore.removeTask s id) ∧ purged (IndexStore.removeTask s id) id.
Proof.
  intros Hcons.
  assert (IndexConsistent (IndexStore.removeTask s id)) as Hcons'.
  { split; [apply Complete_removeTask, Hcons|by apply Sound_removeTask]. }
  split; [done|].
  destruct Hcons' as [_ [Hs Hp Ht Hj Ho]].
  assert (IndexStore.getTask (IndexStore.removeTask s id) id = None) as Hnone.
  { rewrite getTask_removeTask. unfold without. by rewrite decide_True. }
  repeat split.
  - intros st (t & ? & _)%Hs. congruence.
  - intros p (t & ? & _)%Hp. congruence.
  - intros tag (t & ? & _)%Ht. congruence.
  - intros p (t & ? & _)%Hj. congruence.
  - intros [t ?]%Ho. congruence.
Qed.

(** A consistent store has no trace of an id it does not hold. *)
Lemma Consistent_purged s id :
  IndexConsistent s → IndexStore.getTask s id = None → purged s id.
Proof.
  intros [_ [Hs Hp Ht Hj Ho]] Hnone.
  repeat split.
  - intros st (t & ? & _)%Hs. congruence.
  - intros p (t & ? & _)%Hp. congruence.
  - intros tag (t & ? & _)%Ht. congruence.
  - intros p (t & ? & _)%Hj. congruence.
  - intros [t ?]%Ho. congruence.
Qed.
End maintenance.

(** ** [Array.prototype.sort] *)

Section sorting.
Context `{JsRuntime} {A : Type} (comparefn : A → A → number).
Implicit Types (l : list A) (x y : A).

Local Abbreviation order := (SortCompare comparefn).

Lemma Array_sort_Permutation l : Array_sort comparefn l ≡ₚ l.
Proof. apply Array_sort_permutation. Qed.

Lemma elem_of_Array_sort l x : x ∈ Array_sort comparefn l ↔ x ∈ l.
Proof. by rewrite Array_sort_Permutation. Qed.

Lemma Array_sort_nil : Array_sort comparefn [] = [].
Proof. apply Permutation_nil_r, Array_sort_Permutation. Qed.

(** A comparator that changes sign with the exchange of its arguments and
    decides a transitive relation on the values is consistent for them. *)
Lemma consistent_of_order l (R : A → A → Prop) :
  (∀ x y, x ∈ l → y ∈ l → order y x = - order x y) →
  (∀ x y, x ∈ l → y ∈ l → order x y <= 0 ↔ R x y) →
  (∀ x y z, x ∈ l → y ∈ l → z ∈ l → R x y → R y z → R x z) →
  ConsistentComparator comparefn l.
Proof.
  intros Hswap Hdec Htrans.
  assert (∀ a b c, a ∈ l → b ∈ l → c ∈ l → order a b < 0 → order b c < 0 → order a c < 0)
    as Hlt.
  { intros a b c Ha Hb Hc Hab Hbc.
    assert (R a c) as Hac by (apply (Htrans a b c); [done..| |]; (apply Hdec; [done..|lia])).
    apply Hdec in Hac; [|done..].
    destruct (decide (order a c = 0)) as [Heq|]; [|lia].
    assert (R c b) as Hcb.
    { apply (Htrans c a b); [done..| |]; (apply Hdec; [done..|]); [|lia].
      rewrite (Hswap a c) by done. lia. }
    apply Hdec in Hcb; [|done..]. rewrite (Hswap b c) in Hcb by done. lia. }
  split.
  - intros a Ha. pose proof (Hswap a a Ha Ha). lia.
  - intros a b Ha Hb Hab. rewrite (Hswap a b) by done. lia.
  - intros a b c Ha Hb Hc Hab Hbc.
    assert (R a c) as Hac by (apply (Htrans a b c); [done..| |]; (apply Hdec; [done..|lia])).
    assert (R c a) as Hca.
    { apply (Htrans c b a); [done..| |]; (apply Hdec; [done..|]).
      - rewrite (Hswap b c) by done. lia.
      - rewrite (Hswap a b) by done. lia. }
    apply Hdec in Hac, Hca; [|done..]. rewrite (Hswap a c) in Hca by done. lia.
  - apply Hlt.
  - intros a b c Ha Hb Hc Hab Hbc.
    pose proof (Hlt c b a Hc Hb Ha) as Hca.
    rewrite (Hswap b c), (Hswap a b), (Hswap a c) in Hca by done. lia.
Qed.

(** Order: the result is sorted by the relation that a consistent comparator
    decides. *)
Lemma Array_sort_sorted_by l (R : A → A → Prop) :
  ConsistentComparator comparefn l →
  (∀ x y, x ∈ l → y ∈ l → order x y <= 0 → R x y) →
  StronglySorted R (Array_sort comparefn l).
Proof.
  intros Hcons Hdec.
  apply (StronglySorted_weaken (λ x y, order x y <= 0)); [|by apply Array_sort_sorted].
  intros x y Hx Hy. rewrite elem_of_Array_sort in Hx, Hy. by apply Hdec.
Qed.

(** Stability: the elements of one key, when the comparator ties exactly the
    elements of equal key, keep their order. *)
Lemma Array_sort_stable_by {K} `{EqDecision K} l (key : A → K) (k : K) :
  ConsistentComparator comparefn l →
  (∀ x y, x ∈ l → y ∈ l → order x y = 0 ↔ key x = key y) →
  filter (λ x, key x = k) (Array_sort comparefn l) = filter (λ x, key x = k) l.
Proof.
  intros Hcons Hties.
  destruct (decide (Exists (λ a, key a = k) l)) as [Hex|Hnone].
  - apply Exists_exists in Hex as (a & Ha & <-).
    rewrite <- (filter_ext_elem_of (λ x, order a x = 0) (λ x, key x = key a) l).
    2:{ intros x Hx. rewrite (Hties a x) by done. naive_solver. }
    rewrite <- (filter_ext_elem_of (λ x, order a x = 0) (λ x, key x = key a)
                  (Array_sort comparefn l)).
    2:{ intros x Hx. rewrite elem_of_Array_sort in Hx. rewrite (Hties a x) by done.
        naive_solver. }
    by apply Array_sort_stable.
  - rewrite Exists_exists in Hnone.
    rewrite !filter_none; [done|naive_solver|].
    intros x Hx. rewrite elem_of_Array_sort in Hx. naive_solver.
Qed.

(** Uniqueness: a sorted permutation that keeps the order inside every class
    of tied elements is determined. *)
Lemma stable_sorted_unique (R C : A → A → Prop) `{∀ a x, Decision (C a x)} l1 l2 :
  (∀ x, x ∈ l1 → C x x) →
  (∀ x y, x ∈ l1 → y ∈ l1 → R x y → R y x → C x y) →
  l1 ≡ₚ l2 → StronglySorted R l1 → StronglySorted R l2 →
  (∀ a, a ∈ l1 → filter (C a) l1 = filter (C a) l2) →
  l1 = l2.
Proof.
  revert l2.
  induction l1 as [|x l1 IH]; intros l2 Hrefl Htie Hperm Hs1 Hs2 Hfilter.
  - by apply Permutation_nil_l in Hperm.
  - destruct l2 as [|y l2]; [by apply Permutation_nil_r in Hperm|].
    apply StronglySorted_inv in Hs1 as [Hs1 Hx], Hs2 as [Hs2 Hy].
    rewrite Forall_forall in Hx, Hy.
    assert (y ∈ x :: l1) as Hyin by (rewrite Hperm; apply list_elem_of_here).
    assert (x = y) as <-.
    { assert (C x y) as Hxy.
      { pose proof Hyin as [->|Hy1]%elem_of_cons; [apply Hrefl, list_elem_of_here|].
        assert (x ∈ y :: l2) as [->|Hx2]%elem_of_cons
          by (rewrite <- Hperm; apply list_elem_of_here);
          [apply Hrefl, list_elem_of_here|].
        apply Htie; [apply list_elem_of_here|done|auto..]. }
      pose proof (Hfilter x (list_elem_of_here _ _)) as Hf.
      rewrite (filter_cons_True (C x) x), (filter_cons_True (C x) y) in Hf;
        [congruence|done|apply Hrefl, list_elem_of_here]. }
    f_equal. apply IH; [| |by eapply Permutation_cons_inv|done..|].
    + intros z Hz. by apply Hrefl, list_elem_of_further.
    + intros z w Hz Hw. apply Htie; by apply list_elem_of_further.
    + intros a Ha. specialize (Hfilter a (list_elem_of_further _ _ _ Ha)).
      rewrite !filter_cons in Hfilter. destruct (decide (C a x)); congruence.
Qed.
End sorting.

(** So every runtime sorts an array in the same way when the comparator is
    consistent: what the host of the examples computes is then what every
    engine returns. *)
Lemma Array_sort_determined (R1 R2 : JsRuntime) {A} (comparefn : A → A → number) (l : list A) :
  ConsistentComparator comparefn l →
  @Array_sort R1 A comparefn l = @Array_sort R2 A comparefn l.
Proof.
  intros Hcons.
  assert (∀ (R : JsRuntime) x, x ∈ @Array_sort R A comparefn l → x ∈ l) as Hin.
  { intros R x. by rewrite Array_sort_permutation. }
  apply (@stable_sorted_unique A
           (λ x y, x ∈ l ∧ y ∈ l ∧ SortCompare comparefn x y <= 0)
           (λ a x, SortCompare comparefn a x = 0)
           (λ a x, decide (SortCompare comparefn a x = 0))).
  - intros x Hx%Hin. by apply (consistent_refl _ _ Hcons).
  - intros x y Hx%Hin Hy%Hin (_ & _ & Hxy) (_ & _ & Hyx).
    destruct (decide (SortCompare comparefn x y = 0)) as [|Hne]; [done|].
    pose proof (consistent_lt_gt comparefn l Hcons x y Hx Hy ltac:(lia)). lia.
  - by rewrite !Array_sort_permutation.
  - apply (StronglySorted_weaken (λ x y, SortCompare comparefn x y <= 0));
      [|by apply Array_sort_sorted].
    intros x y Hx%Hin Hy%Hin ?. done.
  - apply (StronglySorted_weaken (λ x y, SortCompare comparefn x y <= 0));
      [|by apply Array_sort_sorted].
    intros x y Hx%Hin Hy%Hin ?. done.
  - intros a Ha%Hin. by rewrite !Array_sort_stable.
Qed.

(** ** [searchTasks]: which tasks are returned *)

Section search.
Context `{JsRuntime}.
Implicit Types (s : IndexStore.t) (q : SearchQuery) (id : ID) (t : Task).

Lemma hydrate_task s now t : TaskListItem.task (IndexStore.hydrate s now t) = t.
Proof. done. Qed.

(** The records returned are the hydrations of the stored tasks whose id
    survives the filters. *)
Lemma elem_of_searchTasks s q now item :
  item ∈ IndexStore.searchTasks s q now
  ↔ ∃ id t, id ∈ IndexStore.filterTaskIds s q ∧ IndexStore.getTask s id = Some t
            ∧ item = IndexStore.hydrate s now t.
Proof.
  unfold IndexStore.searchTasks, IndexStore.getTask.
  assert (item ∈ omap (λ taskId, IndexStore.hydrate s now <$> JsMap.get (IndexStore.tasks s) taskId)
                     (IndexStore.filterTaskIds s q)
          ↔ ∃ id t, id ∈ IndexStore.filterTaskIds s q
                    ∧ JsMap.get (IndexStore.tasks s) id = Some t
                    ∧ item = IndexStore.hydrate s now t) as Hraw.
  { rewrite list_elem_of_omap. split.
    - intros (id & Hid & Hh). apply fmap_Some in Hh as (t & Ht & ->). eauto.
    - intros (id & t & Hid & Ht & ->). exists id. by rewrite Ht. }
  destruct (SearchQuery.sort q) as [[field dir]|]; [|done].
  by rewrite elem_of_Array_sort.
Qed.

Lemma noFilters_spec q :
  IndexStore.noFilters q = true →
  truthy (SearchQuery.text q) = false ∧ SearchQuery.statuses q = None
  ∧ SearchQuery.priorities q = None ∧ SearchQuery.tags q = None
  ∧ truthy (SearchQuery.projectId q) = false ∧ truthy (SearchQuery.dueBefore q) = false.
Proof.
  unfold IndexStore.noFilters. rewrite !andb_true_iff, !negb_true_iff, !bool_decide_eq_true.
  tauto.
Qed.

(** The ids that survive the filters, through the buckets: union within a
    category, intersection across the categories, then the two scans. *)
Lemma elem_of_filterTaskIds s q id :
  id ∈ IndexStore.filterTaskIds s q ↔ in_candidates s q id.
Proof.
  unfold IndexStore.filterTaskIds, in_candidates.
  destruct (IndexStore.noFilters q) eqn:Hno.
  - apply noFilters_spec in Hno as (Htx & -> & -> & -> & Hp & Hd).
    rewrite Htx, Hp, Hd, JsSet_elem_of_of_list, JsMap_elem_of_keys.
    unfold IndexStore.getTask. naive_solver.
  - unfold IndexStore.filterText, IndexStore.filterDueBefore, IndexStore.filterProject,
      IndexStore.filterTags, IndexStore.filterPriorities, IndexStore.filterStatuses.
    assert (∀ (b : bool) (P : ID → bool) (ids : list ID),
       id ∈ (if b then JsSet.of_list (filter (λ i, P i) ids) else ids)
       ↔ id ∈ ids ∧ (b → P id)) as Hscan.
    { intros [] P ids; [|naive_solver].
      rewrite JsSet_elem_of_of_list, list_elem_of_filter. naive_solver. }
    rewrite !Hscan. clear Hscan.
    assert (∀ ids : list ID,
       id ∈ (if truthy (SearchQuery.projectId q)
             then match JsMap.get (IndexStore.tasksByProject s)
                          (default "" (SearchQuery.projectId q)) with
                  | Some projectIds => IndexStore.intersect ids projectIds
                  | None => JsSet.empty
                  end
             else ids)
       ↔ id ∈ ids ∧ (truthy (SearchQuery.projectId q) →
                      in_bucket (IndexStore.tasksByProject s)
                                (default "" (SearchQuery.projectId q)) id)) as Hproj.
    { intros ids. destruct (truthy (SearchQuery.projectId q)); [|naive_solver].
      unfold in_bucket.
      destruct (JsMap.get _ _) as [projectIds|].
      - rewrite elem_of_intersect. naive_solver.
      - unfold JsSet.empty. rewrite elem_of_nil. naive_solver. }
    rewrite Hproj. clear Hproj.
    assert (∀ {K} `{EqDecision K} (o : option (list K)) (index : list (K * list ID)) ids,
       id ∈ match o with
            | Some ks => IndexStore.intersect ids (IndexStore.union_buckets index ks)
            | None => ids
            end
       ↔ id ∈ ids ∧ match o with
                     | Some ks => ∃ k, k ∈ ks ∧ in_bucket index k id
                     | None => True
                     end) as Hcat.
    { intros K ? [ks|] index ids; [|naive_solver].
      by rewrite elem_of_intersect, elem_of_union_buckets. }
    rewrite !Hcat. clear Hcat.
    assert (id ∈ match nonEmpty (SearchQuery.statuses q) with
                 | Some statuses =>
                     IndexStore.union_buckets (IndexStore.tasksByStatus s) statuses
                 | None => JsSet.of_list (JsMap.keys (IndexStore.tasks s))
                 end
            ↔ match nonEmpty (SearchQuery.statuses q) with
              | Some statuses =>
                  ∃ st, st ∈ statuses ∧ in_bucket (IndexStore.tasksByStatus s) st id
              | None => is_Some (IndexStore.getTask s id)
              end) as ->.
    { unfold IndexStore.getTask.
      destruct (nonEmpty (SearchQuery.statuses q)) as [sts|];
        rewrite ?JsSet_elem_of_of_list, ?JsMap_elem_of_keys, ?elem_of_union_buckets; done. }
    tauto.
Qed.
(** The chain of filters is taken whether or not a filter is given: with no
    filter it returns every id. *)
Lemma filterTaskIds_chain s q :
  IndexStore.filterTaskIds s q
  = IndexStore.filterText s q (IndexStore.filterDueBefore s q (IndexStore.filterProject s q
      (IndexStore.filterTags s q (IndexStore.filterPriorities s q
         (IndexStore.filterStatuses s q))))).
Proof.
  unfold IndexStore.filterTaskIds. destruct (IndexStore.noFilters q) eqn:Hno; [|done].
  apply noFilters_spec in Hno as (Htx & Hst & Hp & Htg & Hpr & Hd).
  unfold IndexStore.filterText, IndexStore.filterDueBefore, IndexStore.filterProject,
    IndexStore.filterTags, IndexStore.filterPriorities, IndexStore.filterStatuses.
  by rewrite Htx, Hst, Hp, Htg, Hpr, Hd.
Qed.

(** The ids that survive the filters are pairwise distinct. *)
Lemma NoDup_filterTaskIds s q : NoDup (IndexStore.filterTaskIds s q).
Proof.
  rewrite filterTaskIds_chain.
  assert (NoDup (IndexStore.filterStatuses s q)) as H0.
  { unfold IndexStore.filterStatuses.
    destruct (nonEmpty _); [apply NoDup_union_buckets|apply JsSet_NoDup_of_list]. }
  assert (∀ ids, NoDup ids → NoDup (IndexStore.filterPriorities s q ids)) as H1.
  { intros ids Hids. unfold IndexStore.filterPriorities.
    destruct (nonEmpty _); [apply JsSet_NoDup_of_list|done]. }
  assert (∀ ids, NoDup ids → NoDup (IndexStore.filterTags s q ids)) as H2.
  { intros ids Hids. unfold IndexStore.filterTags.
    destruct (nonEmpty _); [apply JsSet_NoDup_of_list|done]. }
  assert (∀ ids, NoDup ids → NoDup (IndexStore.filterProject s q ids)) as H3.
  { intros ids Hids. unfold IndexStore.filterProject.
    destruct (truthy _); [|done].
    destruct (JsMap.get _ _); [apply JsSet_NoDup_of_list|apply NoDup_nil_2]. }
  assert (∀ ids, NoDup ids → NoDup (IndexStore.filterDueBefore s q ids)) as H4.
  { intros ids Hids. unfold IndexStore.filterDueBefore.
    destruct (truthy _); [apply JsSet_NoDup_of_list|done]. }
  assert (∀ ids, NoDup ids → NoDup (IndexStore.filterText s q ids)) as H5.
  { intros ids Hids. unfold IndexStore.filterText.
    destruct (truthy _); [apply JsSet_NoDup_of_list|done]. }
  apply H5, H4, H3, H2, H1, H0.
Qed.

(** When every task is stored under its own id, no task is returned twice. *)
Lemma NoDup_searchTasks s q now :
  (∀ id t, IndexStore.getTask s id = Some t → Task.id t = id) →
  NoDup (ids_of (IndexStore.searchTasks s q now)).
Proof.
  intros Hkey.
  assert (∀ ids, NoDup ids →
            NoDup (ids_of (omap (λ taskId, IndexStore.hydrate s now
                                             <$> JsMap.get (IndexStore.tasks s) taskId) ids)))
    as Hraw.
  { induction ids as [|id ids IH]; intros Hnd; [constructor|].
    apply NoDup_cons in Hnd as [Hid Hnd]. simpl.
    destruct (JsMap.get (IndexStore.tasks s) id) as [t|] eqn:Ht; simpl; [|by apply IH].
    unfold ids_of in *. simpl. apply NoDup_cons. split; [|by apply IH].
    rewrite (Hkey id t Ht).
    intros (item & Hitem & (id' & Hid' & Hh)%list_elem_of_omap)%list_elem_of_fmap.
    apply fmap_Some in Hh as (t' & Ht' & ->). simpl in Hitem.
    rewrite (Hkey id' t' Ht') in Hitem. by subst id'. }
  unfold IndexStore.searchTasks.
  destruct (SearchQuery.sort q) as [[field dir]|].
  - unfold ids_of. rewrite Array_sort_Permutation. apply Hraw, NoDup_filterTaskIds.
  - apply Hraw, NoDup_filterTaskIds.
Qed.
End search.

Section composition.
Context `{JsRuntime}.
Implicit Types (s : IndexStore.t) (q : SearchQuery) (id : ID) (t : Task).

(** In a consistent store the buckets say of a stored task what its fields say. *)
Lemma in_candidates_task_matches s q t :
  IndexConsistent s → IndexStore.getTask s (Task.id t) = Some t →
  in_candidates s q (Task.id t) ↔ task_matches q t = true.
Proof.
  intros [Hc Hs] Ht. unfold in_candidates, task_matches.
  rewrite !andb_true_iff, !Corelib.Init.Logic.and_assoc.
  assert (∀ A B C D : Prop, (A ↔ B) → (C ↔ D) → (A ∧ C ↔ B ∧ D)) as Hand by tauto.
  assert (∀ st, in_bucket (IndexStore.tasksByStatus s) st (Task.id t) ↔ Task.status t = st) as Hst.
  { intros st. split.
    - intros (t' & Ht' & <-)%(sound_status _ _ Hs). congruence.
    - intros <-. by apply (complete_status _ _ Hc). }
  assert (∀ p, in_bucket (IndexStore.tasksByPriority s) p (Task.id t) ↔ Task.priority t = p) as Hp.
  { intros p. split.
    - intros (t' & Ht' & <-)%(sound_priority _ _ Hs). congruence.
    - intros <-. by apply (complete_priority _ _ Hc). }
  assert (∀ tag, in_bucket (IndexStore.tasksByTag s) tag (Task.id t) ↔ tag ∈ Task.tags t) as Htag.
  { intros tg. split.
    - intros (t' & Ht' & ?)%(sound_tag _ _ Hs). congruence.
    - intros ?. by eapply (complete_tag _ _ Hc). }
  assert (∀ p, in_bucket (IndexStore.tasksByProject s) p (Task.id t) ↔ projectOf t p) as Hj.
  { intros p. split.
    - intros (t' & Ht' & ?)%(sound_project _ _ Hs). congruence.
    - intros ?. by eapply (complete_project _ _ Hc). }
  repeat apply Hand; clear Hand.
  - destruct (nonEmpty (SearchQuery.statuses q)) as [sts|]; [|by rewrite Ht].
    rewrite bool_decide_eq_true. setoid_rewrite Hst. naive_solver.
  - destruct (nonEmpty (SearchQuery.priorities q)) as [ps|]; [|done].
    rewrite bool_decide_eq_true. setoid_rewrite Hp. naive_solver.
  - destruct (nonEmpty (SearchQuery.tags q)) as [tgs|]; [|done].
    rewrite bool_decide_eq_true, Exists_exists. by setoid_rewrite Htag.
  - destruct (SearchQuery.projectId q) as [p|]; simpl; [|done].
    case_bool_decide as Hne; simpl; [|done].
    rewrite bool_decide_eq_true, Hj. unfold projectOf. naive_solver.
  - unfold IndexStore.due_before, IndexStore.getTask in *. rewrite Ht.
    destruct (truthy (SearchQuery.dueBefore q)); simpl; [|done].
    rewrite <- Is_true_true. tauto.
  - unfold IndexStore.text_matches, IndexStore.getTask in *. rewrite Ht.
    destruct (truthy (SearchQuery.text q)); simpl; [|done].
    rewrite <- Is_true_true. tauto.
Qed.

(** C1, as amended.  [searchTasks] returns exactly the stored tasks whose id
    lies in the intersection, over the categories given as a non-empty list or
    a non-empty project id, of the union of the category's matching buckets,
    and that pass the [dueBefore] and [text] scans when these are given.  In
    an index-consistent store this is: a task is returned iff its status is
    one of the given statuses, its priority one of the given priorities, it
    carries one of the given tag ids and its project id is the given one, for
    each category so given, and no task is returned twice.  A category that is
    absent or given as an empty list imposes no constraint. *)
Theorem searchTasks_category_composition s q now :
  (∀ item, item ∈ IndexStore.searchTasks s q now
           ↔ ∃ id t, in_candidates s q id ∧ IndexStore.getTask s id = Some t
                     ∧ item = IndexStore.hydrate s now t)
  ∧ (IndexConsistent s →
     (∀ t, (∃ item, item ∈ IndexStore.searchTasks s q now ∧ TaskListItem.task item = t)
           ↔ IndexStore.getTask s (Task.id t) = Some t ∧ task_matches q t = true)
     ∧ NoDup (ids_of (IndexStore.searchTasks s q now))).
Proof.
  split.
  - intros item. rewrite elem_of_searchTasks. by setoid_rewrite elem_of_filterTaskIds.
  - intros Hcons. split; [|apply NoDup_searchTasks, (complete_key _ _ (proj1 Hcons))].
    intros t. split.
    + intros (item & (id & t' & Hid & Ht' & ->)%elem_of_searchTasks & <-).
      rewrite hydrate_task.
      pose proof (complete_key _ _ (proj1 Hcons) _ _ Ht') as <-.
      split; [done|].
      apply (in_candidates_task_matches s q t' Hcons Ht'). by apply elem_of_filterTaskIds.
    + intros [Ht Hm]. exists (IndexStore.hydrate s now t). split; [|done].
      apply elem_of_searchTasks. exists (Task.id t), t. split_and!; [|done..].
      apply elem_of_filterTaskIds. by apply (in_candidates_task_matches s q t Hcons Ht).
Qed.
End composition.

(** The scenario of the design document on the fixture store. *)
Section scenario.
#[local] Existing Instance hostRuntime.

Example search_todo : ids_of (IndexStore.searchTasks storeAB (queryStatuses [todo]) day1) = ["a"].
Proof. reflexivity. Qed.

Example search_all : ids_of (IndexStore.searchTasks storeAB SearchQuery.empty day1) = ["a"; "b"].
Proof. reflexivity. Qed.

Example search_priorities :
  ids_of (IndexStore.searchTasks storeAB (queryPriorities [1; 3]) day1) = ["a"; "b"].
Proof. reflexivity. Qed.

Example search_after_remove :
  let s := IndexStore.removeTask storeAB "b" in
  ids_of (IndexStore.searchTasks s SearchQuery.empty day1) = ["a"]
  ∧ JsMap.get (IndexStore.tasksByStatus s) done = None.
Proof. split; reflexivity. Qed.

Example search_todo_doing_urgent :
  ids_of (IndexStore.searchTasks storeBACD queryTodoDoingUrgent day1) = ["a"; "d"].
Proof. reflexivity. Qed.

(** The expectations of the repository's tests of [IndexStore]. *)
Example test_maintain_project_index :
  let s := IndexStore.addTask IndexStore.new taskC day0 in
  let moved := updateTask taskC
                 (UpdateTaskInput.mk "c" None None None None (Some "p-work") None None) day1 in
  Task.id <$> IndexStore.getTasksByProject (IndexStore.updateTask s moved day1) "p-work" = ["c"].
Proof. reflexivity. Qed.

Example test_clean_up_indexes :
  let s := IndexStore.removeTask storeAB "a" in
  IndexStore.getTasksByProject s "p-work" = [] ∧ IndexStore.getTasksByTag s "t-1" = [].
Proof. split; reflexivity. Qed.

Example test_overdue :
  Task.id <$> IndexStore.getOverdueTasks
                (run [AddTask taskA day1; AddTask taskB day1; AddTask taskC day1]) = ["a"].
Proof. reflexivity. Qed.

Example test_case_insensitive_tag_lookup :
  IndexStore.getTagByName storeAB "urgent" = Some tagUrgent
  ∧ IndexStore.getTagByName storeAB "URGENT" = Some tagUrgent.
Proof. split; reflexivity. Qed.

Example test_combine_filters :
  ids_of (IndexStore.searchTasks storeAB
            (SearchQuery.mk (Some "task") (Some [todo; done]) None None None None None) day1)
  = ["a"; "b"].
Proof. reflexivity. Qed.

Lemma storeAB_consistent : IndexConsistent storeAB.
Proof. apply run_Consistent. vm_compute. tauto. Qed.

Lemma storeBACD_consistent : IndexConsistent storeBACD.
Proof. apply run_Consistent. vm_compute. tauto. Qed.

(** C1, counterexample.  [statuses] is specified, as the empty list; the
    store is index consistent; task A is returned although its status is not
    among the given statuses. *)
Lemma searchTasks_empty_statuses_counterexample :
  IndexConsistent storeAB
  ∧ ¬ (∀ t, (∃ item, item ∈ IndexStore.searchTasks storeAB (queryStatuses []) day1
                      ∧ TaskListItem.task item = t)
            ↔ IndexStore.getTask storeAB (Task.id t) = Some t
              ∧ task_matches_given (queryStatuses []) t = true).
Proof.
  split; [apply storeAB_consistent|].
  intros Hclaim. destruct (Hclaim taskA) as [Hret _].
  destruct Hret as [_ Hm]; [|by vm_compute in Hm].
  exists (IndexStore.hydrate storeAB day1 taskA). split; [compute_done|done].
Qed.

Lemma searchTasks_category_composition_witness :
  IndexConsistent storeBACD
  ∧ ∀ t, (∃ item, item ∈ IndexStore.searchTasks storeBACD queryTodoDoingUrgent day1
                   ∧ TaskListItem.task item = t)
         ↔ IndexStore.getTask storeBACD (Task.id t) = Some t
           ∧ task_matches queryTodoDoingUrgent t = true.
Proof.
  split; [apply storeBACD_consistent|].
  exact (proj1 (proj2 (searchTasks_category_composition storeBACD queryTodoDoingUrgent day1)
                      storeBACD_consistent)).
Defined.

(** C2, at the failing input.  [addTask] of a task whose id the store already
    holds leaves the id in the bucket of the replaced task: after adding A as
    todo and then a task of the same id as done, the id is in the todo and in
    the done bucket, and after [removeTask] it is still in the todo bucket. *)
Theorem addTask_existing_id_leaves_stale_bucket :
  storeReadded = IndexStore.addTask (IndexStore.addTask IndexStore.new taskA day0) taskA_done day0
  ∧ IndexStore.getTask storeReadded "a" = Some taskA_done
  ∧ Task.status taskA_done = done
  ∧ IndexStore.tasksByStatus storeReadded = [(todo, ["a"]); (done, ["a"])]
  ∧ ¬ IndexConsistent storeReadded
  ∧ IndexStore.getTask (IndexStore.removeTask storeReadded "a") "a" = None
  ∧ IndexStore.tasksByStatus (IndexStore.removeTask storeReadded "a") = [(todo, ["a"])]
  ∧ ¬ purged (IndexStore.removeTask storeReadded "a") "a".
Proof.
  assert (in_bucket (IndexStore.tasksByStatus storeReadded) todo "a") as Hstale.
  { exists ["a"]. split; [reflexivity|compute_done]. }
  assert (in_bucket (IndexStore.tasksByStatus (IndexStore.removeTask storeReadded "a")) todo "a")
    as Hleft.
  { exists ["a"]. split; [reflexivity|compute_done]. }
  split_and!; try reflexivity.
  - intros [_ Hsound]. destruct (sound_status _ _ Hsound _ _ Hstale) as (t & Ht & Hst).
    vm_compute in Ht. by injection Ht as <-.
  - intros (Hnone & _). by destruct (Hnone todo).
Qed.
End scenario.

(** ** The services *)

Section services.
Context `{JsRuntime}.

(** C6.  For an id that the store does not hold, [TaskService.update] and
    [TaskService.remove] return the not-found failure and the store they leave
    is the store they were given, with every index bucket as it was: the
    lookup comes before any mutation. *)
Theorem TaskService_not_found (s : IndexStore.t) (id : ID)
    (Habsent : IndexStore.getTask s id = None) :
  (∀ input now, UpdateTaskInput.id input = id →
     TaskService.update s input now = (failure ("Task with ID " +:+ id +:+ " not found"), s))
  ∧ TaskService.remove s id = (failure ("Task with ID " +:+ id +:+ " not found"), s).
Proof.
  split.
  - intros input now <-. unfold TaskService.update. by rewrite Habsent.
  - unfold TaskService.remove. by rewrite Habsent.
Qed.
End services.

Lemma TaskService_not_found_witness :
  @IndexStore.getTask storeAB "zz" = None
  ∧ @TaskService.update hostRuntime storeAB (inputDone "zz") day1
    = (failure "Task with ID zz not found", storeAB)
  ∧ @TaskService.remove storeAB "zz" = (failure "Task with ID zz not found", storeAB).
Proof.
  assert (IndexStore.getTask storeAB "zz" = None) as Habsent by reflexivity.
  split; [exact Habsent|].
  destruct (@TaskService_not_found hostRuntime storeAB "zz" Habsent) as [Hupdate Hremove].
  split; [exact (Hupdate (inputDone "zz") day1 eq_refl)|exact Hremove].
Defined.

(** ** [createTask] and [updateTask] *)

Section factory.
Context `{JsRuntime}.

(** C3.  A task made by [createTask] has [completedAt] iff its status is
    [done], which is iff the input status is [done].  [updateTask] keeps the
    invariant: an input with a status sets the status and sets [completedAt] to
    the current instant when that status is [done] and clears it otherwise; an
    input without a status leaves status and [completedAt] as they were. *)
Theorem completedAt_present_iff_done (task : Task) (Hinv : completedAt_iff_done task) :
  (∀ input id now,
     completedAt_iff_done (createTask input id now)
     ∧ (is_Some (Task.completedAt (createTask input id now))
        ↔ CreateTaskInput.status input = Some done))
  ∧ (∀ input now, completedAt_iff_done (updateTask task input now))
  ∧ (∀ input now st, UpdateTaskInput.status input = Some st →
       Task.status (updateTask task input now) = st
       ∧ Task.completedAt (updateTask task input now)
         = if bool_decide (st = done) then Some (getCurrentTimestamp now) else None)
  ∧ (∀ input now, UpdateTaskInput.status input = None →
       Task.status (updateTask task input now) = Task.status task
       ∧ Task.completedAt (updateTask task input now) = Task.completedAt task).
Proof.
  unfold completedAt_iff_done in *. split_and!.
  - intros input id now. simpl.
    destruct (CreateTaskInput.status input) as [[]|]; simpl;
      (split; [|split]); try done; try (by intros [? ?]); eauto.
  - intros input now. simpl.
    destruct (UpdateTaskInput.status input) as [[]|]; simpl; try done;
      try (split; [by intros [? ?]|done]).
  - intros input now st Hst. simpl. by rewrite Hst.
  - intros input now Hst. simpl. by rewrite Hst.
Qed.
End factory.

Lemma completedAt_present_iff_done_witness :
  completedAt_iff_done taskA
  ∧ completedAt_iff_done (@updateTask hostRuntime taskA (inputDone "a") day1)
  ∧ Task.completedAt (@updateTask hostRuntime taskA (inputDone "a") day1)
    = Some "2024-01-02T00:00:00.000Z"
  ∧ Task.completedAt (@updateTask hostRuntime taskB (inputRename "b") day1)
    = Some "2024-01-01T00:00:00.000Z".
Proof.
  assert (completedAt_iff_done taskA) as HA.
  { split; [by intros [? ?]|done]. }
  assert (completedAt_iff_done taskB) as HB.
  { split; [done|eauto]. }
  pose proof (@completedAt_present_iff_done hostRuntime taskA HA) as (_ & Hupd & Hset & _).
  pose proof (@completedAt_present_iff_done hostRuntime taskB HB) as (_ & _ & _ & Hkeep).
  split_and!; [exact HA|exact (Hupd (inputDone "a") day1)| |].
  - exact (proj2 (Hset (inputDone "a") day1 done eq_refl)).
  - exact (proj2 (Hkeep (inputRename "b") day1 eq_refl)).
Defined.

(** ** Hydration and the empty categories *)

Section hydration.
Context `{JsRuntime}.
Implicit Types (s : IndexStore.t) (q : SearchQuery) (id : ID) (t : Task).

Lemma hydrate_isOverdue s now t :
  TaskListItem.isOverdue (IndexStore.hydrate s now t) = IndexStore.overdue_at now t.
Proof.
  unfold IndexStore.hydrate, IndexStore.overdue_at. simpl.
  destruct (Task.dueAt t) as [due|]; [|done]. by case_bool_decide.
Qed.

(** C4.  The [isOverdue] flag of a returned record is computed from the task
    and the current instant alone: it is false for a task without due date,
    false for a done task whose due date is past, true for a task that is not
    done and whose due date is past. *)
Theorem searchTasks_isOverdue s q now item
    (Hitem : item ∈ IndexStore.searchTasks s q now) :
  TaskListItem.isOverdue item = IndexStore.overdue_at now (TaskListItem.task item)
  ∧ (Task.dueAt (TaskListItem.task item) = None → TaskListItem.isOverdue item = false)
  ∧ (∀ due z, Task.dueAt (TaskListItem.task item) = Some due →
       Date_getTime due = Num z → z < now →
       Task.status (TaskListItem.task item) = done → TaskListItem.isOverdue item = false)
  ∧ (∀ due z, Task.dueAt (TaskListItem.task item) = Some due →
       Date_getTime due = Num z → z < now →
       Task.status (TaskListItem.task item) ≠ done → TaskListItem.isOverdue item = true).
Proof.
  apply elem_of_searchTasks in Hitem as (id & t & _ & _ & ->).
  rewrite hydrate_isOverdue, hydrate_task. unfold IndexStore.overdue_at.
  split_and!; [done|by intros ->|..].
  - intros due z -> _ _ ->. by rewrite andb_false_r.
  - intros due z -> Hz Hlt Hst.
    assert (due ≠ "") as Hne.
    { intros ->. rewrite Date_getTime_empty in Hz. discriminate. }
    rewrite Hz. simpl. by rewrite !bool_decide_eq_true_2.
Qed.

Lemma nonEmpty_inv {A} (xs : option (list A)) :
  (∃ l, nonEmpty xs = Some l ∧ xs = Some l ∧ l ≠ []) ∨ nonEmpty xs = None.
Proof.
  destruct xs as [l|]; [|by right]. unfold nonEmpty.
  case_bool_decide as Hlen; [left|by right].
  exists l. split_and!; [done..|]. intros ->. simpl in Hlen. lia.
Qed.

Lemma searchTasks_no_candidates s q now :
  (∀ id, ¬ in_candidates s q id) → IndexStore.searchTasks s q now = [].
Proof.
  intros Hnone.
  assert (IndexStore.filterTaskIds s q = []) as Hids.
  { destruct (IndexStore.filterTaskIds s q) as [|id ids] eqn:E; [done|].
    destruct (Hnone id). apply elem_of_filterTaskIds. rewrite E. apply list_elem_of_here. }
  unfold IndexStore.searchTasks. rewrite Hids. simpl.
  destruct (SearchQuery.sort q) as [[]|]; [apply Array_sort_nil|done].
Qed.

Lemma searchTasks_ext s q q' now :
  IndexStore.filterTaskIds s q = IndexStore.filterTaskIds s q' →
  SearchQuery.sort q = SearchQuery.sort q' →
  IndexStore.searchTasks s q now = IndexStore.searchTasks s q' now.
Proof. unfold IndexStore.searchTasks. by intros -> ->. Qed.

(** C7, as amended.  When a category is given as a non-empty list and no id is
    in any of its matching buckets, or a non-empty project id has no bucket,
    [searchTasks] returns the empty sequence.  A category given as an empty
    list is read like an absent one.  An absent field is no constraint, for
    every query: a stored task is returned as soon as its id is in a matching
    bucket of each category that is given (and passes the scans that are
    given), and in an index-consistent store as soon as it has a value asked
    for in each field that is given, whatever it has in the fields that are
    absent; the query without fields returns every stored task. *)
Theorem searchTasks_empty_category s q now :
  (∀ statuses, nonEmpty (SearchQuery.statuses q) = Some statuses →
     (∀ st id, st ∈ statuses → ¬ in_bucket (IndexStore.tasksByStatus s) st id) →
     IndexStore.searchTasks s q now = [])
  ∧ (∀ priorities, nonEmpty (SearchQuery.priorities q) = Some priorities →
     (∀ p id, p ∈ priorities → ¬ in_bucket (IndexStore.tasksByPriority s) p id) →
     IndexStore.searchTasks s q now = [])
  ∧ (∀ tagIds, nonEmpty (SearchQuery.tags q) = Some tagIds →
     (∀ tagId id, tagId ∈ tagIds → ¬ in_bucket (IndexStore.tasksByTag s) tagId id) →
     IndexStore.searchTasks s q now = [])
  ∧ (∀ p, SearchQuery.projectId q = Some p → p ≠ "" →
     JsMap.get (IndexStore.tasksByProject s) p = None →
     IndexStore.searchTasks s q now = [])
  ∧ IndexStore.searchTasks s (SearchService.with_statuses q (Some [])) now
    = IndexStore.searchTasks s (SearchService.with_statuses q None) now
  ∧ IndexStore.searchTasks s (SearchService.with_priorities q (Some [])) now
    = IndexStore.searchTasks s (SearchService.with_priorities q None) now
  ∧ IndexStore.searchTasks s (SearchService.with_tags q (Some [])) now
    = IndexStore.searchTasks s (SearchService.with_tags q None) now
  ∧ (∀ id t, IndexStore.getTask s id = Some t →
     IndexStore.hydrate s now t ∈ IndexStore.searchTasks s SearchQuery.empty now)
  ∧ (∀ id t, IndexStore.getTask s id = Some t →
     (∀ statuses, SearchQuery.statuses q = Some statuses → statuses ≠ [] →
        ∃ st, st ∈ statuses ∧ in_bucket (IndexStore.tasksByStatus s) st id) →
     (∀ priorities, SearchQuery.priorities q = Some priorities → priorities ≠ [] →
        ∃ p, p ∈ priorities ∧ in_bucket (IndexStore.tasksByPriority s) p id) →
     (∀ tagIds, SearchQuery.tags q = Some tagIds → tagIds ≠ [] →
        ∃ tagId, tagId ∈ tagIds ∧ in_bucket (IndexStore.tasksByTag s) tagId id) →
     (∀ p, SearchQuery.projectId q = Some p → p ≠ "" →
        in_bucket (IndexStore.tasksByProject s) p id) →
     (∀ cutoff, SearchQuery.dueBefore q = Some cutoff → cutoff ≠ "" →
        IndexStore.dueAt_before cutoff t = true) →
     (∀ text, SearchQuery.text q = Some text → text ≠ "" →
        IndexStore.text_in_task (toLowerCase text) t = true) →
     IndexStore.hydrate s now t ∈ IndexStore.searchTasks s q now)
  ∧ (IndexConsistent s →
     ∀ t, IndexStore.getTask s (Task.id t) = Some t →
     (∀ statuses, SearchQuery.statuses q = Some statuses → statuses ≠ [] →
        Task.status t ∈ statuses) →
     (∀ priorities, SearchQuery.priorities q = Some priorities → priorities ≠ [] →
        Task.priority t ∈ priorities) →
     (∀ tagIds, SearchQuery.tags q = Some tagIds → tagIds ≠ [] →
        ∃ tagId, tagId ∈ tagIds ∧ tagId ∈ Task.tags t) →
     (∀ p, SearchQuery.projectId q = Some p → p ≠ "" → Task.projectId t = Some p) →
     (∀ cutoff, SearchQuery.dueBefore q = Some cutoff → cutoff ≠ "" →
        IndexStore.dueAt_before cutoff t = true) →
     (∀ text, SearchQuery.text q = Some text → text ≠ "" →
        IndexStore.text_in_task (toLowerCase text) t = true) →
     IndexStore.hydrate s now t ∈ IndexStore.searchTasks s q now).
Proof.
  assert (∀ id t, IndexStore.getTask s id = Some t →
     (∀ statuses, SearchQuery.statuses q = Some statuses → statuses ≠ [] →
        ∃ st, st ∈ statuses ∧ in_bucket (IndexStore.tasksByStatus s) st id) →
     (∀ priorities, SearchQuery.priorities q = Some priorities → priorities ≠ [] →
        ∃ p, p ∈ priorities ∧ in_bucket (IndexStore.tasksByPriority s) p id) →
     (∀ tagIds, SearchQuery.tags q = Some tagIds → tagIds ≠ [] →
        ∃ tagId, tagId ∈ tagIds ∧ in_bucket (IndexStore.tasksByTag s) tagId id) →
     (∀ p, SearchQuery.projectId q = Some p → p ≠ "" →
        in_bucket (IndexStore.tasksByProject s) p id) →
     (∀ cutoff, SearchQuery.dueBefore q = Some cutoff → cutoff ≠ "" →
        IndexStore.dueAt_before cutoff t = true) →
     (∀ text, SearchQuery.text q = Some text → text ≠ "" →
        IndexStore.text_in_task (toLowerCase text) t = true) →
     IndexStore.hydrate s now t ∈ IndexStore.searchTasks s q now) as Hbuckets.
  { intros id t Ht Hst Hp Htg Hj Hd Htx.
    apply elem_of_searchTasks. exists id, t. split_and!; [|done..].
    apply elem_of_filterTaskIds. unfold in_candidates.
    unfold IndexStore.due_before, IndexStore.text_matches, IndexStore.getTask in *.
    rewrite Ht. split_and!.
    - destruct (nonEmpty_inv (SearchQuery.statuses q)) as [(l & -> & Hq & Hne)| ->];
        [by apply Hst|done].
    - destruct (nonEmpty_inv (SearchQuery.priorities q)) as [(l & -> & Hq & Hne)| ->];
        [by apply Hp|done].
    - destruct (nonEmpty_inv (SearchQuery.tags q)) as [(l & -> & Hq & Hne)| ->];
        [by apply Htg|done].
    - destruct (SearchQuery.projectId q) as [p|]; simpl; [|done].
      case_bool_decide; [|done]. intros _. by apply Hj.
    - destruct (SearchQuery.dueBefore q) as [cutoff|]; simpl; [|done].
      case_bool_decide; [|done]. intros _. by rewrite Hd.
    - destruct (SearchQuery.text q) as [text|]; simpl; [|done].
      case_bool_decide; [|done]. intros _. by rewrite Htx. }
  split_and!.
  - intros statuses Hst Hempty. apply searchTasks_no_candidates.
    intros id (Hc & _). rewrite Hst in Hc. naive_solver.
  - intros priorities Hp Hempty. apply searchTasks_no_candidates.
    intros id (_ & Hc & _). rewrite Hp in Hc. naive_solver.
  - intros tagIds Htg Hempty. apply searchTasks_no_candidates.
    intros id (_ & _ & Hc & _). rewrite Htg in Hc. naive_solver.
  - intros p Hp Hne Hnone. apply searchTasks_no_candidates.
    intros id (_ & _ & _ & Hc & _). rewrite Hp in Hc. simpl in Hc.
    rewrite bool_decide_eq_true_2 in Hc by done.
    destruct (Hc I) as (ids & Hget & _). congruence.
  - apply searchTasks_ext; [|done]. by rewrite !filterTaskIds_chain.
  - apply searchTasks_ext; [|done]. by rewrite !filterTaskIds_chain.
  - apply searchTasks_ext; [|done]. by rewrite !filterTaskIds_chain.
  - intros id t Ht. apply elem_of_searchTasks. exists id, t. split_and!; [|done..].
    unfold IndexStore.filterTaskIds. simpl.
    apply JsSet_elem_of_of_list, JsMap_elem_of_keys. by exists t.
  - exact Hbuckets.
  - intros [Hc Hs] t Ht Hst Hp Htg Hj Hd Htx.
    apply (Hbuckets (Task.id t) t Ht); [| | | |done|done].
    + intros statuses Hq Hne. exists (Task.status t). split; [by apply Hst|].
      by apply (complete_status _ _ Hc).
    + intros priorities Hq Hne. exists (Task.priority t). split; [by apply Hp|].
      by apply (complete_priority _ _ Hc).
    + intros tagIds Hq Hne. destruct (Htg tagIds Hq Hne) as (tagId & Hin & Htag).
      exists tagId. split; [done|]. by apply (complete_tag _ _ Hc _ t).
    + intros p Hq Hne. apply (complete_project _ _ Hc _ t); [done|].
      split; [by apply Hj|done].
Qed.
End hydration.

Section hydration_examples.
#[local] Existing Instance hostRuntime.

Lemma searchTasks_isOverdue_witness :
  IndexStore.hydrate storeAB day1 taskA ∈ IndexStore.searchTasks storeAB SearchQuery.empty day1
  ∧ IndexStore.overdueTasks storeAB = []
  ∧ TaskListItem.isOverdue (IndexStore.hydrate storeAB day1 taskA) = true.
Proof.
  assert (IndexStore.hydrate storeAB day1 taskA
            ∈ IndexStore.searchTasks storeAB SearchQuery.empty day1) as Hin by compute_done.
  split_and!; [exact Hin|reflexivity|].
  destruct (searchTasks_isOverdue storeAB SearchQuery.empty day1 _ Hin) as (_ & _ & _ & Hpast).
  apply (Hpast "2024-01-01T00:00:00.000Z" day0); [reflexivity|reflexivity|reflexivity|discriminate].
Defined.

(** C7, counterexample.  [priorities] is specified as the empty list, the
    union of its matching buckets is empty, and the result is not empty. *)
Lemma searchTasks_empty_priorities_counterexample :
  SearchQuery.priorities (queryPriorities []) = Some []
  ∧ IndexStore.union_buckets (IndexStore.tasksByPriority storeAB) [] = []
  ∧ IndexStore.searchTasks storeAB (queryPriorities []) day1 ≠ [].
Proof. split_and!; [reflexivity|reflexivity|discriminate]. Qed.

Lemma searchTasks_empty_category_witness :
  nonEmpty (SearchQuery.statuses (queryStatuses [archived])) = Some [archived]
  ∧ (∀ st id, st ∈ [archived] → ¬ in_bucket (IndexStore.tasksByStatus storeAB) st id)
  ∧ IndexStore.searchTasks storeAB (queryStatuses [archived]) day1 = [].
Proof.
  assert (∀ st id, st ∈ [archived] → ¬ in_bucket (IndexStore.tasksByStatus storeAB) st id)
    as Hempty.
  { intros st id ->%list_elem_of_singleton (ids & Hget & _). discriminate. }
  split_and!; [reflexivity|exact Hempty|].
  exact (proj1 (searchTasks_empty_category storeAB (queryStatuses [archived]) day1)
               [archived] eq_refl Hempty).
Defined.
End hydration_examples.

(** ** Projects and tags *)

Section projects.
Context `{JsRuntime}.
Implicit Types (s : IndexStore.t) (id pid : ID) (t : Task).

Lemma removeProject_keeps_task s pid now id t :
  Complete (IndexStore.getTask s) s →
  IndexStore.getTask s id = Some t → Task.projectId t = Some pid →
  IndexStore.hydrate (IndexStore.removeProject s pid) now t
    ∈ IndexStore.searchTasks (IndexStore.removeProject s pid) (queryProject pid) now
  ∧ TaskListItem.project (IndexStore.hydrate (IndexStore.removeProject s pid) now t) = None.
Proof.
  intros Hc Ht Hp. split.
  - apply elem_of_searchTasks. exists id, t. split_and!; [|done..].
    apply elem_of_filterTaskIds. unfold in_candidates. simpl.
    split_and!; [by exists t|done|done| |done|done].
    case_bool_decide as Hne; [|done]. intros _.
    by apply (complete_project _ _ Hc id t pid).
  - simpl. rewrite Hp. simpl. case_bool_decide; [|done].
    unfold IndexStore.removeProject. simpl. by rewrite JsMap_get_delete, decide_True.
Qed.

(** C9.  In a store built by any sequence of commands, [removeProject]
    changes the projects and nothing else; a task of the removed project is
    still returned by the search for that project, without a project in its
    record. *)
Theorem removeProject_frame (ops : list Op) (pid : ID) (now : Z) :
  let s := run ops in
  let s' := IndexStore.removeProject s pid in
  IndexStore.projects s' = JsMap.delete (IndexStore.projects s) pid
  ∧ IndexStore.tasks s' = IndexStore.tasks s
  ∧ IndexStore.tags s' = IndexStore.tags s
  ∧ IndexStore.tagByName s' = IndexStore.tagByName s
  ∧ IndexStore.tasksByProject s' = IndexStore.tasksByProject s
  ∧ IndexStore.tasksByTag s' = IndexStore.tasksByTag s
  ∧ IndexStore.tasksByStatus s' = IndexStore.tasksByStatus s
  ∧ IndexStore.tasksByPriority s' = IndexStore.tasksByPriority s
  ∧ IndexStore.overdueTasks s' = IndexStore.overdueTasks s
  ∧ ∀ id t, IndexStore.getTask s id = Some t → Task.projectId t = Some pid →
      ∃ item, item ∈ IndexStore.searchTasks s' (queryProject pid) now
              ∧ TaskListItem.task item = t ∧ TaskListItem.project item = None.
Proof.
  intros s s'. split_and!; try done.
  intros id t Ht Hp.
  destruct (removeProject_keeps_task s pid now id t (run_Complete ops) Ht Hp) as [Hin Hnone].
  eauto.
Qed.
End projects.

Section tags.
Context `{JsRuntime}.
Implicit Types (s : IndexStore.t) (tag : Tag).

(** The tag that [getOrCreate] returns is returned again by the next call,
    which leaves the store alone, also when the first call created it. *)
Lemma getOrCreate_idempotent s name color id now tag s1 color' id' now' :
  TagService.getOrCreate s name color id now = (success tag, s1) →
  TagService.getOrCreate s1 name color' id' now' = (success tag, s1).
Proof.
  unfold TagService.getOrCreate, TagService.byName, IndexStore.getTagByName.
  destruct (JsMap.get (IndexStore.tagByName s) (toLowerCase name)) as [existing|] eqn:E.
  - intros [= <- <-]. by rewrite E.
  - unfold TagService.create. case_bool_decide; [done|].
    intros [= <- <-]. simpl. by rewrite JsMap_get_set_eq.
Qed.









End tags.

Section tag_examples.
#[local] Existing Instance hostRuntime.

(** The store with the two tags is the one that two calls of
    [TagService.create] leave. *)
Example storeTwoTags_by_create :
  (TagService.create
     (TagService.create IndexStore.new (CreateTagInput.mk "Urgent" (Some "red")) "t-1" day0).2
     (CreateTagInput.mk "urgent" None) "t-2" day0).2
  = storeTwoTags.
Proof. reflexivity. Qed.

Lemma removeProject_frame_witness :
  IndexStore.getTask storeAB "a" = Some taskA
  ∧ Task.projectId taskA = Some "p-work"
  ∧ ∃ item, item ∈ IndexStore.searchTasks (IndexStore.removeProject storeAB "p-work")
                     (queryProject "p-work") day1
            ∧ TaskListItem.task item = taskA ∧ TaskListItem.project item = None.
Proof.
  split_and!; [reflexivity|reflexivity|].
  pose proof (removeProject_frame
                [AddProject projectWork; AddTag tagUrgent; AddTask taskA day0; AddTask taskB day0]
                "p-work" day1) as Hframe.
  simpl in Hframe. destruct Hframe as (_ & _ & _ & _ & _ & _ & _ & _ & _ & Hkeep).
  exact (Hkeep "a" taskA eq_refl eq_refl).
Defined.

End tag_examples.

(** ** The sort callback *)

Lemma String_ltb_leb x y : String.ltb y x = false ↔ String.leb x y = true.
Proof.
  unfold String.ltb, String.leb. rewrite (String.compare_antisym x y).
  by destruct (String.compare y x).
Qed.

Lemma String_leb_lt_eq x y :
  String.leb x y = true ↔ OrderedTypeEx.String_as_OT.lt x y ∨ x = y.
Proof.
  unfold String.leb. rewrite <- OrderedTypeEx.String_as_OT.cmp_lt.
  unfold OrderedTypeEx.String_as_OT.cmp.
  destruct (String.compare x y) eqn:E.
  - apply String.compare_eq_iff in E. naive_solver.
  - naive_solver.
  - split; [done|]. intros [?| ->]; [done|].
    pose proof (String.compare_antisym y y) as Ha. rewrite E in Ha. done.
Qed.

Lemma String_leb_trans x y z :
  String.leb x y = true → String.leb y z = true → String.leb x z = true.
Proof.
  rewrite !String_leb_lt_eq. intros [Hxy| ->] [Hyz| ->]; eauto.
  left. by eapply OrderedTypeEx.String_as_OT.lt_trans.
Qed.

Lemma key_le_trans a b c : key_le a b → key_le b c → key_le a c.
Proof.
  destruct a, b, c; simpl; try done; try lia. apply String_leb_trans.
Qed.

Lemma key_le_antisym a b : key_le a b → key_le b a → a = b.
Proof.
  destruct a, b; simpl; try done.
  - intros ? ?. f_equal. by apply String.leb_antisym.
  - intros ? ?. f_equal. lia.
Qed.

Section callback.
Context `{JsRuntime}.
Implicit Types (field : SortField) (dir : SortDirection) (a b c : TaskListItem).

Lemma value_lt_asym (v w : IndexStore.SortValue) :
  IndexStore.value_lt v w = true → IndexStore.value_lt w v = false.
Proof.
  destruct v as [x|[x|]], w as [y|[y|]]; simpl; try done.
  - unfold String.ltb. rewrite (String.compare_antisym y x). by destruct (String.compare x y).
  - rewrite bool_decide_eq_true, bool_decide_eq_false. lia.
Qed.

Lemma value_lt_irrefl (v : IndexStore.SortValue) : IndexStore.value_lt v v = false.
Proof.
  destruct (IndexStore.value_lt v v) eqn:E; [|done].
  pose proof (value_lt_asym _ _ E). congruence.
Qed.

(** Direction flips the sign of the comparator, and so does the exchange of
    its arguments. *)
Lemma compareItems_desc field a b :
  IndexStore.compareItems field desc a b = - IndexStore.compareItems field asc a b.
Proof. unfold IndexStore.compareItems. simpl. by repeat case_match. Qed.

Lemma compareItems_swap field dir a b :
  IndexStore.compareItems field dir b a = - IndexStore.compareItems field dir a b.
Proof.
  unfold IndexStore.compareItems.
  destruct (IndexStore.value_lt (IndexStore.sortValue field a) (IndexStore.sortValue field b)) eqn:E.
  - rewrite (value_lt_asym _ _ E). by destruct dir.
  - by repeat case_match.
Qed.

Lemma compareItems_tie field dir a b :
  IndexStore.sortValue field a = IndexStore.sortValue field b →
  IndexStore.compareItems field dir a b = 0.
Proof. unfold IndexStore.compareItems. intros ->. by rewrite value_lt_irrefl. Qed.

Lemma instant_sound ts k :
  instant ts = Some k → ∃ z, k = KeyNumber z ∧ Date_getTime ts = Num z ∧ z <= MAX_TIME_VALUE.
Proof.
  unfold instant. destruct (Date_getTime ts) as [z|] eqn:E; [|done].
  intros [= <-]. exists z. split_and!; [done..|]. by apply Date_getTime_range in E as [_ ?].
Qed.

Lemma sortKey_sound field a k :
  sortKey field a = Some k →
  IndexStore.sortValue field a = value_of_key k ∧ key_kind field k.
Proof.
  destruct field; simpl.
  - by intros [= <-].
  - by intros [= <-].
  - intros (z & -> & -> & ?)%instant_sound. done.
  - intros (z & -> & -> & ?)%instant_sound. done.
  - unfold truthy. destruct (Task.dueAt (TaskListItem.task a)) as [due|]; simpl;
      [|by intros [= <-]].
    destruct (decide (due = "")) as [->|Hne].
    + by intros [= <-].
    + rewrite !bool_decide_eq_true_2 by done.
      intros (z & -> & -> & ?)%instant_sound. done.
Qed.

Lemma compareItems_key field a b ka kb :
  sortKey field a = Some ka → sortKey field b = Some kb →
  (IndexStore.compareItems field asc a b <= 0 ↔ key_le ka kb)
  ∧ (IndexStore.compareItems field asc a b = 0 ↔ ka = kb).
Proof.
  intros [Ha Hka]%sortKey_sound [Hb Hkb]%sortKey_sound.
  unfold IndexStore.compareItems. rewrite Ha, Hb. clear Ha Hb.
  destruct field, ka as [x|x|], kb as [y|y|]; simpl in *; try done;
    unfold MAX_SAFE_INTEGER, MAX_TIME_VALUE in *;
    try (repeat case_bool_decide; simpl; split; split; intros; simplify_eq;
         try done; try lia; f_equal; lia).
  rewrite <- String_ltb_leb.
  destruct (String.ltb x y) eqn:Hxy, (String.ltb y x) eqn:Hyx; simpl.
  - pose proof (value_lt_asym (IndexStore.VString x) (IndexStore.VString y) Hxy). simpl in *.
    congruence.
  - split; [done|]. split; [done|]. intros [= ->].
    pose proof (value_lt_irrefl (IndexStore.VString y)). simpl in *. congruence.
  - split; [done|]. split; [done|]. intros [= ->].
    pose proof (value_lt_irrefl (IndexStore.VString y)). simpl in *. congruence.
  - split; [done|]. split; [|done]. intros _. f_equal.
    apply String.leb_antisym; by apply String_ltb_leb.
Qed.

Lemma compareItems_ordered field dir a b :
  is_Some (sortKey field a) → is_Some (sortKey field b) →
  IndexStore.compareItems field dir a b <= 0 ↔ ordered field dir a b.
Proof.
  intros [ka Ha] [kb Hb]. unfold ordered. rewrite Ha, Hb.
  destruct dir; simpl.
  - apply (compareItems_key field a b ka kb Ha Hb).
  - rewrite compareItems_desc, <- (compareItems_swap field asc a b).
    apply (compareItems_key field b a kb ka Hb Ha).
Qed.

Lemma ordered_total field dir a b :
  is_Some (sortKey field a) → is_Some (sortKey field b) →
  ordered field dir a b ∨ ordered field dir b a.
Proof.
  intros Ha Hb.
  rewrite <- !compareItems_ordered by done.
  rewrite (compareItems_swap field dir a b). lia.
Qed.

Lemma ordered_trans field dir a b c :
  ordered field dir a b → ordered field dir b c → ordered field dir a c.
Proof.
  unfold ordered.
  destruct (sortKey field a), (sortKey field b), (sortKey field c); try done.
  destruct dir; simpl; eauto using key_le_trans.
Qed.
End callback.

(** ** [searchTasks]: the order of the result *)

Section sort.
Context `{JsRuntime}.
Implicit Types (s : IndexStore.t) (q : SearchQuery) (field : SortField) (dir : SortDirection).

Lemma sortKey_None field a :
  sortKey field a = None → IndexStore.sortValue field a = IndexStore.VNumber NaN.
Proof.
  unfold sortKey, instant, IndexStore.sortValue, truthy.
  destruct field; try done.
  - by destruct (Date_getTime _).
  - by destruct (Date_getTime _).
  - destruct (Task.dueAt (TaskListItem.task a)) as [due|]; [|done]. simpl.
    destruct (decide (due = "")) as [->|Hne]; [done|].
    rewrite !bool_decide_eq_true_2 by done. by destruct (Date_getTime _).
Qed.

Lemma sortKey_sortValue field a b :
  sortKey field a = sortKey field b →
  IndexStore.sortValue field a = IndexStore.sortValue field b.
Proof.
  destruct (sortKey field a) as [k|] eqn:Ha; intros Hb; symmetry in Hb.
  - apply sortKey_sound in Ha as [-> _], Hb as [-> _]. done.
  - apply sortKey_None in Ha, Hb. congruence.
Qed.

Lemma searchTasks_sorted s q field dir now :
  SearchQuery.sort q = Some (field, dir) →
  IndexStore.searchTasks s q now
  = Array_sort (λ a b, Num (IndexStore.compareItems field dir a b))
               (IndexStore.searchTasks s (SearchService.with_sort q None) now).
Proof. unfold IndexStore.searchTasks. intros ->. done. Qed.

(** The sort callback is a consistent comparator for records whose
    timestamps to compare denote instants. *)
Lemma compareItems_consistent field dir (l : list TaskListItem) :
  Forall (λ item, is_Some (sortKey field item)) l →
  ConsistentComparator (λ a b, Num (IndexStore.compareItems field dir a b)) l.
Proof.
  intros Hkeys. rewrite Forall_forall in Hkeys.
  apply (consistent_of_order _ l (ordered field dir)); unfold SortCompare.
  - intros x y _ _. apply compareItems_swap.
  - intros x y Hx Hy. apply compareItems_ordered; auto.
  - intros x y z _ _ _. apply ordered_trans.
Qed.

Lemma compareItems_ties field dir a b :
  is_Some (sortKey field a) → is_Some (sortKey field b) →
  IndexStore.compareItems field dir a b = 0 ↔ sortKey field a = sortKey field b.
Proof.
  intros [ka Ha] [kb Hb].
  destruct (compareItems_key field a b ka kb Ha Hb) as [_ Htie].
  rewrite Ha, Hb. destruct dir; [|rewrite compareItems_desc]; naive_solver lia.
Qed.

Lemma sortKey_title_priority field item :
  field = title ∨ field = priority → is_Some (sortKey field item).
Proof. intros [-> | ->]; by eexists. Qed.

(** C5, as amended.  With a sort specification the result is a permutation of
    the unsorted result.  When the timestamps to compare denote instants (and
    always for the fields title and priority) it is ordered by the key of the
    field (lower-cased title as a string, priority as a number, createdAt and
    updatedAt as instants, dueAt as an instant with "never" after every
    instant for a task without due date) in the direction given, with the
    records of equal key in their order before the sort.  The direction flips
    the sign of the comparator.  Tasks of priorities 3, 1, 5, 2 sorted by
    priority ascending come out as 1, 2, 3, 5. *)
Theorem searchTasks_sort s q field dir now
    (Hsort : SearchQuery.sort q = Some (field, dir)) :
  let unsorted := IndexStore.searchTasks s (SearchService.with_sort q None) now in
  let sorted := IndexStore.searchTasks s q now in
  sorted ≡ₚ unsorted
  ∧ (Forall (λ item, is_Some (sortKey field item)) unsorted →
     StronglySorted (ordered field dir) sorted
     ∧ ∀ a, filter (λ item, sortKey field item = sortKey field a) sorted
            = filter (λ item, sortKey field item = sortKey field a) unsorted)
  ∧ (field = title ∨ field = priority →
     Forall (λ item, is_Some (sortKey field item)) unsorted)
  ∧ (∀ a b, IndexStore.compareItems field desc a b = - IndexStore.compareItems field asc a b)
  ∧ (∀ a b ka kb, sortKey field a = Some ka → sortKey field b = Some kb →
       (IndexStore.compareItems field asc a b <= 0 ↔ key_le ka kb)
       ∧ (IndexStore.compareItems field asc a b = 0 ↔ ka = kb))
  ∧ priorities_of (@IndexStore.searchTasks hostRuntime storeBACD (querySort priority asc) day1)
    = [1; 2; 3; 5].
Proof.
  intros unsorted sorted. subst sorted.
  rewrite (searchTasks_sorted s q field dir now Hsort). fold unsorted.
  split_and!.
  - apply Array_sort_Permutation.
  - intros Hkeys. pose proof (compareItems_consistent field dir unsorted Hkeys) as Hcons.
    rewrite Forall_forall in Hkeys. split.
    + apply Array_sort_sorted_by; [done|].
      intros x y Hx Hy. unfold SortCompare. apply compareItems_ordered; auto.
    + intros a. apply (Array_sort_stable_by _ unsorted (sortKey field)); [done|].
      intros x y Hx Hy. unfold SortCompare. apply compareItems_ties; auto.
  - intros Hfield. apply Forall_forall. intros item _. by apply sortKey_title_priority.
  - apply compareItems_desc.
  - apply compareItems_key.
  - reflexivity.
Qed.
End sort.

Section sort_examples.
#[local] Existing Instance hostRuntime.

Example unsorted_priorities :
  priorities_of (IndexStore.searchTasks storeBACD SearchQuery.empty day1) = [3; 1; 5; 2].
Proof. reflexivity. Qed.

Example sort_dueAt_desc :
  ids_of (IndexStore.searchTasks storeBACD (querySort dueAt desc) day1) = ["c"; "d"; "b"; "a"].
Proof. reflexivity. Qed.

Example sort_dueAt_asc :
  ids_of (IndexStore.searchTasks storeBACD (querySort dueAt asc) day1) = ["b"; "a"; "c"; "d"].
Proof. reflexivity. Qed.

(** C5, counterexample.  Three of seven tasks have a [createdAt] that is not
    a date, which the callback ties with every other task.  Sorted by
    [createdAt] on V8, task u7 comes before task u6, which has the same
    [createdAt] and came first before the sort; and u3, created on January 3,
    comes before u6, created on January 2. *)
Lemma searchTasks_sort_invalid_date_counterexample :
  let unsorted := IndexStore.searchTasks storeDates SearchQuery.empty day1 in
  let sorted := IndexStore.searchTasks storeDates (querySort createdAt asc) day1 in
  ids_of unsorted = ["u1"; "u2"; "u3"; "u4"; "u5"; "u6"; "u7"]
  ∧ (λ item, Date_getTime (Task.createdAt (TaskListItem.task item))) <$> unsorted
    = [NaN; NaN; Num (day0 + 2 * 86400000); Num day0; NaN; Num day1; Num day1]
  ∧ ids_of sorted = ["u1"; "u2"; "u4"; "u7"; "u3"; "u5"; "u6"]
  ∧ ¬ (∀ a, filter (λ item, sortKey createdAt item = sortKey createdAt a) sorted
            = filter (λ item, sortKey createdAt item = sortKey createdAt a) unsorted).
Proof.
  intros unsorted sorted. split_and!; [reflexivity..|].
  intros Hstable.
  specialize (Hstable (IndexStore.hydrate storeDates day1 (taskCreated "u6" "2024-01-02T00:00:00.000Z"))).
  vm_compute in Hstable. discriminate.
Qed.

Lemma searchTasks_sort_witness :
  SearchQuery.sort (querySort dueAt desc) = Some (dueAt, desc)
  ∧ Forall (λ item, is_Some (sortKey dueAt item))
           (IndexStore.searchTasks storeBACD
              (SearchService.with_sort (querySort dueAt desc) None) day1)
  ∧ StronglySorted (ordered dueAt desc)
                   (IndexStore.searchTasks storeBACD (querySort dueAt desc) day1).
Proof.
  assert (Forall (λ item, is_Some (sortKey dueAt item))
            (IndexStore.searchTasks storeBACD
               (SearchService.with_sort (querySort dueAt desc) None) day1)) as Hkeys.
  { repeat constructor; by eexists. }
  split_and!; [reflexivity|exact Hkeys|].
  exact (proj1 (proj1 (proj2 (searchTasks_sort storeBACD (querySort dueAt desc) dueAt desc day1
                                               eq_refl)) Hkeys)).
Defined.
End sort_examples.

(** ** The text query parser *)

Section tokens.



























End tokens.

Section parser.
Context `{JsRuntime}.
Implicit Types (s : IndexStore.t) (q : SearchQuery) (token : string).














End parser.

Section parser_examples.
#[local] Existing Instance hostRuntime.

Example parseQuery_example :
  SearchService.parseQuery storeAB
    "  status:todo tag:urgent tag:nosuch project:none -foo  bar sort:priority:desc " day1
  = Returns (SearchQuery.mk (Some "-foo bar") (Some [todo]) None (Some ["t-1"]) None None
                            (Some (priority, desc))).
Proof. reflexivity. Qed.

(** U+00A0 separates tokens as a space does. *)
Example tokenize_no_break_space :
  SearchService.tokenize (String (ascii_of_nat 160) "status:todo" +:+ String (ascii_of_nat 160) "x")
  = ["status:todo"; "x"].
Proof. reflexivity. Qed.


End parser_examples.

(* ------------------------------------------------------------------ *)
(** ** Further properties of the store and the services *)

Section maps_more.
Context {K V : Type} `{EqDecision K}.
Implicit Types (m : list (K * V)) (k : K) (v : V).

Lemma JsMap_keys_set m k v :
  JsMap.keys (JsMap.set m k v) = if JsMap.has m k then JsMap.keys m else JsMap.keys m ++ [k].
Proof.
  unfold JsMap.keys, JsMap.has. induction m as [|[k' v'] m IH]; csimpl; [done|].
  destruct (decide (k' = k)) as [->|]; csimpl; [done|].
  rewrite IH. by destruct (JsMap.get m k).
Qed.

Lemma JsMap_keys_delete m k : JsMap.keys (JsMap.delete m k) = filter (λ k', k' ≠ k) (JsMap.keys m).
Proof.
  unfold JsMap.keys, JsMap.delete. induction m as [|[k' v'] m IH]; csimpl; [done|].
  rewrite !filter_cons. csimpl. destruct (decide (k' ≠ k)); csimpl; by rewrite IH.
Qed.

Lemma JsMap_NoDup_set m k v : NoDup (JsMap.keys m) → NoDup (JsMap.keys (JsMap.set m k v)).
Proof.
  intros Hm. rewrite JsMap_keys_set. unfold JsMap.has.
  destruct (JsMap.get m k) eqn:E; [done|].
  apply NoDup_app. split_and!; [done| |apply NoDup_singleton].
  intros k' Hk' ->%list_elem_of_singleton.
  apply JsMap_elem_of_keys in Hk' as [? ?]. congruence.
Qed.

Lemma JsMap_NoDup_delete m k : NoDup (JsMap.keys m) → NoDup (JsMap.keys (JsMap.delete m k)).
Proof. intros Hm. rewrite JsMap_keys_delete. by apply NoDup_filter. Qed.

Lemma omap_ext_elem_of {A B} (f g : A → option B) (l : list A) :
  (∀ x, x ∈ l → f x = g x) → omap f l = omap g l.
Proof.
  intros Hfg. induction l as [|x l IH]; [done|]. csimpl.
  rewrite (Hfg x) by apply list_elem_of_here.
  rewrite IH; [done|]. intros y Hy. apply Hfg. by apply list_elem_of_further.
Qed.

(** In a map that lists each key once, looking up the keys in order gives
    the values in order. *)
Lemma JsMap_omap_keys {B} m (f : V → B) :
  NoDup (JsMap.keys m) →
  omap (λ k, f <$> JsMap.get m k) (JsMap.keys m) = f <$> JsMap.values m.
Proof.
  unfold JsMap.keys, JsMap.values. induction m as [|[k v] m IH]; csimpl; [done|].
  intros [Hk Hm]%NoDup_cons. rewrite decide_True by done. csimpl. f_equal.
  rewrite <- IH by done. apply omap_ext_elem_of.
  intros k' Hk'. rewrite decide_False; [done|]. by intros ->.
Qed.

Lemma JsMap_elem_of_values m v :
  NoDup (JsMap.keys m) → v ∈ JsMap.values m ↔ ∃ k, JsMap.get m k = Some v.
Proof.
  intros Hm. rewrite <- (list_fmap_id (JsMap.values m)), <- JsMap_omap_keys by done.
  rewrite list_elem_of_omap. setoid_rewrite JsMap_elem_of_keys.
  split.
  - intros (k & _ & Hget). exists k. by destruct (JsMap.get m k); simplify_eq/=.
  - intros (k & Hget). exists k. rewrite Hget. eauto.
Qed.
End maps_more.

Section sets_more.
Context {A : Type} `{EqDecision A}.
Implicit Types (s : list A) (x y : A).

Lemma JsSet_NoDup_delete s x : NoDup s → NoDup (JsSet.delete s x).
Proof. intros Hs. unfold JsSet.delete. by apply NoDup_filter. Qed.

Lemma JsSet_add_all_NoDup (xs : list A) s :
  NoDup (s ++ xs) → JsSet.add_all s xs = s ++ xs.
Proof.
  unfold JsSet.add_all. revert s. induction xs as [|x xs IH]; intros s Hnd; simpl.
  - by rewrite app_nil_r.
  - assert (JsSet.add s x = s ++ [x]) as ->.
    { unfold JsSet.add. destruct (JsSet.has s x) eqn:E; [|done].
      apply JsSet_has_true in E. apply NoDup_app in Hnd as (_ & Hd & _).
      destruct (Hd x E). apply list_elem_of_here. }
    rewrite IH; rewrite <- app_assoc; done.
Qed.

(** [new Set(xs)] of a list without repetition is the list. *)
Lemma JsSet_of_list_NoDup (xs : list A) : NoDup xs → JsSet.of_list xs = xs.
Proof. intros Hnd. unfold JsSet.of_list. by rewrite JsSet_add_all_NoDup. Qed.
End sets_more.

Section buckets_more.
Context {K : Type} `{EqDecision K}.
Implicit Types (index : list (K * list ID)) (k : K) (id : ID).

Lemma BucketsWellFormed_add index k id :
  BucketsWellFormed index → BucketsWellFormed (IndexStore.bucket_add index k id).
Proof.
  intros [Hkeys Hb]. unfold IndexStore.bucket_add, JsMap.has.
  destruct (JsMap.get index k) as [ids0|] eqn:E.
  - rewrite E. split; [by apply JsMap_NoDup_set|].
    intros k' ids. rewrite JsMap_get_set. case_decide as Hk; [|by apply Hb].
    intros [= <-]. destruct (Hb _ _ E) as [_ Hnd]. split; [|by apply JsSet_NoDup_add].
    intros Hnil. assert (id ∈ JsSet.add ids0 id) as Hin by (apply JsSet_elem_of_add; by right).
    rewrite Hnil in Hin. by apply elem_of_nil in Hin.
  - rewrite JsMap_get_set_eq. split; [by do 2 apply JsMap_NoDup_set|].
    intros k' ids. rewrite JsMap_get_set. case_decide as Hk.
    + intros [= <-]. split; [|apply JsSet_NoDup_add, NoDup_nil_2].
      intros Hnil.
      assert (id ∈ JsSet.add (JsSet.empty (A := ID)) id) as Hin
        by (apply JsSet_elem_of_add; by right).
      rewrite Hnil in Hin. by apply elem_of_nil in Hin.
    + rewrite JsMap_get_set_ne by done. by apply Hb.
Qed.

Lemma BucketsWellFormed_remove index k id :
  BucketsWellFormed index → BucketsWellFormed (IndexStore.bucket_remove index k id).
Proof.
  intros [Hkeys Hb]. unfold IndexStore.bucket_remove.
  destruct (JsMap.get index k) as [ids0|] eqn:E; [|done].
  case_bool_decide as Hsize.
  - split; [by apply JsMap_NoDup_delete|].
    intros k' ids. rewrite JsMap_get_delete. case_decide; [done|]. by apply Hb.
  - split; [by apply JsMap_NoDup_set|].
    intros k' ids. rewrite JsMap_get_set. case_decide as Hk; [|by apply Hb].
    intros [= <-]. split.
    + intros Hnil. apply Hsize. unfold JsSet.size. by rewrite Hnil.
    + apply JsSet_NoDup_delete. by destruct (Hb _ _ E).
Qed.

Lemma BucketsWellFormed_add_all index (ks : list K) id :
  BucketsWellFormed index →
  BucketsWellFormed (foldl (λ ix k, IndexStore.bucket_add ix k id) index ks).
Proof.
  revert index. induction ks as [|k ks IH]; intros index Hwf; simpl; [done|].
  by apply IH, BucketsWellFormed_add.
Qed.

Lemma BucketsWellFormed_remove_all index (ks : list K) id :
  BucketsWellFormed index →
  BucketsWellFormed (foldl (λ ix k, IndexStore.bucket_remove ix k id) index ks).
Proof.
  revert index. induction ks as [|k ks IH]; intros index Hwf; simpl; [done|].
  by apply IH, BucketsWellFormed_remove.
Qed.

Lemma BucketsWellFormed_empty : BucketsWellFormed (K := K) [].
Proof. split; [constructor|done]. Qed.
End buckets_more.

Section keyed.
Context {V : Type} (key : V → ID).
Implicit Types (m : list (ID * V)) (k : ID) (v : V).

Lemma Keyed_empty : Keyed key [].
Proof. split; [constructor|done]. Qed.

Lemma Keyed_set m v : Keyed key m → Keyed key (JsMap.set m (key v) v).
Proof.
  intros [Hnd Hk]. split; [by apply JsMap_NoDup_set|].
  intros k v'. rewrite JsMap_get_set. case_decide; [by intros [= <-]|apply Hk].
Qed.

Lemma Keyed_delete m k : Keyed key m → Keyed key (JsMap.delete m k).
Proof.
  intros [Hnd Hk]. split; [by apply JsMap_NoDup_delete|].
  intros k' v'. rewrite JsMap_get_delete. case_decide; [done|apply Hk].
Qed.

(** The values of such a map are the values stored under their own keys,
    and no two of them have the same key. *)
Lemma Keyed_elem_of_values m v :
  Keyed key m → v ∈ JsMap.values m ↔ JsMap.get m (key v) = Some v.
Proof.
  intros [Hnd Hk]. rewrite JsMap_elem_of_values by done. split; [|eauto].
  intros [k Hget]. by rewrite (Hk _ _ Hget).
Qed.

Lemma Keyed_values_keys m : Keyed key m → key <$> JsMap.values m = JsMap.keys m.
Proof.
  unfold Keyed, JsMap.values, JsMap.keys.
  induction m as [|[k v] m IH]; csimpl; [done|].
  intros [[Hk Hnd]%NoDup_cons Hkey].
  rewrite (Hkey k v) by (by rewrite decide_True). f_equal.
  apply IH. split; [done|]. intros k' v' Hget. apply Hkey.
  rewrite decide_False; [done|]. intros ->.
  apply Hk, JsMap_elem_of_keys. eauto.
Qed.

Lemma Keyed_NoDup_values m : Keyed key m → NoDup (key <$> JsMap.values m).
Proof. intros Hm. rewrite Keyed_values_keys by done. apply Hm. Qed.
End keyed.

Section wellformed.
Context `{JsRuntime}.
Implicit Types (s : IndexStore.t) (task old : Task).

Lemma WellFormed_new : StoreWellFormed IndexStore.new.
Proof.
  split; try apply Keyed_empty; try apply BucketsWellFormed_empty; constructor.
Qed.

Lemma WellFormed_set_tasks s m :
  Keyed Task.id m → StoreWellFormed s → StoreWellFormed (IndexStore.set_tasks s m).
Proof. intros Hm [? ? ? ? ? ? ? ? ?]. by split. Qed.

Lemma WellFormed_updateTaskIndexes s task now :
  StoreWellFormed s → StoreWellFormed (IndexStore.updateTaskIndexes s task now).
Proof.
  intros [? ? ? ? ? ? ? ? ?]. split; simpl; try done.
  - destruct (Task.projectId task); [|done]. case_bool_decide; [|done].
    by apply BucketsWellFormed_add.
  - by apply BucketsWellFormed_add_all.
  - by apply BucketsWellFormed_add.
  - by apply BucketsWellFormed_add.
  - destruct (IndexStore.overdue_at now task);
      [by apply JsSet_NoDup_add|by apply JsSet_NoDup_delete].
Qed.

Lemma WellFormed_removeTaskFromIndexes s old :
  StoreWellFormed s → StoreWellFormed (IndexStore.removeTaskFromIndexes s old).
Proof.
  intros [? ? ? ? ? ? ? ? ?]. split; simpl; try done.
  - destruct (Task.projectId old); [|done]. case_bool_decide; [|done].
    by apply BucketsWellFormed_remove.
  - by apply BucketsWellFormed_remove_all.
  - by apply BucketsWellFormed_remove.
  - by apply BucketsWellFormed_remove.
  - by apply JsSet_NoDup_delete.
Qed.

Lemma WellFormed_apply s op : StoreWellFormed s → StoreWellFormed (apply s op).
Proof.
  intros Hwf. destruct op as [task now|task now|id|p|p|id|tag|tag|id|]; simpl.
  - apply WellFormed_updateTaskIndexes, WellFormed_set_tasks; [|done].
    apply Keyed_set, Hwf.
  - unfold IndexStore.updateTask.
    destruct (JsMap.get _ _) as [old|];
      apply WellFormed_updateTaskIndexes, WellFormed_set_tasks;
      try apply Keyed_set; try apply WellFormed_removeTaskFromIndexes; try done; apply Hwf.
  - unfold IndexStore.removeTask. destruct (JsMap.get _ _) as [old|]; [|done].
    apply WellFormed_set_tasks.
    + apply Keyed_delete, Hwf.
    + by apply WellFormed_removeTaskFromIndexes.
  - destruct Hwf. split; try done. by apply Keyed_set.
  - destruct Hwf. split; try done. by apply Keyed_set.
  - destruct Hwf. split; try done. by apply Keyed_delete.
  - destruct Hwf. split; try done; simpl; [by apply Keyed_set|by apply JsMap_NoDup_set].
  - destruct Hwf. split; try done; simpl; [by apply Keyed_set|].
    apply JsMap_NoDup_set. destruct (JsMap.get _ _); [by apply JsMap_NoDup_delete|done].
  - unfold IndexStore.removeTag. destruct (JsMap.get _ _) as [tag|]; [|done].
    destruct Hwf. split; try done; simpl; [by apply Keyed_delete|by apply JsMap_NoDup_delete].
  - apply WellFormed_new.
Qed.

Lemma WellFormed_run_from ops s : StoreWellFormed s → StoreWellFormed (run_from s ops).
Proof.
  revert s. induction ops as [|op ops IH]; intros s Hwf; [done|].
  apply IH, WellFormed_apply, Hwf.
Qed.

Lemma WellFormed_run ops : StoreWellFormed (run ops).
Proof. apply WellFormed_run_from, WellFormed_new. Qed.

(** X1.  After any sequence of the mutators of the store, every map lists
    each key once and holds each entity under the entity's own id; every
    bucket of the four indexes is a non-empty set that holds each id once (a
    bucket that [removeTaskFromIndexes] empties is deleted); and the overdue
    set holds each id once. *)
Theorem store_well_formed (ops : list Op) : StoreWellFormed (run ops).
Proof. apply WellFormed_run_from, WellFormed_new. Qed.
End wellformed.

(** ** Tags made by [getOrCreate] *)

Section tags_by_getOrCreate.
Context `{JsRuntime}.
Implicit Types (s : IndexStore.t) (tag : Tag) (cs : list Call).








End tags_by_getOrCreate.

Section tags_by_getOrCreate_examples.
#[local] Existing Instance hostRuntime.

Example test_callsAB : calls callsAB = storeAB.
Proof. reflexivity. Qed.

End tags_by_getOrCreate_examples.

Section overdue.
Context `{JsRuntime}.
Implicit Types (s : IndexStore.t) (task old : Task).

Lemma overdue_at_true now task :
  IndexStore.overdue_at now task = true →
  Task.status task ≠ done
  ∧ ∃ due z, Task.dueAt task = Some due ∧ due ≠ "" ∧ Date_getTime due = Num z ∧ z < now.
Proof.
  unfold IndexStore.overdue_at. destruct (Task.dueAt task) as [due|]; [|done].
  rewrite !andb_true_iff, !bool_decide_eq_true. intros [[Hne Hlt] Hst]. split; [done|].
  destruct (Date_getTime due) as [z|] eqn:Hz; [|done].
  apply bool_decide_eq_true in Hlt. by exists due, z.
Qed.

Lemma OverdueSound_updateTaskIndexes s task now m :
  (∀ id, id ∈ IndexStore.overdueTasks s → id ≠ Task.id task →
         ∃ t now', JsMap.get m id = Some t ∧ IndexStore.overdue_at now' t = true) →
  JsMap.get m (Task.id task) = Some task →
  OverdueSound (IndexStore.updateTaskIndexes (IndexStore.set_tasks s m) task now).
Proof.
  intros Hold Hget id. unfold IndexStore.getTask. simpl.
  destruct (IndexStore.overdue_at now task) eqn:Hov.
  - intros [Hin| ->]%JsSet_elem_of_add; [|by eauto].
    destruct (decide (id = Task.id task)) as [->|Hne]; [by eauto|]. by apply Hold.
  - intros [Hin Hne]%JsSet_elem_of_delete. by apply Hold.
Qed.

Lemma OverdueSound_apply s op :
  Complete (IndexStore.getTask s) s → OverdueSound s → OverdueSound (apply s op).
Proof.
  intros Hc Hs. destruct op as [task now|task now|id|p|p|id|tag|tag|id|]; simpl; try done.
  - apply OverdueSound_updateTaskIndexes; [|apply JsMap_get_set_eq].
    intros id Hin Hne. rewrite JsMap_get_set_ne by done. by apply Hs.
  - unfold IndexStore.updateTask. destruct (JsMap.get _ _) as [old|] eqn:Hold.
    + apply OverdueSound_updateTaskIndexes; [|apply JsMap_get_set_eq].
      simpl. intros id [Hin _]%JsSet_elem_of_delete Hne.
      rewrite JsMap_get_set_ne by done. by apply Hs.
    + apply OverdueSound_updateTaskIndexes; [|apply JsMap_get_set_eq].
      intros id Hin Hne. rewrite JsMap_get_set_ne by done. by apply Hs.
  - unfold IndexStore.removeTask. destruct (JsMap.get _ _) as [old|] eqn:Hold; [|done].
    intros id'. unfold IndexStore.getTask. simpl.
    intros [Hin Hne]%JsSet_elem_of_delete.
    rewrite JsMap_get_delete, decide_False; [by apply Hs|].
    by rewrite <- (complete_key _ _ Hc _ _ Hold).
  - unfold IndexStore.removeTag. by destruct (JsMap.get _ _).
  - by intros id ?%elem_of_nil.
Qed.

Lemma OverdueSound_run ops : OverdueSound (run ops).
Proof.
  unfold run.
  assert (∀ s, Complete (IndexStore.getTask s) s → OverdueSound s →
               OverdueSound (run_from s ops)) as Hgen.
  { induction ops as [|op ops IH]; intros s Hc Hs; [done|].
    apply IH; [by apply apply_Complete|by apply OverdueSound_apply]. }
  apply Hgen; [apply Complete_new|]. by intros id ?%elem_of_nil.
Qed.

(** X2.  After any sequence of the mutators, a task that [getOverdueTasks]
    returns is stored under its id, is not done, and has a due date that
    denotes an instant: no mutation leaves a done task, a task without due
    date or a removed task in the maintained overdue set. *)
Theorem getOverdueTasks_sound (ops : list Op) (t : Task)
    (Hin : t ∈ IndexStore.getOverdueTasks (run ops)) :
  IndexStore.getTask (run ops) (Task.id t) = Some t
  ∧ Task.status t ≠ done
  ∧ ∃ due z, Task.dueAt t = Some due ∧ Date_getTime due = Num z.
Proof.
  unfold IndexStore.getOverdueTasks, IndexStore.tasks_of in Hin.
  apply list_elem_of_omap in Hin as (id & Hid & Hget).
  pose proof (complete_key _ _ (run_Complete ops) _ _ Hget) as Hkey.
  destruct (OverdueSound_run ops id Hid) as (t' & now & Hget' & Hov).
  unfold IndexStore.getTask in *. rewrite Hget in Hget'. injection Hget' as <-.
  apply overdue_at_true in Hov as (Hst & due & z & Hdue & _ & Hz & _).
  rewrite Hkey. eauto 10.
Qed.
End overdue.

Section getters.
Context `{JsRuntime}.
Implicit Types (s : IndexStore.t) (t task : Task) (id : ID).

Lemma overdue_snapshot_aux s task now id :
  id ∈ IndexStore.overdueTasks (IndexStore.updateTaskIndexes s task now)
  ↔ if decide (id = Task.id task) then IndexStore.overdue_at now task = true
    else id ∈ IndexStore.overdueTasks s.
Proof.
  simpl. destruct (IndexStore.overdue_at now task) eqn:Hov.
  - rewrite JsSet_elem_of_add. case_decide; naive_solver.
  - rewrite JsSet_elem_of_delete. case_decide; naive_solver.
Qed.

(** X3.  The overdue set is a snapshot taken at each mutation: after
    [addTask] or [updateTask] of a task at the instant [now], the id of the
    task is in the set iff the task is overdue at [now], and the other ids are
    in the set iff they were; so just after the mutation the set agrees with
    the [isOverdue] flag that the hydration computes at the same instant. *)
Theorem overdue_snapshot s task now id :
  (id ∈ IndexStore.overdueTasks (IndexStore.addTask s task now)
   ↔ if decide (id = Task.id task) then IndexStore.overdue_at now task = true
     else id ∈ IndexStore.overdueTasks s)
  ∧ ((∀ id' t, IndexStore.getTask s id' = Some t → Task.id t = id') →
     (id ∈ IndexStore.overdueTasks (IndexStore.updateTask s task now)
      ↔ if decide (id = Task.id task) then IndexStore.overdue_at now task = true
        else id ∈ IndexStore.overdueTasks s))
  ∧ (Task.id task ∈ IndexStore.overdueTasks (IndexStore.updateTask s task now)
     ↔ TaskListItem.isOverdue
         (IndexStore.hydrate (IndexStore.updateTask s task now) now task) = true).
Proof.
  split_and!.
  - unfold IndexStore.addTask. by rewrite overdue_snapshot_aux.
  - intros Hkey. unfold IndexStore.updateTask.
    destruct (JsMap.get (IndexStore.tasks s) (Task.id task)) as [old|] eqn:Hold;
      rewrite overdue_snapshot_aux; [|done].
    case_decide as Hid; [done|]. simpl. rewrite JsSet_elem_of_delete.
    rewrite (Hkey _ _ Hold). tauto.
  - rewrite hydrate_isOverdue. unfold IndexStore.updateTask.
    destruct (JsMap.get (IndexStore.tasks s) (Task.id task)) as [old|];
      rewrite overdue_snapshot_aux; by rewrite decide_True.
Qed.

(** The tasks that a getter reads off a bucket. *)
Lemma elem_of_tasks_of s (ids : list ID) t :
  t ∈ IndexStore.tasks_of s ids ↔ ∃ id, id ∈ ids ∧ IndexStore.getTask s id = Some t.
Proof. unfold IndexStore.tasks_of. by rewrite list_elem_of_omap. Qed.

Lemma elem_of_bucket_tasks {K} `{EqDecision K} s (index : list (K * list ID)) k t :
  t ∈ match JsMap.get index k with
      | Some taskIds => IndexStore.tasks_of s taskIds
      | None => []
      end
  ↔ ∃ id, in_bucket index k id ∧ IndexStore.getTask s id = Some t.
Proof.
  unfold in_bucket. destruct (JsMap.get index k) as [ids|].
  - rewrite elem_of_tasks_of. naive_solver.
  - rewrite elem_of_nil. naive_solver.
Qed.

Lemma getTasksBy_consistent s t :
  IndexConsistent s →
  (∀ st, t ∈ IndexStore.getTasksByStatus s st
         ↔ IndexStore.getTask s (Task.id t) = Some t ∧ Task.status t = st)
  ∧ (∀ tag, t ∈ IndexStore.getTasksByTag s tag
            ↔ IndexStore.getTask s (Task.id t) = Some t ∧ tag ∈ Task.tags t)
  ∧ (∀ p, t ∈ IndexStore.getTasksByProject s p
          ↔ IndexStore.getTask s (Task.id t) = Some t ∧ Task.projectId t = Some p ∧ p ≠ "").
Proof.
  intros [Hc Hs].
  unfold IndexStore.getTasksByStatus, IndexStore.getTasksByTag, IndexStore.getTasksByProject.
  split_and!; intros k; rewrite elem_of_bucket_tasks; split.
  - intros (id & Hin & Hget). pose proof (complete_key _ _ Hc _ _ Hget) as ->.
    split; [done|]. destruct (sound_status _ _ Hs _ _ Hin) as (t' & Hget' & Hst). congruence.
  - intros [Hget <-]. exists (Task.id t). split; [|done]. by apply (complete_status _ _ Hc).
  - intros (id & Hin & Hget). pose proof (complete_key _ _ Hc _ _ Hget) as ->.
    split; [done|]. destruct (sound_tag _ _ Hs _ _ Hin) as (t' & Hget' & Hst). congruence.
  - intros [Hget Htag]. exists (Task.id t). split; [|done]. by apply (complete_tag _ _ Hc _ t).
  - intros (id & Hin & Hget). pose proof (complete_key _ _ Hc _ _ Hget) as ->.
    split; [done|]. destruct (sound_project _ _ Hs _ _ Hin) as (t' & Hget' & Hst).
    unfold projectOf in Hst. rewrite Hget in Hget'. by injection Hget' as <-.
  - intros (Hget & Hp & Hne). exists (Task.id t). split; [|done].
    by apply (complete_project _ _ Hc _ t).
Qed.

(** X4.  In an index-consistent store, [getTasksByStatus], [getTasksByTag]
    and [getTasksByProject] return exactly the stored tasks with that status,
    carrying that tag, and of that project; the project id [""] has no task. *)
Theorem getTasksBy_characterised s t (Hcons : IndexConsistent s) :
  (∀ st, t ∈ IndexStore.getTasksByStatus s st
         ↔ IndexStore.getTask s (Task.id t) = Some t ∧ Task.status t = st)
  ∧ (∀ tag, t ∈ IndexStore.getTasksByTag s tag
            ↔ IndexStore.getTask s (Task.id t) = Some t ∧ tag ∈ Task.tags t)
  ∧ (∀ p, t ∈ IndexStore.getTasksByProject s p
          ↔ IndexStore.getTask s (Task.id t) = Some t ∧ Task.projectId t = Some p ∧ p ≠ "").
Proof. by apply getTasksBy_consistent. Qed.
End getters.

Section enumeration.
Context `{JsRuntime}.
Implicit Types (s : IndexStore.t) (t task : Task) (id : ID).

Lemma searchTasks_empty_wf s now :
  NoDup (JsMap.keys (IndexStore.tasks s)) →
  IndexStore.searchTasks s SearchQuery.empty now
  = IndexStore.hydrate s now <$> IndexStore.getAllTasks s.
Proof.
  intros Hnd. unfold IndexStore.searchTasks, IndexStore.filterTaskIds, IndexStore.getAllTasks.
  simpl. rewrite JsSet_of_list_NoDup by done. by apply JsMap_omap_keys.
Qed.

Lemma searchByStatus_wf s st now :
  BucketsWellFormed (IndexStore.tasksByStatus s) →
  TaskListItem.task <$> SearchService.searchByStatus s [st] now = TaskService.byStatus s st.
Proof.
  intros [_ Hb].
  unfold SearchService.searchByStatus, SearchService.search, IndexStore.searchTasks,
    TaskService.byStatus, IndexStore.getTasksByStatus, IndexStore.filterTaskIds. simpl.
  unfold IndexStore.filterStatuses, IndexStore.filterPriorities, IndexStore.filterTags,
    IndexStore.filterProject, IndexStore.filterDueBefore, IndexStore.filterText. simpl.
  unfold IndexStore.union_buckets. simpl.
  destruct (JsMap.get (IndexStore.tasksByStatus s) st) as [ids|] eqn:E; [|done].
  fold (JsSet.of_list ids). rewrite JsSet_of_list_NoDup by (by destruct (Hb _ _ E)).
  unfold IndexStore.tasks_of. rewrite list_fmap_omap. apply omap_ext_elem_of.
  intros id _. by destruct (JsMap.get (IndexStore.tasks s) id).
Qed.

(** X5.  After any sequence of the mutators, [TaskService.byStatus(status)]
    and [SearchService.searchByStatus([status])] return the same tasks in the
    same order, the order of the status bucket. *)
Theorem byStatus_searchByStatus (ops : list Op) (st : Status) (now : Z) :
  TaskListItem.task <$> SearchService.searchByStatus (run ops) [st] now
  = TaskService.byStatus (run ops) st.
Proof. apply searchByStatus_wf, WellFormed_run. Qed.

(** X6.  After any sequence of the mutators, [search({})] returns the record
    of every stored task, once, in the order of [getAllTasks], which is the
    order in which the ids were first stored; no two tasks of [getAllTasks]
    have the same id, and each is the task that [getTask] returns for its id. *)
Theorem search_all_in_insertion_order (ops : list Op) (now : Z) :
  IndexStore.searchTasks (run ops) SearchQuery.empty now
  = IndexStore.hydrate (run ops) now <$> IndexStore.getAllTasks (run ops)
  ∧ NoDup (Task.id <$> IndexStore.getAllTasks (run ops))
  ∧ ∀ t, t ∈ IndexStore.getAllTasks (run ops)
         ↔ IndexStore.getTask (run ops) (Task.id t) = Some t.
Proof.
  pose proof (WellFormed_run ops) as Hwf. split_and!.
  - apply searchTasks_empty_wf, Hwf.
  - apply Keyed_NoDup_values, Hwf.
  - intros t. apply (Keyed_elem_of_values Task.id), Hwf.
Qed.
End enumeration.

Section project_lists.
Context `{JsRuntime}.
Implicit Types (s : IndexStore.t) (p : Project).

(** The callback [(a, b) => a.order - b.order] on projects whose [order] is
    not [NaN]. *)
Lemma compareOrder_Num (l : list Project) x y :
  (∀ p, p ∈ l → Project.order p ≠ NaN) → x ∈ l → y ∈ l →
  ∃ a b, Project.order x = Num a ∧ Project.order y = Num b
         ∧ SortCompare IndexStore.compareOrder x y = a - b.
Proof.
  intros Hnum Hx Hy. pose proof (Hnum x Hx). pose proof (Hnum y Hy).
  unfold SortCompare, IndexStore.compareOrder.
  destruct (Project.order x) as [a|], (Project.order y) as [b|]; try done.
  by exists a, b.
Qed.

Lemma sort_by_order (l : list Project) :
  Array_sort IndexStore.compareOrder l ≡ₚ l
  ∧ ((∀ p, p ∈ l → Project.order p ≠ NaN) →
     StronglySorted order_le (Array_sort IndexStore.compareOrder l)
     ∧ ∀ o, filter (λ p, Project.order p = o) (Array_sort IndexStore.compareOrder l)
            = filter (λ p, Project.order p = o) l).
Proof.
  split; [apply Array_sort_Permutation|]. intros Hnum.
  assert (ConsistentComparator IndexStore.compareOrder l) as Hcons.
  { apply (consistent_of_order _ l order_le).
    - intros x y Hx Hy.
      destruct (compareOrder_Num l x y Hnum Hx Hy) as (a & b & Ha & Hb & ->).
      destruct (compareOrder_Num l y x Hnum Hy Hx) as (b' & a' & Hb' & Ha' & ->).
      rewrite Ha in Ha'. rewrite Hb in Hb'. injection Ha' as <-. injection Hb' as <-. lia.
    - intros x y Hx Hy.
      destruct (compareOrder_Num l x y Hnum Hx Hy) as (a & b & Ha & Hb & ->).
      unfold order_le. rewrite Ha, Hb. simpl. rewrite bool_decide_eq_true. lia.
    - intros x y z Hx Hy Hz. unfold order_le.
      destruct (compareOrder_Num l x y Hnum Hx Hy) as (a & b & -> & -> & _).
      destruct (compareOrder_Num l y z Hnum Hy Hz) as (b' & c & _ & -> & _).
      simpl. rewrite !bool_decide_eq_true. lia. }
  split.
  - apply Array_sort_sorted_by; [done|]. intros x y Hx Hy.
    destruct (compareOrder_Num l x y Hnum Hx Hy) as (a & b & Ha & Hb & ->).
    unfold order_le. rewrite Ha, Hb. simpl. rewrite bool_decide_eq_true. lia.
  - intros o. apply (Array_sort_stable_by _ l Project.order); [done|].
    intros x y Hx Hy.
    destruct (compareOrder_Num l x y Hnum Hx Hy) as (a & b & Ha & Hb & ->).
    rewrite Ha, Hb. split; [intros ?; f_equal; lia|intros [= ->]; lia].
Qed.

(** X8.  [getRootProjects] returns exactly the stored projects without a
    parent id (absent or [""]).  When the [order] of none of them is [NaN]
    they are sorted by [order], projects of equal [order] in the order in which
    they are stored.  (A [NaN] passes [validateProjectInput], and the callback
    is then no consistent comparator.) *)
Theorem getRootProjects_sorted s :
  (∀ p, p ∈ IndexStore.getRootProjects s
        ↔ p ∈ IndexStore.getAllProjects s ∧ truthy (Project.parentId p) = false)
  ∧ IndexStore.getRootProjects s
    ≡ₚ filter (λ p, truthy (Project.parentId p) = false) (IndexStore.getAllProjects s)
  ∧ ((∀ p, p ∈ IndexStore.getRootProjects s → Project.order p ≠ NaN) →
     StronglySorted order_le (IndexStore.getRootProjects s)
     ∧ ∀ o, filter (λ p, Project.order p = o) (IndexStore.getRootProjects s)
            = filter (λ p, Project.order p = o)
                (filter (λ p, truthy (Project.parentId p) = false)
                        (IndexStore.getAllProjects s))).
Proof.
  unfold IndexStore.getRootProjects, IndexStore.getAllProjects.
  destruct (sort_by_order (filter (λ p, truthy (Project.parentId p) = false)
                                  (JsMap.values (IndexStore.projects s)))) as (Hp & Hs).
  split_and!; [|done|].
  - intros p. rewrite Hp, list_elem_of_filter. tauto.
  - intros Hnum. apply Hs. intros p Hin. apply Hnum. by rewrite Hp.
Qed.

(** X9.  [getChildProjects(parentId)] returns exactly the stored projects
    whose parent id is [parentId]; for a [parentId] other than [""] none of
    them is a root project.  When the [order] of none of them is [NaN] they are
    sorted by [order], projects of equal [order] in the order in which they
    are stored. *)
Theorem getChildProjects_sorted s (parentId : ID) :
  (∀ p, p ∈ IndexStore.getChildProjects s parentId
        ↔ p ∈ IndexStore.getAllProjects s ∧ Project.parentId p = Some parentId)
  ∧ IndexStore.getChildProjects s parentId
    ≡ₚ filter (λ p, Project.parentId p = Some parentId) (IndexStore.getAllProjects s)
  ∧ (parentId ≠ "" →
     ∀ p, p ∈ IndexStore.getChildProjects s parentId → p ∉ IndexStore.getRootProjects s)
  ∧ ((∀ p, p ∈ IndexStore.getChildProjects s parentId → Project.order p ≠ NaN) →
     StronglySorted order_le (IndexStore.getChildProjects s parentId)
     ∧ ∀ o, filter (λ p, Project.order p = o) (IndexStore.getChildProjects s parentId)
            = filter (λ p, Project.order p = o)
                (filter (λ p, Project.parentId p = Some parentId)
                        (IndexStore.getAllProjects s))).
Proof.
  unfold IndexStore.getChildProjects, IndexStore.getRootProjects, IndexStore.getAllProjects.
  destruct (sort_by_order (filter (λ p, Project.parentId p = Some parentId)
                                  (JsMap.values (IndexStore.projects s)))) as (Hp & Hs).
  split_and!; [|done| |].
  - intros p. rewrite Hp, list_elem_of_filter. tauto.
  - intros Hne p. rewrite Hp, Array_sort_Permutation, !list_elem_of_filter.
    intros [Hpar _] [Hroot _]. rewrite Hpar in Hroot. simpl in Hroot.
    by rewrite bool_decide_eq_true_2 in Hroot.
  - intros Hnum. apply Hs. intros p Hin. apply Hnum. by rewrite Hp.
Qed.
End project_lists.

Section hierarchy.
Context (allProjects : list Project).
Implicit Types (st : ProjectService.HierarchyState) (p q : Project).

Lemma findParent_Some p q :
  ProjectService.findParent allProjects p = Some q →
  q ∈ allProjects ∧ Project.parentId p = Some (Project.id q).
Proof.
  unfold ProjectService.findParent. destruct (Project.parentId p) as [pid|]; simpl; [|done].
  case_bool_decide; [|done]. intros [Hin Heq]%List.find_some.
  apply list_elem_of_In in Hin. apply bool_decide_eq_true in Heq. by rewrite Heq.
Qed.

Lemma findParent_elem_of p q :
  ProjectService.findParent allProjects p = Some q → q ∈ allProjects.
Proof. by intros [? _]%findParent_Some. Qed.

Lemma comes_before_app {A} (h ext : list A) (q p : A) :
  comes_before h q p → comes_before (h ++ ext) q p.
Proof.
  intros (l1 & l2 & -> & Hq). exists l1, (l2 ++ ext). split; [|done].
  by rewrite <- app_assoc.
Qed.

Section acyclic.
Hypothesis Hids : NoDup (Project.id <$> allProjects).

Lemma project_id_inj p q :
  p ∈ allProjects → q ∈ allProjects → Project.id p = Project.id q → p = q.
Proof.
  intros Hp Hq Heq.
  apply list_elem_of_lookup in Hp as [i Hi], Hq as [j Hj].
  assert (i = j) as ->; [|congruence].
  eapply NoDup_lookup; [exact Hids| |]; rewrite list_lookup_fmap.
  - by rewrite Hi.
  - rewrite Hj. simpl. by rewrite Heq.
Qed.

Lemma HierarchyInv_visited st q :
  HierarchyInv allProjects st → q ∈ allProjects → Project.id q ∈ st.2 → q ∈ st.1.
Proof.
  intros Hinv Hq Hin. apply (hinv_visited _ _ Hinv) in Hin.
  apply list_elem_of_fmap in Hin as (x & Hid & Hx).
  by rewrite (project_id_inj q x Hq (hinv_sub _ _ Hinv _ Hx) Hid).
Qed.

Lemma HierarchyInv_push st p :
  HierarchyInv allProjects st → p ∈ allProjects → Project.id p ∉ st.2 →
  (∀ q, ProjectService.findParent allProjects p = Some q → q ∈ st.1) →
  HierarchyInv allProjects (st.1 ++ [p], JsSet.add st.2 (Project.id p)).
Proof.
  intros Hinv Hp Hfresh Hparent. split; simpl.
  - intros id. rewrite JsSet_elem_of_add, fmap_app, elem_of_app, (hinv_visited _ _ Hinv).
    simpl. rewrite list_elem_of_singleton. done.
  - rewrite fmap_app. apply NoDup_app. split_and!; [apply Hinv| |apply NoDup_singleton].
    intros id Hid ->%list_elem_of_singleton. by apply Hfresh, (hinv_visited _ _ Hinv).
  - intros x [Hx| ->%list_elem_of_singleton]%elem_of_app; [by apply Hinv|done].
  - intros x q [Hx| ->%list_elem_of_singleton]%elem_of_app Hq.
    + by apply comes_before_app, (hinv_order _ _ Hinv).
    + exists st.1, []. split; [done|]. by apply Hparent.
Qed.

Context (level : Project → nat).
Hypothesis Hlevel : ∀ p q, p ∈ allProjects →
  ProjectService.findParent allProjects p = Some q → (level q < level p)%nat.

Lemma addProject_acyclic depth st p :
  HierarchyInv allProjects st → p ∈ allProjects → (level p < depth)%nat →
  ∃ st' ext, ProjectService.addProject depth allProjects st p = Returns st'
             ∧ HierarchyInv allProjects st' ∧ st'.1 = st.1 ++ ext
             ∧ Forall (λ x, (level x ≤ level p)%nat) ext
             ∧ Project.id p ∈ st'.2.
Proof.
  revert st p. induction depth as [|depth IH]; intros st p Hinv Hp Hdepth; [lia|].
  simpl. destruct (JsSet.has st.2 (Project.id p)) eqn:Hvisited.
  { exists st, []. rewrite app_nil_r. split_and!; try done. by apply JsSet_has_true. }
  assert (Project.id p ∉ st.2) as Hfresh.
  { intros Hin%JsSet_has_true. congruence. }
  destruct (ProjectService.findParent allProjects p) as [q|] eqn:Hq.
  - destruct (findParent_Some p q Hq) as [Hqin _].
    pose proof (Hlevel p q Hp Hq) as Hlt.
    destruct (IH st q Hinv Hqin ltac:(lia)) as (st1 & ext1 & -> & Hinv1 & Hext & Hle & Hqv).
    simpl. exists (st1.1 ++ [p], JsSet.add st1.2 (Project.id p)), (ext1 ++ [p]).
    assert (Project.id p ∉ st1.2) as Hfresh1.
    { intros Hin. apply (HierarchyInv_visited st1 p Hinv1 Hp) in Hin.
      rewrite Hext in Hin. apply elem_of_app in Hin as [Hin|Hin].
      - apply Hfresh, (hinv_visited _ _ Hinv), list_elem_of_fmap. eauto.
      - rewrite Forall_forall in Hle. specialize (Hle p Hin). lia. }
    split_and!; [done| | | |].
    + apply HierarchyInv_push; [done..|].
      intros q' Hq'. rewrite Hq in Hq'. injection Hq' as <-.
      by apply HierarchyInv_visited.
    + simpl. by rewrite Hext, <- app_assoc.
    + apply Forall_app. split; [|by repeat constructor].
      eapply Forall_impl; [exact Hle|]. simpl. intros; lia.
    + simpl. apply JsSet_elem_of_add. by right.
  - simpl. exists (st.1 ++ [p], JsSet.add st.2 (Project.id p)), [p].
    split_and!; [done| |done|by repeat constructor|].
    + apply HierarchyInv_push; [done..|]. intros q' Hq'. congruence.
    + simpl. apply JsSet_elem_of_add. by right.
Qed.

Lemma hierarchy_loop_acyclic depth (l : list Project) st :
  HierarchyInv allProjects st →
  (∀ p, p ∈ l → p ∈ allProjects ∧ (level p < depth)%nat) →
  ∃ st', foldl (λ acc project,
                  obind acc (λ st, ProjectService.addProject depth allProjects st project))
               (Returns st) l = Returns st'
         ∧ HierarchyInv allProjects st'
         ∧ (∀ id, id ∈ st.2 → id ∈ st'.2)
         ∧ (∀ p, p ∈ l → Project.id p ∈ st'.2).
Proof.
  revert st. induction l as [|p l IH]; intros st Hinv Hl.
  - exists st. split_and!; try done. by intros p ?%elem_of_nil.
  - destruct (Hl p) as [Hp Hdepth]; [apply list_elem_of_here|].
    destruct (addProject_acyclic depth st p Hinv Hp Hdepth)
      as (st1 & ext & Hcall & Hinv1 & Hext & _ & Hpv).
    destruct (IH st1 Hinv1) as (st' & Hloop & Hinv' & Hmono & Hall).
    { intros x Hx. apply Hl. by apply list_elem_of_further. }
    exists st'. simpl. rewrite Hcall. simpl. split_and!; [done..| |].
    + intros id Hid. apply Hmono, (hinv_visited _ _ Hinv1).
      rewrite Hext, fmap_app, elem_of_app. left. by apply (hinv_visited _ _ Hinv).
    + intros x [->|Hx]%elem_of_cons; [by apply Hmono|by apply Hall].
Qed.
End acyclic.

Section cyclic.
Context (C : ID → Prop).
Hypothesis Hclosed : ∀ p, p ∈ allProjects → C (Project.id p) →
  ∃ q, ProjectService.findParent allProjects p = Some q ∧ C (Project.id q).

Lemma addProject_cycle depth st p :
  p ∈ allProjects → C (Project.id p) → (∀ id, C id → id ∉ st.2) →
  ProjectService.addProject depth allProjects st p = Throws stackOverflow.
Proof.
  revert p. induction depth as [|depth IH]; intros p Hp HC Hfree; [done|].
  simpl. destruct (JsSet.has st.2 (Project.id p)) eqn:Hvisited.
  { apply JsSet_has_true in Hvisited. by destruct (Hfree _ HC). }
  destruct (Hclosed p Hp HC) as (q & Hq & HCq). rewrite Hq.
  rewrite IH; [done| |done..]. by eapply findParent_elem_of.
Qed.

Lemma addProject_cycle_free depth st p st' :
  p ∈ allProjects → (∀ id, C id → id ∉ st.2) →
  ProjectService.addProject depth allProjects st p = Returns st' →
  ∀ id, C id → id ∉ st'.2.
Proof.
  revert st p st'. induction depth as [|depth IH]; intros st p st' Hp Hfree Hcall; [done|].
  assert (¬ C (Project.id p)) as HnC.
  { intros HC. by rewrite (addProject_cycle (S depth) st p Hp HC Hfree) in Hcall. }
  simpl in Hcall. destruct (JsSet.has st.2 (Project.id p)); [by injection Hcall as <-|].
  assert (∀ st1, (∀ id, C id → id ∉ st1.2) →
                 ∀ id, C id → id ∉ JsSet.add st1.2 (Project.id p)) as Hpush.
  { intros st1 Hfree1 id HC [Hin| ->]%JsSet_elem_of_add; [by apply (Hfree1 id)|done]. }
  destruct (ProjectService.findParent allProjects p) as [q|] eqn:Hq.
  - destruct (ProjectService.addProject depth allProjects st q) as [st1|] eqn:Hq1; [|done].
    simpl in Hcall. injection Hcall as <-. simpl. apply Hpush.
    eapply IH; [|done..]. by eapply findParent_elem_of.
  - simpl in Hcall. injection Hcall as <-. simpl. by apply Hpush.
Qed.

Lemma hierarchy_loop_throws depth (l : list Project) (msg : string) :
  foldl (λ acc project,
           obind acc (λ st, ProjectService.addProject depth allProjects st project))
        (Throws msg) l = Throws msg.
Proof. induction l as [|p l IH]; [done|]. simpl. apply IH. Qed.

Lemma hierarchy_loop_cycle depth (l : list Project) st :
  (∀ p, p ∈ l → p ∈ allProjects) → (∃ p, p ∈ l ∧ C (Project.id p)) →
  (∀ id, C id → id ∉ st.2) →
  foldl (λ acc project,
           obind acc (λ st, ProjectService.addProject depth allProjects st project))
        (Returns st) l = Throws stackOverflow.
Proof.
  revert st. induction l as [|p l IH]; intros st Hl (x & Hx & HC) Hfree.
  { by apply elem_of_nil in Hx. }
  simpl.
  destruct (ProjectService.addProject depth allProjects st p) as [st1|msg] eqn:Hcall; simpl.
  - apply IH.
    + intros y Hy. apply Hl. by apply list_elem_of_further.
    + apply elem_of_cons in Hx as [->|Hx]; [|by eauto].
      rewrite (addProject_cycle depth st p) in Hcall; [done| |done..].
      apply Hl, list_elem_of_here.
    + eapply addProject_cycle_free; [|done..]. apply Hl, list_elem_of_here.
  - rewrite hierarchy_loop_throws. f_equal.
    clear -Hcall. revert st p Hcall. induction depth as [|depth IH]; intros st p.
    + by intros [= <-].
    + simpl. destruct (JsSet.has _ _); [done|].
      destruct (ProjectService.findParent allProjects p) as [q|]; [|done].
      destruct (ProjectService.addProject depth allProjects st q) as [?|msg'] eqn:Hq; [done|].
      simpl. intros [= <-]. by eapply IH.
Qed.
End cyclic.
End hierarchy.

Section hierarchy_theorems.
Context `{JsRuntime}.

Lemma HierarchyInv_empty allProjects : HierarchyInv allProjects ([], JsSet.empty).
Proof.
  split; simpl; try done.
  - constructor.
  - by intros p ?%elem_of_nil.
  - by intros p q ?%elem_of_nil.
Qed.

Lemma hierarchy_acyclic (allProjects : list Project) (depth : nat) (level : Project → nat) :
  NoDup (Project.id <$> allProjects) →
  (∀ p q, p ∈ allProjects → ProjectService.findParent allProjects p = Some q →
          (level q < level p)%nat) →
  (∀ p, p ∈ allProjects → (level p < depth)%nat) →
  ∃ st, foldl (λ acc project,
                 obind acc (λ st, ProjectService.addProject depth allProjects st project))
              (Returns ([], JsSet.empty)) allProjects = Returns st
        ∧ st.1 ≡ₚ allProjects
        ∧ ∀ p q, p ∈ allProjects → ProjectService.findParent allProjects p = Some q →
                 comes_before st.1 q p.
Proof.
  intros Hids Hlevel Hdepth.
  destruct (hierarchy_loop_acyclic allProjects Hids level Hlevel depth allProjects
              ([], JsSet.empty) (HierarchyInv_empty _)) as (st & Hloop & Hinv & _ & Hall).
  { intros p Hp. split; [done|by apply Hdepth]. }
  assert (∀ p, p ∈ st.1 ↔ p ∈ allProjects) as Hsame.
  { intros p. split; [by apply Hinv|]. intros Hp.
    by apply (HierarchyInv_visited allProjects Hids), Hall. }
  exists st. split_and!; [done| |].
  - apply list.NoDup_Permutation; [|by eapply NoDup_fmap_1|done].
    eapply NoDup_fmap_1, Hinv.
  - intros p q Hp Hq. apply Hinv; [by apply Hsame|done].
Qed.
End hierarchy_theorems.

Section task_service.
Context `{JsRuntime}.
Implicit Types (s : IndexStore.t) (t task : Task) (id : ID).

Lemma validateTaskFields_nil title priority dueAt tags :
  validateTaskFields title priority dueAt tags = [] →
  (∀ ti, title = Some ti → trim ti ≠ "" ∧ (String.length ti ≤ 200)%nat)
  ∧ (∀ p, priority = Some p → 1 <= p <= 5)
  ∧ (∀ d, dueAt = Some d → isValidTimestamp d = true)
  ∧ (∀ ts, tags = Some ts → forallb isValidUuid ts = true).
Proof.
  unfold validateTaskFields.
  intros (H1 & (H2 & (H3 & (H4 & H5)%app_eq_nil)%app_eq_nil)%app_eq_nil)%app_eq_nil.
  split_and!.
  - intros ti ->.
    destruct (bool_decide (ti = "") || bool_decide (String.length (trim ti) = 0%nat)) eqn:E1;
      [done|].
    destruct (bool_decide (ti ≠ "") && bool_decide (200 < String.length ti)%nat) eqn:E2;
      [done|].
    apply orb_false_iff in E1 as [Ha Hb]. apply bool_decide_eq_false in Ha, Hb.
    apply andb_false_iff in E2 as [Hc|Hc]; apply bool_decide_eq_false in Hc; [done|].
    split; [|lia]. intros Htrim. by rewrite Htrim in Hb.
  - intros p ->. case_bool_decide as Hp; [|done].
    repeat (apply elem_of_cons in Hp as [->|Hp]; [lia|]). by apply elem_of_nil in Hp.
  - intros d ->. by destruct (isValidTimestamp d).
  - intros ts ->. by destruct (forallb isValidUuid ts).
Qed.

Lemma no_errors {A} (errors : list A) : bool_decide (0 < length errors)%nat = false → errors = [].
Proof. intros Hlen%bool_decide_eq_false. destruct errors; [done|simpl in Hlen; lia]. Qed.

(** What a successful [update] returns and leaves. *)
Lemma update_success s input now t s' :
  TaskService.update s input now = (success t, s') →
  ∃ existing, IndexStore.getTask s (UpdateTaskInput.id input) = Some existing
              ∧ validateUpdateTaskInput input = []
              ∧ t = updateTask existing input now
              ∧ s' = IndexStore.updateTask s t now.
Proof.
  unfold TaskService.update.
  destruct (IndexStore.getTask s (UpdateTaskInput.id input)) as [existing|]; [|done].
  case_bool_decide as Herr; [done|]. intros [= <- <-]. exists existing.
  split_and!; try done. apply no_errors. by apply bool_decide_eq_false.
Qed.

Lemma update_valid_input s input now existing :
  IndexStore.getTask s (UpdateTaskInput.id input) = Some existing →
  validateUpdateTaskInput input = [] →
  TaskService.update s input now
  = (success (updateTask existing input now),
     IndexStore.updateTask s (updateTask existing input now) now).
Proof. intros Hget Hval. unfold TaskService.update. by rewrite Hget, Hval. Qed.

Lemma update_failure s input now msg s' :
  TaskService.update s input now = (failure msg, s') → s' = s.
Proof.
  unfold TaskService.update.
  destruct (IndexStore.getTask s (UpdateTaskInput.id input)); [|by intros [= _ <-]].
  case_bool_decide; [by intros [= _ <-]|done].
Qed.

Lemma update_Consistent s input now :
  IndexConsistent s → IndexConsistent (TaskService.update s input now).2.
Proof.
  intros Hcons. unfold TaskService.update.
  destruct (IndexStore.getTask s (UpdateTaskInput.id input)); [|done].
  case_bool_decide; [done|]. simpl.
  split; [apply Complete_updateTask, Hcons|by apply Sound_updateTask].
Qed.

Lemma updateTask_valid existing input now :
  ValidTask existing → validateUpdateTaskInput input = [] →
  ValidTask (updateTask existing input now).
Proof.
  intros (Ht & Hl & Hp & Hd & Htags) (Vt & Vp & Vd & Vtags)%validateTaskFields_nil.
  unfold ValidTask. simpl.
  destruct (UpdateTaskInput.title input) as [ti|]; simpl;
    [destruct (Vt ti eq_refl)|];
  (destruct (UpdateTaskInput.priority input) as [p|]; simpl; [specialize (Vp p eq_refl)|]);
  (destruct (UpdateTaskInput.dueAt input) as [d|]; simpl; [specialize (Vd d eq_refl)|]);
  (destruct (UpdateTaskInput.tags input) as [ts|]; simpl; [specialize (Vtags ts eq_refl)|]);
  split_and!; try done; try lia; by intros ? [= <-].
Qed.

Lemma update_AllValid s input now : AllValid s → AllValid (TaskService.update s input now).2.
Proof.
  intros Hvalid. unfold TaskService.update.
  destruct (IndexStore.getTask s (UpdateTaskInput.id input)) as [existing|] eqn:Hget; [|done].
  case_bool_decide as Herr; [done|]. simpl.
  intros id t. rewrite getTask_updateTask. unfold with_task. case_decide; [|by apply Hvalid].
  intros [= <-]. apply updateTask_valid; [by eapply Hvalid|].
  destruct (validateUpdateTaskInput input); [done|simpl in Herr; lia].
Qed.

Lemma validate_inputStatus id st : validateUpdateTaskInput (TaskService.inputStatus id st) = [].
Proof. done. Qed.

Lemma validate_inputProjectId id p :
  validateUpdateTaskInput (TaskService.inputProjectId id p) = [].
Proof. done. Qed.

Lemma validate_inputDueAt_None id : validateUpdateTaskInput (TaskService.inputDueAt id None) = [].
Proof. done. Qed.

Lemma validate_inputPriority id p :
  1 <= p <= 5 → validateUpdateTaskInput (TaskService.inputPriority id p) = [].
Proof.
  intros Hp. unfold validateUpdateTaskInput, validateTaskFields. simpl.
  rewrite bool_decide_eq_true_2; [done|].
  assert (p = 1 ∨ p = 2 ∨ p = 3 ∨ p = 4 ∨ p = 5) as Hcases by lia.
  rewrite !elem_of_cons. tauto.
Qed.

Lemma validate_inputTags id ts :
  validateUpdateTaskInput (TaskService.inputTags id ts)
  = if forallb isValidUuid ts then []
    else [ValidationError.mk "tags" "All tags must be valid UUIDs"].
Proof. done. Qed.

(** The loop of [archiveCompleted] keeps what every [update] keeps. *)
Lemma archive_loop_invariant (P : IndexStore.t → Prop) now :
  (∀ s input, P s → P (TaskService.update s input now).2) →
  ∀ (l : list Task) n s, P s → P (foldl (TaskService.archiveStep now) (n, s) l).2.
Proof.
  intros Hupd l. induction l as [|t l IH]; intros n s Hs; [done|].
  simpl.
  pose proof (Hupd s (TaskService.inputStatus (Task.id t) archived) Hs) as Hs1.
  destruct (TaskService.update s _ now) as [[t'|msg] s1]; by apply IH.
Qed.

(** Every method of the service that changes a task goes through [update]:
    what [update] keeps, they keep. *)
Lemma TaskService_methods_invariant (P : IndexStore.t → Prop) now :
  (∀ s input, P s → P (TaskService.update s input now).2) →
  ∀ s, P s →
  (∀ id, P (TaskService.toggleComplete s id now).2)
  ∧ (∀ id projectId, P (TaskService.moveToProject s id projectId now).2)
  ∧ (∀ id tagId, P (TaskService.addTag s id tagId now).2)
  ∧ (∀ id tagId, P (TaskService.removeTag s id tagId now).2)
  ∧ (∀ id priority, P (TaskService.setPriority s id priority now).2)
  ∧ (∀ id dueAt, P (TaskService.setDueDate s id dueAt now).2)
  ∧ P (TaskService.archiveCompleted s now).2.
Proof.
  intros Hupd s Hs. split_and!.
  - intros id. unfold TaskService.toggleComplete.
    destruct (IndexStore.getTask s id); [by apply Hupd|done].
  - intros id projectId. by apply Hupd.
  - intros id tagId. unfold TaskService.addTag.
    destruct (IndexStore.getTask s id); [|done]. case_bool_decide; [done|by apply Hupd].
  - intros id tagId. unfold TaskService.removeTag.
    destruct (IndexStore.getTask s id); [by apply Hupd|done].
  - intros id priority. unfold TaskService.setPriority.
    destruct (_ || _); [done|by apply Hupd].
  - intros id dueAt. by apply Hupd.
  - unfold TaskService.archiveCompleted.
    pose proof (archive_loop_invariant P now Hupd (TaskService.byStatus s done) 0 s Hs) as Hloop.
    by destruct (foldl _ _ _).
Qed.
End task_service.

Section task_service_theorems.
Context `{JsRuntime}.
Implicit Types (s : IndexStore.t) (t task : Task) (id : ID).

Lemma create_success s input id now t s' :
  TaskService.create s input id now = (success t, s') →
  validateCreateTaskInput input = [] ∧ t = createTask input id now
  ∧ s' = IndexStore.addTask s t now.
Proof.
  unfold TaskService.create. case_bool_decide as Herr; [done|]. intros [= <- <-].
  split_and!; try done. apply no_errors. by apply bool_decide_eq_false.
Qed.

Lemma createTask_valid input id now :
  validateCreateTaskInput input = [] → ValidTask (createTask input id now).
Proof.
  intros (Vt & Vp & Vd & Vtags)%validateTaskFields_nil.
  destruct (Vt _ eq_refl) as [Htrim Hlen]. unfold ValidTask. simpl.
  refine (conj Htrim (conj Hlen (conj _ (conj Vd _)))).
  - destruct (CreateTaskInput.priority input) as [p|]; simpl; [by apply Vp|lia].
  - destruct (CreateTaskInput.tags input) as [ts|]; simpl; [by apply Vtags|reflexivity].
Qed.

(** X12.  Every method of [TaskService] keeps an index-consistent store
    index consistent; [create] does when the id it draws is not in the store. *)
Theorem TaskService_keeps_consistent s now (Hcons : IndexConsistent s) :
  (∀ input id, IndexStore.getTask s id = None →
     IndexConsistent (TaskService.create s input id now).2)
  ∧ (∀ input, IndexConsistent (TaskService.update s input now).2)
  ∧ (∀ id, IndexConsistent (TaskService.remove s id).2)
  ∧ (∀ id, IndexConsistent (TaskService.toggleComplete s id now).2)
  ∧ (∀ id projectId, IndexConsistent (TaskService.moveToProject s id projectId now).2)
  ∧ (∀ id tagId, IndexConsistent (TaskService.addTag s id tagId now).2)
  ∧ (∀ id tagId, IndexConsistent (TaskService.removeTag s id tagId now).2)
  ∧ (∀ id priority, IndexConsistent (TaskService.setPriority s id priority now).2)
  ∧ (∀ id dueAt, IndexConsistent (TaskService.setDueDate s id dueAt now).2)
  ∧ IndexConsistent (TaskService.archiveCompleted s now).2.
Proof.
  assert (∀ s' input, IndexConsistent s' → IndexConsistent (TaskService.update s' input now).2)
    as Hupd by (intros; by apply update_Consistent).
  destruct (TaskService_methods_invariant IndexConsistent now Hupd s Hcons)
    as (H1 & H2 & H3 & H4 & H5 & H6 & H7).
  refine (conj _ (conj (λ input, Hupd s input Hcons) (conj _
            (conj H1 (conj H2 (conj H3 (conj H4 (conj H5 (conj H6 H7))))))))).
  - intros input id Hfresh. unfold TaskService.create. case_bool_decide; [done|]. simpl.
    destruct Hcons as [Hc Hs]. split; [by apply Complete_addTask|by apply Sound_addTask].
  - intros id. unfold TaskService.remove. destruct (IndexStore.getTask s id); [|done].
    simpl. by apply removeTask_purged.
Qed.

(** X13.  When every stored task passes the checks of [validateTaskInput]
    (a title that is not blank and of at most 200 characters, a priority
    within 1 to 5, a due date that is a valid ISO timestamp, tags that are
    UUIDs), so does every stored task after any method of [TaskService]. *)
Theorem TaskService_keeps_valid s now (Hvalid : AllValid s) :
  (∀ input id, AllValid (TaskService.create s input id now).2)
  ∧ (∀ input, AllValid (TaskService.update s input now).2)
  ∧ (∀ id, AllValid (TaskService.remove s id).2)
  ∧ (∀ id, AllValid (TaskService.toggleComplete s id now).2)
  ∧ (∀ id projectId, AllValid (TaskService.moveToProject s id projectId now).2)
  ∧ (∀ id tagId, AllValid (TaskService.addTag s id tagId now).2)
  ∧ (∀ id tagId, AllValid (TaskService.removeTag s id tagId now).2)
  ∧ (∀ id priority, AllValid (TaskService.setPriority s id priority now).2)
  ∧ (∀ id dueAt, AllValid (TaskService.setDueDate s id dueAt now).2)
  ∧ AllValid (TaskService.archiveCompleted s now).2.
Proof.
  assert (∀ s' input, AllValid s' → AllValid (TaskService.update s' input now).2)
    as Hupd by (intros; by apply update_AllValid).
  destruct (TaskService_methods_invariant AllValid now Hupd s Hvalid)
    as (H1 & H2 & H3 & H4 & H5 & H6 & H7).
  refine (conj _ (conj (λ input, Hupd s input Hvalid) (conj _
            (conj H1 (conj H2 (conj H3 (conj H4 (conj H5 (conj H6 H7))))))))).
  - intros input id. unfold TaskService.create. case_bool_decide as Herr; [done|]. simpl.
    intros id' t'. rewrite getTask_addTask. unfold with_task. case_decide; [|by apply Hvalid].
    intros [= <-]. apply createTask_valid, no_errors. by apply bool_decide_eq_false.
  - intros id. unfold TaskService.remove. destruct (IndexStore.getTask s id); [|done].
    simpl. intros id' t'. rewrite getTask_removeTask. unfold without.
    case_decide; [done|by apply Hvalid].
Qed.

(** X14.  A method of [TaskService] that returns a failure leaves the store
    as it was, and [archiveCompleted] never returns a failure. *)
Theorem TaskService_failure_leaves_store s now msg :
  (∀ input id, (TaskService.create s input id now).1 = failure msg →
               (TaskService.create s input id now).2 = s)
  ∧ (∀ input, (TaskService.update s input now).1 = failure msg →
              (TaskService.update s input now).2 = s)
  ∧ (∀ id, (TaskService.remove s id).1 = failure msg → (TaskService.remove s id).2 = s)
  ∧ (∀ id, (TaskService.toggleComplete s id now).1 = failure msg →
           (TaskService.toggleComplete s id now).2 = s)
  ∧ (∀ id projectId, (TaskService.moveToProject s id projectId now).1 = failure msg →
                     (TaskService.moveToProject s id projectId now).2 = s)
  ∧ (∀ id tagId, (TaskService.addTag s id tagId now).1 = failure msg →
                 (TaskService.addTag s id tagId now).2 = s)
  ∧ (∀ id tagId, (TaskService.removeTag s id tagId now).1 = failure msg →
                 (TaskService.removeTag s id tagId now).2 = s)
  ∧ (∀ id priority, (TaskService.setPriority s id priority now).1 = failure msg →
                    (TaskService.setPriority s id priority now).2 = s)
  ∧ (∀ id dueAt, (TaskService.setDueDate s id dueAt now).1 = failure msg →
                 (TaskService.setDueDate s id dueAt now).2 = s)
  ∧ ∃ n, (TaskService.archiveCompleted s now).1 = success n.
Proof.
  assert (∀ input, (TaskService.update s input now).1 = failure msg →
                   (TaskService.update s input now).2 = s) as Hupd.
  { intros input. destruct (TaskService.update s input now) as [r s'] eqn:E. simpl.
    intros ->. by eapply update_failure. }
  split_and!; try done.
  - intros input id. unfold TaskService.create. by case_bool_decide.
  - intros id. unfold TaskService.remove. by destruct (IndexStore.getTask s id).
  - intros id. unfold TaskService.toggleComplete.
    destruct (IndexStore.getTask s id); [apply Hupd|done].
  - intros id projectId. apply Hupd.
  - intros id tagId. unfold TaskService.addTag.
    destruct (IndexStore.getTask s id); [|done]. case_bool_decide; [done|apply Hupd].
  - intros id tagId. unfold TaskService.removeTag.
    destruct (IndexStore.getTask s id); [apply Hupd|done].
  - intros id priority. unfold TaskService.setPriority.
    destruct (_ || _); [done|apply Hupd].
  - intros id dueAt. apply Hupd.
  - unfold TaskService.archiveCompleted. destruct (foldl _ _ _) as [n s']. by exists n.
Qed.
End task_service_theorems.

Section task_methods.
Context `{JsRuntime}.
Implicit Types (s : IndexStore.t) (t task : Task) (id : ID).

Lemma getTask_after_update s task now id :
  Task.id task = id → IndexStore.getTask (IndexStore.updateTask s task now) id = Some task.
Proof. intros <-. rewrite getTask_updateTask. unfold with_task. by rewrite decide_True. Qed.

(** X15.  [toggleComplete] of a stored task succeeds: a done task becomes
    todo, any other task becomes done, and [completedAt] is present iff the new
    status is done.  Toggling twice returns a done task to done and every other
    task to todo: the status of a doing or archived task is not restored. *)
Theorem toggleComplete_status s id task now
    (Hget : IndexStore.getTask s id = Some task) (Hkey : Task.id task = id) :
  ∃ t1, TaskService.toggleComplete s id now = (success t1, IndexStore.updateTask s t1 now)
        ∧ t1 = updateTask task (TaskService.inputStatus id (toggled (Task.status task))) now
        ∧ Task.status t1 = toggled (Task.status task)
        ∧ (is_Some (Task.completedAt t1) ↔ Task.status t1 = done)
        ∧ ∀ now', ∃ t2,
            TaskService.toggleComplete (IndexStore.updateTask s t1 now) id now'
            = (success t2, IndexStore.updateTask (IndexStore.updateTask s t1 now) t2 now')
            ∧ Task.status t2 = if bool_decide (Task.status task = done) then done else todo.
Proof.
  eexists. split_and!; [|reflexivity| | |].
  - unfold TaskService.toggleComplete. rewrite Hget.
    by apply update_valid_input.
  - done.
  - simpl. unfold toggled. destruct (Task.status task); simpl; split; try done;
      try (by intros [? ?]); eauto.
  - intros now'. eexists. split.
    + unfold TaskService.toggleComplete. rewrite getTask_after_update by done.
      apply update_valid_input; [|done]. by apply getTask_after_update.
    + simpl. unfold toggled. by destruct (Task.status task).
Qed.

(** X16.  [moveToProject(id, undefined)] and [setDueDate(id, undefined)]
    succeed and leave the project id and the due date as they were: neither
    can clear the field.  [moveToProject(id, p)] sets the project id; in an
    index-consistent store the task is then listed by [byProject(p)] and by no
    other project. *)
Theorem moveToProject_setDueDate s id task now
    (Hget : IndexStore.getTask s id = Some task) :
  (∃ t', TaskService.moveToProject s id None now = (success t', IndexStore.updateTask s t' now)
         ∧ Task.projectId t' = Task.projectId task)
  ∧ (∃ t', TaskService.setDueDate s id None now = (success t', IndexStore.updateTask s t' now)
           ∧ Task.dueAt t' = Task.dueAt task)
  ∧ (∀ p, ∃ t', TaskService.moveToProject s id (Some p) now
                = (success t', IndexStore.updateTask s t' now)
                ∧ Task.projectId t' = Some p
                ∧ (IndexConsistent s → p ≠ "" →
                   ∀ p' t, t ∈ TaskService.byProject (IndexStore.updateTask s t' now) p' →
                           Task.id t = id → p' = p ∧ t = t')
                ∧ (IndexConsistent s → p ≠ "" →
                   t' ∈ TaskService.byProject (IndexStore.updateTask s t' now) p)).
Proof.
  split_and!.
  - eexists. split; [by apply update_valid_input|done].
  - eexists. split; [by apply update_valid_input|done].
  - intros p. eexists. split_and!; [by apply update_valid_input|done| |].
    + intros Hcons Hp p' t Hin Hid.
      pose proof (complete_key _ _ (proj1 Hcons) _ _ Hget) as Hkey.
      assert (IndexConsistent (IndexStore.updateTask s
                (updateTask task (TaskService.inputProjectId id (Some p)) now) now)) as Hcons'.
      { split; [apply Complete_updateTask, Hcons|by apply Sound_updateTask]. }
      apply (getTasksBy_consistent _ t Hcons') in Hin as (Hstored & Hproj & _).
      rewrite Hid, getTask_after_update in Hstored by done.
      injection Hstored as <-. simpl in Hproj. by injection Hproj as <-.
    + intros Hcons Hp.
      pose proof (complete_key _ _ (proj1 Hcons) _ _ Hget) as Hkey.
      assert (IndexConsistent (IndexStore.updateTask s
                (updateTask task (TaskService.inputProjectId id (Some p)) now) now)) as Hcons'.
      { split; [apply Complete_updateTask, Hcons|by apply Sound_updateTask]. }
      apply (getTasksBy_consistent _ _ Hcons'). split_and!; [|done..].
      by apply getTask_after_update.
Qed.

Lemma filter_ne_id (l : list ID) (x : ID) : x ∉ l → filter (λ y, y ≠ x) l = l.
Proof.
  induction l as [|y l IH]; [done|]. intros Hnin%not_elem_of_cons.
  rewrite filter_cons_True by naive_solver. f_equal. apply IH. tauto.
Qed.

(** X18.  [addTag] of a tag that the task carries returns the task and
    leaves the store as it was.  Otherwise the tags are validated: when the
    tags of the task and the new one are all UUIDs the tag is appended, and
    [removeTag] of it then restores the tags; when one of them is not a UUID
    [addTag] fails and leaves the store as it was. *)
Theorem addTag_removeTag s id task tagId now
    (Hget : IndexStore.getTask s id = Some task) (Hkey : Task.id task = id) :
  (tagId ∈ Task.tags task → TaskService.addTag s id tagId now = (success task, s))
  ∧ (tagId ∉ Task.tags task → forallb isValidUuid (Task.tags task ++ [tagId]) = true →
     ∃ t1, TaskService.addTag s id tagId now = (success t1, IndexStore.updateTask s t1 now)
           ∧ Task.tags t1 = Task.tags task ++ [tagId]
           ∧ ∀ now', ∃ t2,
               TaskService.removeTag (IndexStore.updateTask s t1 now) id tagId now'
               = (success t2, IndexStore.updateTask (IndexStore.updateTask s t1 now) t2 now')
               ∧ Task.tags t2 = Task.tags task)
  ∧ (tagId ∉ Task.tags task → forallb isValidUuid (Task.tags task ++ [tagId]) = false →
     TaskService.addTag s id tagId now
     = (failure "Validation failed: All tags must be valid UUIDs", s)).
Proof.
  unfold TaskService.addTag. rewrite Hget. split_and!.
  - intros Hin. by rewrite bool_decide_eq_true_2.
  - intros Hnin Hvalid. rewrite bool_decide_eq_false_2 by done.
    exists (updateTask task (TaskService.inputTags id (Task.tags task ++ [tagId])) now).
    split_and!; [|done|].
    + apply update_valid_input; [done|]. by rewrite validate_inputTags, Hvalid.
    + intros now'. unfold TaskService.removeTag.
      rewrite getTask_after_update by done. simpl.
      assert (filter (λ x : ID, x ≠ tagId) (Task.tags task ++ [tagId]) = Task.tags task) as ->.
      { rewrite filter_app, filter_cons_False, filter_nil, app_nil_r by naive_solver.
        by apply filter_ne_id. }
      eexists. split.
      * apply update_valid_input; [by apply getTask_after_update|].
        rewrite validate_inputTags.
        rewrite forallb_app in Hvalid. apply andb_true_iff in Hvalid as [Hv _].
        unfold ID in *. by rewrite Hv.
      * done.
  - intros Hnin Hvalid. rewrite bool_decide_eq_false_2 by done.
    unfold TaskService.update. simpl. rewrite Hget.
    by rewrite validate_inputTags, Hvalid.
Qed.
End task_methods.

Section archive.
Context `{JsRuntime}.
Implicit Types (s : IndexStore.t) (t task : Task) (id : ID).

Lemma archive_loop now (l : list Task) n s :
  NoDup (Task.id <$> l) →
  (∀ t, t ∈ l → IndexStore.getTask s (Task.id t) = Some t) →
  (foldl (TaskService.archiveStep now) (n, s) l).1 = n + Z.of_nat (length l)
  ∧ ∀ id, IndexStore.getTask (foldl (TaskService.archiveStep now) (n, s) l).2 id
          = if decide (id ∈ Task.id <$> l) then archivedTask now <$> IndexStore.getTask s id
            else IndexStore.getTask s id.
Proof.
  revert n s. induction l as [|t l IH]; intros n s Hnd Hstored.
  - split; [simpl; lia|]. intros id. case_decide as Hin; [|done].
    rewrite fmap_nil in Hin. by apply elem_of_nil in Hin.
  - rewrite fmap_cons in Hnd. apply NoDup_cons in Hnd as [Hnin Hnd].
    assert (IndexStore.getTask s (Task.id t) = Some t) as Hget
      by apply Hstored, list_elem_of_here.
    simpl foldl. unfold TaskService.archiveStep at 2.
    rewrite (update_valid_input s (TaskService.inputStatus (Task.id t) archived) now t Hget
               (validate_inputStatus _ _)).
    fold (archivedTask now t).
    destruct (IH (n + 1) (IndexStore.updateTask s (archivedTask now t) now) Hnd) as [Hcount Hmap].
    { intros t2 Ht2. rewrite getTask_updateTask. unfold with_task.
      rewrite decide_False; [apply Hstored; by apply list_elem_of_further|].
      simpl. intros Heq. apply Hnin. rewrite Heq. apply list_elem_of_fmap. eauto. }
    split; [rewrite Hcount; simpl length; lia|].
    intros id. rewrite Hmap, getTask_updateTask. unfold with_task.
    change (Task.id (archivedTask now t)) with (Task.id t). rewrite fmap_cons.
    destruct (decide (Task.id t = id)) as [<-|Hne].
    + rewrite decide_False by done. rewrite decide_True by apply list_elem_of_here.
      by rewrite Hget.
    + destruct (decide (id ∈ Task.id <$> l)) as [Hin|Hnin'].
      * rewrite decide_True; [done|]. by apply list_elem_of_further.
      * rewrite decide_False; [done|]. rewrite elem_of_cons. naive_solver.
Qed.

Lemma tasks_of_ids s (ids : list ID) :
  (∀ id, id ∈ ids → ∃ t, IndexStore.getTask s id = Some t ∧ Task.id t = id) →
  Task.id <$> IndexStore.tasks_of s ids = ids.
Proof.
  unfold IndexStore.tasks_of, IndexStore.getTask.
  induction ids as [|id ids IH]; intros Hall; csimpl; [done|].
  destruct (Hall id) as (t & -> & Hid); [apply list_elem_of_here|].
  csimpl. rewrite Hid, IH; [done|]. intros id' Hin. apply Hall. by apply list_elem_of_further.
Qed.

(** X19.  In an index-consistent store with well-formed status buckets,
    [archiveCompleted] returns the number of done tasks, stores each of them as
    archived with [completedAt] cleared, leaves every other task as it was,
    and leaves no done task and consistent indexes. *)
Theorem archiveCompleted_archives s now
    (Hcons : IndexConsistent s) (Hwf : BucketsWellFormed (IndexStore.tasksByStatus s)) :
  (TaskService.archiveCompleted s now).1
  = success (Z.of_nat (length (TaskService.byStatus s done)))
  ∧ (∀ id, IndexStore.getTask (TaskService.archiveCompleted s now).2 id
           = (λ t, if bool_decide (Task.status t = done) then archivedTask now t else t)
               <$> IndexStore.getTask s id)
  ∧ TaskService.byStatus (TaskService.archiveCompleted s now).2 done = []
  ∧ IndexConsistent (TaskService.archiveCompleted s now).2.
Proof.
  assert (IndexConsistent (TaskService.archiveCompleted s now).2) as Hcons'.
  { unfold TaskService.archiveCompleted.
    pose proof (archive_loop_invariant IndexConsistent now
                  (λ s' input Hs', update_Consistent s' input now Hs')
                  (TaskService.byStatus s done) 0 s Hcons) as Hloop.
    by destruct (foldl _ _ _). }
  assert (∀ t, t ∈ TaskService.byStatus s done
               ↔ IndexStore.getTask s (Task.id t) = Some t ∧ Task.status t = done) as Hdone.
  { intros t. apply (getTasksBy_consistent s t Hcons). }
  assert (∀ id, id ∈ Task.id <$> TaskService.byStatus s done
                ↔ ∃ t, IndexStore.getTask s id = Some t ∧ Task.status t = done) as Hids.
  { intros id. rewrite list_elem_of_fmap. split.
    - intros (t & -> & [Hget Hst]%Hdone). eauto.
    - intros (t & Hget & Hst). exists t.
      pose proof (complete_key _ _ (proj1 Hcons) _ _ Hget) as Hkey.
      split; [done|]. apply Hdone. by rewrite Hkey. }
  assert (NoDup (Task.id <$> TaskService.byStatus s done)) as Hnd.
  { unfold TaskService.byStatus, IndexStore.getTasksByStatus.
    destruct (JsMap.get (IndexStore.tasksByStatus s) done) as [ids|] eqn:Hb; [|constructor].
    rewrite tasks_of_ids; [by destruct (proj2 Hwf _ _ Hb)|].
    intros id Hin.
    destruct (sound_status _ _ (proj2 Hcons) id done) as (t & Hget & _); [by exists ids|].
    exists t. split; [done|]. by apply (complete_key _ _ (proj1 Hcons)). }
  destruct (archive_loop now (TaskService.byStatus s done) 0 s Hnd) as [Hcount Hmap].
  { intros t Ht. by apply Hdone. }
  assert (∀ id, IndexStore.getTask (TaskService.archiveCompleted s now).2 id
                = (λ t, if bool_decide (Task.status t = done) then archivedTask now t else t)
                    <$> IndexStore.getTask s id) as Hget'.
  { intros id. unfold TaskService.archiveCompleted.
    specialize (Hmap id). destruct (foldl _ _ _) as [n s']. simpl in *. rewrite Hmap.
    destruct (IndexStore.getTask s id) as [t|] eqn:Hget; simpl.
    - case_bool_decide as Hst.
      + rewrite decide_True; [done|]. apply Hids. eauto.
      + rewrite decide_False; [done|]. intros (t' & Hget2 & Hst2)%Hids. congruence.
    - by case_decide. }
  split_and!; [|done| |done].
  - unfold TaskService.archiveCompleted. destruct (foldl _ _ _) as [n s']. simpl in *.
    f_equal. lia.
  - destruct (TaskService.byStatus (TaskService.archiveCompleted s now).2 done)
      as [|t l] eqn:E; [done|]. exfalso.
    assert (t ∈ TaskService.byStatus (TaskService.archiveCompleted s now).2 done) as Hin
      by (rewrite E; apply list_elem_of_here).
    apply (getTasksBy_consistent _ t Hcons') in Hin as [Hstored Hst].
    rewrite Hget' in Hstored.
    destruct (IndexStore.getTask s (Task.id t)) as [t0|]; [|done]. simpl in Hstored.
    injection Hstored as <-.
    destruct (bool_decide (Task.status t0 = done)) eqn:Hd; [by simpl in Hst|].
    by apply bool_decide_eq_false in Hd.
Qed.
End archive.

Section keyed_values.
Context {V : Type} (key : V → ID).
Implicit Types (m : list (ID * V)) (k : ID) (v : V).

Lemma JsMap_values_set_fresh m k v :
  JsMap.get m k = None → JsMap.values (JsMap.set m k v) = JsMap.values m ++ [v].
Proof.
  unfold JsMap.values. induction m as [|[k' v'] m IH]; csimpl; [done|].
  case_decide; [done|]. intros Hget. csimpl. by rewrite IH.
Qed.

Lemma Keyed_cons_inv k v m :
  Keyed key ((k, v) :: m) → key v = k ∧ (k ∉ JsMap.keys m) ∧ Keyed key m.
Proof.
  intros [[Hk Hnd]%NoDup_cons Hkey]. split_and!; [|done|].
  - apply Hkey. simpl. by rewrite decide_True.
  - split; [done|]. intros k' v' Hget. apply Hkey. simpl.
    rewrite decide_False; [done|]. intros ->. apply Hk, JsMap_elem_of_keys. eauto.
Qed.

Lemma Keyed_values_key m v : Keyed key m → v ∈ JsMap.values m → key v ∈ JsMap.keys m.
Proof.
  intros Hm Hv. rewrite <- (Keyed_values_keys key m Hm). apply list_elem_of_fmap. eauto.
Qed.

(** [set] on a key that the map holds replaces the value in place. *)
Lemma JsMap_values_set_keyed m v :
  Keyed key m → is_Some (JsMap.get m (key v)) →
  JsMap.values (JsMap.set m (key v) v)
  = (λ x, if decide (key x = key v) then v else x) <$> JsMap.values m.
Proof.
  unfold JsMap.values. induction m as [|[k0 v0] m IH]; intros Hm Hsome.
  { by destruct Hsome. }
  apply Keyed_cons_inv in Hm as (Hk0 & Hnin & Hm).
  simpl in *. destruct (decide (k0 = key v)) as [Heq|Hne]; csimpl.
  - rewrite decide_True by congruence. f_equal.
    rewrite <- (list_fmap_id (m.*2)) at 1. apply list_fmap_ext.
    intros i x Hx. simpl. rewrite decide_False; [done|].
    intros Hkx. apply Hnin. rewrite Heq, <- Hkx.
    apply (Keyed_values_key m x Hm). by eapply list_elem_of_lookup_2.
  - rewrite decide_False by congruence. f_equal. by apply IH.
Qed.

Lemma JsMap_values_delete_keyed m k :
  Keyed key m → JsMap.values (JsMap.delete m k) = filter (λ v, key v ≠ k) (JsMap.values m).
Proof.
  unfold JsMap.values, JsMap.delete. induction m as [|[k0 v0] m IH]; intros Hm; [done|].
  apply Keyed_cons_inv in Hm as (Hk0 & Hnin & Hm).
  rewrite filter_cons. csimpl. rewrite filter_cons, Hk0.
  destruct (decide (k0 ≠ k)); csimpl; by rewrite IH.
Qed.
End keyed_values.

Section order.
Context `{JsRuntime}.
Implicit Types (s : IndexStore.t) (t task : Task) (id : ID).

Lemma tasks_addTask s task now :
  IndexStore.tasks (IndexStore.addTask s task now)
  = JsMap.set (IndexStore.tasks s) (Task.id task) task.
Proof. done. Qed.

Lemma tasks_updateTask s task now :
  IndexStore.tasks (IndexStore.updateTask s task now)
  = JsMap.set (IndexStore.tasks s) (Task.id task) task.
Proof. unfold IndexStore.updateTask. by destruct (JsMap.get _ _). Qed.

Lemma tasks_removeTask s id :
  IndexStore.tasks (IndexStore.removeTask s id) = JsMap.delete (IndexStore.tasks s) id.
Proof.
  unfold IndexStore.removeTask. destruct (JsMap.get _ _) eqn:E; [done|].
  unfold JsMap.delete. symmetry. 
  induction (IndexStore.tasks s) as [|[k v] m IH]; [done|].
  simpl in E. case_decide; [done|]. rewrite filter_cons_True by done. f_equal. by apply IH.
Qed.

(** X7.  The order of [getAllTasks]: a task with a new id goes last, by
    [addTask] and by [updateTask]; [updateTask] of a stored id replaces the
    task in place; [removeTask] removes the task and keeps the order of the
    others. *)
Theorem getAllTasks_order s (Hkeyed : Keyed Task.id (IndexStore.tasks s)) :
  (∀ task now, IndexStore.getTask s (Task.id task) = None →
     IndexStore.getAllTasks (IndexStore.addTask s task now) = IndexStore.getAllTasks s ++ [task]
     ∧ IndexStore.getAllTasks (IndexStore.updateTask s task now)
       = IndexStore.getAllTasks s ++ [task])
  ∧ (∀ task now, is_Some (IndexStore.getTask s (Task.id task)) →
     IndexStore.getAllTasks (IndexStore.updateTask s task now)
     = (λ t, if decide (Task.id t = Task.id task) then task else t) <$> IndexStore.getAllTasks s)
  ∧ (∀ id, IndexStore.getAllTasks (IndexStore.removeTask s id)
           = filter (λ t, Task.id t ≠ id) (IndexStore.getAllTasks s)).
Proof.
  unfold IndexStore.getAllTasks, IndexStore.getTask. split_and!.
  - intros task now Hfresh.
    rewrite tasks_addTask, tasks_updateTask. by rewrite JsMap_values_set_fresh.
  - intros task now Hsome. rewrite tasks_updateTask. by apply JsMap_values_set_keyed.
  - intros id. rewrite tasks_removeTask. by apply JsMap_values_delete_keyed.
Qed.
End order.

Section tag_rename.
Context `{JsRuntime}.
Implicit Types (s : IndexStore.t) (tag old : Tag).

(** X20.  [TagService.update] of a stored tag with a valid input stores the
    updated tag under its id and registers it under its new lower-cased name;
    when the name changes up to case, the old name is no longer found,
    whichever tag it denoted; the other names denote what they did, and tasks
    and task indexes are untouched. *)
Theorem TagService_update_rename s input old now
    (Hget : IndexStore.getTag s (UpdateTagInput.id input) = Some old)
    (Hkey : Tag.id old = UpdateTagInput.id input)
    (Hvalid : validateUpdateTagInput input = []) :
  let updated := updateTag old input now in
  let s' := IndexStore.updateTag s updated in
  TagService.update s input now = (success updated, s')
  ∧ TagService.byId s' (UpdateTagInput.id input) = Some updated
  ∧ TagService.byName s' (Tag.name updated) = Some updated
  ∧ (toLowerCase (Tag.name old) ≠ toLowerCase (Tag.name updated) →
     TagService.byName s' (Tag.name old) = None)
  ∧ (∀ name, toLowerCase name ≠ toLowerCase (Tag.name old) →
             toLowerCase name ≠ toLowerCase (Tag.name updated) →
             TagService.byName s' name = TagService.byName s name)
  ∧ same_tasks_and_indexes s s'.
Proof.
  intros updated s'.
  assert (JsMap.get (IndexStore.tags s) (Tag.id updated) = Some old) as Hold.
  { unfold updated. simpl. by rewrite Hkey. }
  split_and!.
  - unfold TagService.update. by rewrite Hget, Hvalid.
  - unfold TagService.byId, IndexStore.getTag, s', IndexStore.updateTag. simpl.
    rewrite <- Hkey. apply JsMap_get_set_eq.
  - unfold TagService.byName, IndexStore.getTagByName, s', IndexStore.updateTag. simpl.
    apply JsMap_get_set_eq.
  - intros Hne.
    unfold TagService.byName, IndexStore.getTagByName, s', IndexStore.updateTag.
    rewrite Hold. simpl. rewrite JsMap_get_set_ne by done.
    by rewrite JsMap_get_delete, decide_True.
  - intros name Hne1 Hne2.
    unfold TagService.byName, IndexStore.getTagByName, s', IndexStore.updateTag.
    rewrite Hold. simpl. rewrite JsMap_get_set_ne by done.
    by rewrite JsMap_get_delete, decide_False.
  - by repeat split.
Qed.

(** X21.  After any sequence of the mutators, [removeTag] leaves tasks, task
    indexes and projects as they were: a task that carries the removed tag id
    is still returned by the search for that tag, and its record has no tag
    object with that id. *)
Theorem removeTag_frame (ops : list Op) (tagId : ID) (now : Z) :
  let s := run ops in
  let s' := IndexStore.removeTag s tagId in
  same_tasks_and_indexes s s'
  ∧ IndexStore.projects s' = IndexStore.projects s
  ∧ IndexStore.getTag s' tagId = None
  ∧ ∀ id t, IndexStore.getTask s id = Some t → tagId ∈ Task.tags t →
      ∃ item, item ∈ IndexStore.searchTasks s' (queryTags [tagId]) now
              ∧ TaskListItem.task item = t
              ∧ ∀ tag, tag ∈ TaskListItem.tagObjects item → Tag.id tag ≠ tagId.
Proof.
  intros s s'.
  assert (same_tasks_and_indexes s s') as Hsame.
  { unfold s', IndexStore.removeTag. destruct (JsMap.get _ _); by repeat split. }
  assert (IndexStore.getTag s' tagId = None) as Hnone.
  { unfold s', IndexStore.removeTag, IndexStore.getTag.
    destruct (JsMap.get (IndexStore.tags s) tagId) eqn:E; [|done].
    simpl. by rewrite JsMap_get_delete, decide_True. }
  split_and!; [done| |done|].
  - unfold s', IndexStore.removeTag. by destruct (JsMap.get _ _).
  - intros id t Ht Htag. exists (IndexStore.hydrate s' now t). split_and!; [|done|].
    + destruct Hsame as (Htasks & _ & Hbytag & _).
      apply elem_of_searchTasks. exists id, t. split_and!; [| |done].
      * apply elem_of_filterTaskIds. unfold in_candidates, IndexStore.getTask. simpl.
        rewrite Htasks, Hbytag. split_and!; try done.
        exists tagId. split; [apply list_elem_of_here|].
        by apply (complete_tag _ _ (run_Complete ops) id t).
      * unfold IndexStore.getTask. by rewrite Htasks.
    + simpl. intros tag (k & Hk & Hget)%list_elem_of_omap.
      assert (StoreWellFormed s') as Hwf.
      { apply (WellFormed_apply s (RemoveTag tagId)), WellFormed_run_from, WellFormed_new. }
      rewrite (proj2 (wf_tags _ Hwf) _ _ Hget). intros ->.
      unfold IndexStore.getTag in Hnone. congruence.
Qed.
End tag_rename.

Section project_hierarchy.
Context `{JsRuntime}.
Implicit Types (s : IndexStore.t) (p q project : Project).

Lemma projects_NoDup_ids s :
  StoreWellFormed s → NoDup (Project.id <$> ProjectService.all s).
Proof. intros Hwf. apply Keyed_NoDup_values, Hwf. Qed.

(** X10.  When the parent links of the stored projects have no cycle
    ([level] decreases from a project to its stored parent) and the call stack
    takes the longest chain, [hierarchy()] returns every stored project once,
    each after its stored parent.  A parent id that names no stored project is
    ignored. *)
Theorem hierarchy_parents_first (ops : list Op) (depth : nat) (level : Project → nat)
    (Hlevel : ∀ p q, p ∈ ProjectService.all (run ops) →
                     ProjectService.findParent (ProjectService.all (run ops)) p = Some q →
                     (level q < level p)%nat)
    (Hdepth : ∀ p, p ∈ ProjectService.all (run ops) → (level p < depth)%nat) :
  ∃ h, ProjectService.hierarchy depth (run ops) = Returns h
       ∧ h ≡ₚ ProjectService.all (run ops)
       ∧ ∀ p q, p ∈ ProjectService.all (run ops) →
                ProjectService.findParent (ProjectService.all (run ops)) p = Some q →
                comes_before h q p.
Proof.
  destruct (hierarchy_acyclic (ProjectService.all (run ops)) depth level)
    as (st & Hloop & Hperm & Hord); [|done..|].
  { apply projects_NoDup_ids, WellFormed_run_from, WellFormed_new. }
  exists st.1. unfold ProjectService.hierarchy. by rewrite Hloop.
Qed.

Lemma hierarchy_cycle s depth (C : ID → Prop) :
  (∀ p, p ∈ ProjectService.all s → C (Project.id p) →
        ∃ q, ProjectService.findParent (ProjectService.all s) p = Some q ∧ C (Project.id q)) →
  (∃ p, p ∈ ProjectService.all s ∧ C (Project.id p)) →
  ProjectService.hierarchy depth s = Throws stackOverflow.
Proof.
  intros Hclosed Hex. unfold ProjectService.hierarchy.
  rewrite (hierarchy_loop_cycle (ProjectService.all s) C Hclosed depth); try done.
  by intros id _ ?%elem_of_nil.
Qed.

(** X11.  Nothing keeps a project from being made its own parent:
    [ProjectService.update] with [parentId] the id of the project succeeds, and
    [hierarchy()] then recurses until the call stack overflows, whatever the
    size of the stack. *)
Theorem hierarchy_self_parent (ops : list Op) (id : ID) (project : Project) (now : Z)
    (Hget : ProjectService.byId (run ops) id = Some project) (Hid : id ≠ "") :
  let input := UpdateProjectInput.mk id None None (Some id) in
  let updated := updateProject project input now in
  ProjectService.update (run ops) input now
  = (success updated, IndexStore.updateProject (run ops) updated)
  ∧ Project.id updated = id ∧ Project.parentId updated = Some id
  ∧ ∀ depth, ProjectService.hierarchy depth (IndexStore.updateProject (run ops) updated)
             = Throws stackOverflow.
Proof.
  intros input updated.
  pose proof (WellFormed_run_from ops _ WellFormed_new) as Hwf. fold (run ops) in Hwf.
  assert (Project.id updated = id) as Hkey.
  { unfold updated. simpl. apply (proj2 (wf_projects _ Hwf) _ _ Hget). }
  split_and!; [|done|done|].
  - unfold ProjectService.update, ProjectService.byId in *. simpl. by rewrite Hget.
  - intros depth.
    pose proof (WellFormed_apply _ (UpdateProject updated) Hwf) as Hwf'. simpl in Hwf'.
    set (s' := IndexStore.updateProject (run ops) updated) in *.
    assert (IndexStore.getProject s' id = Some updated) as Hget'.
    { unfold s', IndexStore.updateProject, IndexStore.getProject.
      cbn [IndexStore.projects IndexStore.set_projects].
      by rewrite JsMap_get_set, decide_True. }
    assert (updated ∈ ProjectService.all s') as Hin.
    { apply (Keyed_elem_of_values Project.id); [apply Hwf'|]. by rewrite Hkey. }
    apply (hierarchy_cycle s' depth (λ id', id' = id)); [|by exists updated].
    intros p Hp Hpid.
    assert (p = updated) as ->.
    { apply (Keyed_elem_of_values Project.id) in Hp; [|apply Hwf'].
      rewrite Hpid in Hp. unfold IndexStore.getProject in Hget'. congruence. }
    unfold ProjectService.findParent. simpl. rewrite bool_decide_eq_true_2 by done.
    destruct (List.find _ _) as [q|] eqn:Hfind.
    + exists q. split; [done|]. apply List.find_some in Hfind as [_ Hq].
      by apply bool_decide_eq_true in Hq.
    + exfalso. apply list_elem_of_In in Hin.
      pose proof (List.find_none _ _ Hfind _ Hin) as Hno. simpl in Hno.
      by rewrite bool_decide_eq_true_2 in Hno.
Qed.
End project_hierarchy.

Section load.
Context {V : Type} (key : V → ID).
Implicit Types (m : list (ID * V)) (l : list V).

Lemma JsMap_values_foldl_set l m :
  NoDup (key <$> l) → (∀ v, v ∈ l → JsMap.get m (key v) = None) →
  JsMap.values (foldl (λ m v, JsMap.set m (key v) v) m l) = JsMap.values m ++ l.
Proof.
  revert m. induction l as [|v l IH]; intros m Hnd Hfresh; simpl.
  - by rewrite app_nil_r.
  - rewrite fmap_cons in Hnd. apply NoDup_cons in Hnd as [Hnin Hnd].
    rewrite IH; [|done|].
    + rewrite JsMap_values_set_fresh by apply Hfresh, list_elem_of_here.
      by rewrite <- app_assoc.
    + intros v' Hv'. rewrite JsMap_get_set_ne; [apply Hfresh; by apply list_elem_of_further|].
      intros Heq. apply Hnin. rewrite Heq. apply list_elem_of_fmap. eauto.
Qed.
End load.

Section data_repository.
Context `{JsRuntime}.
Implicit Types (s : IndexStore.t) (data : DataStore).

Lemma foldl_addTask s now (l : list Task) :
  IndexConsistent s → NoDup (Task.id <$> l) →
  (∀ t, t ∈ l → IndexStore.getTask s (Task.id t) = None) →
  let s' := foldl (λ s task, IndexStore.addTask s task now) s l in
  IndexConsistent s'
  ∧ IndexStore.tasks s' = foldl (λ m t, JsMap.set m (Task.id t) t) (IndexStore.tasks s) l
  ∧ IndexStore.projects s' = IndexStore.projects s
  ∧ IndexStore.tags s' = IndexStore.tags s
  ∧ IndexStore.tagByName s' = IndexStore.tagByName s.
Proof.
  revert s. induction l as [|t l IH]; intros s Hcons Hnd Hfresh; [done|].
  rewrite fmap_cons in Hnd. apply NoDup_cons in Hnd as [Hnin Hnd].
  destruct (IH (IndexStore.addTask s t now)) as (Hc & Ht & Hp & Htg & Hn); [|done| |].
  - destruct Hcons as [Hc Hs]. split; [by apply Complete_addTask|].
    apply Sound_addTask; [done|]. apply Hfresh, list_elem_of_here.
  - intros t' Ht'. rewrite getTask_addTask. unfold with_task.
    rewrite decide_False; [apply Hfresh; by apply list_elem_of_further|].
    intros Heq. apply Hnin. rewrite Heq. apply list_elem_of_fmap. eauto.
  - simpl. by rewrite Ht, Hp, Htg, Hn.
Qed.

Lemma foldl_addProject s (l : list Project) :
  let s' := foldl IndexStore.addProject s l in
  same_tasks_and_indexes s s'
  ∧ IndexStore.projects s' = foldl (λ m p, JsMap.set m (Project.id p) p) (IndexStore.projects s) l
  ∧ IndexStore.tags s' = IndexStore.tags s
  ∧ IndexStore.tagByName s' = IndexStore.tagByName s.
Proof.
  revert s. induction l as [|p l IH]; intros s; [by repeat split|].
  destruct (IH (IndexStore.addProject s p)) as ((? & ? & ? & ? & ? & ?) & ? & ? & ?).
  simpl. by repeat split.
Qed.

Lemma foldl_addTag s (l : list Tag) :
  let s' := foldl IndexStore.addTag s l in
  same_tasks_and_indexes s s'
  ∧ IndexStore.projects s' = IndexStore.projects s
  ∧ IndexStore.tags s' = foldl (λ m t, JsMap.set m (Tag.id t) t) (IndexStore.tags s) l.
Proof.
  revert s. induction l as [|t l IH]; intros s; [by repeat split|].
  destruct (IH (IndexStore.addTag s t)) as ((? & ? & ? & ? & ? & ?) & ? & ?).
  simpl. by repeat split.
Qed.

Lemma setDataStore_spec s0 data now :
  NoDup (Task.id <$> DataStore.tasks data) →
  NoDup (Project.id <$> DataStore.projects data) →
  NoDup (Tag.id <$> DataStore.tags data) →
  IndexStore.getAllTasks (DataRepository.setDataStore s0 data now) = DataStore.tasks data
  ∧ IndexStore.getAllProjects (DataRepository.setDataStore s0 data now)
    = DataStore.projects data
  ∧ IndexStore.getAllTags (DataRepository.setDataStore s0 data now) = DataStore.tags data
  ∧ IndexConsistent (DataRepository.setDataStore s0 data now).
Proof.
  intros Htasks Hprojects Htags. unfold DataRepository.setDataStore, IndexStore.clear.
  destruct (foldl_addTask IndexStore.new now (DataStore.tasks data))
    as (Hcons & Ht1 & Hp1 & Htg1 & _); [|done|done|].
  { split; [apply Complete_new|apply Sound_new]. }
  set (s1 := foldl (λ s task, IndexStore.addTask s task now) IndexStore.new
                   (DataStore.tasks data)) in *.
  destruct (foldl_addProject s1 (DataStore.projects data)) as (Hsame2 & Hp2 & Htg2 & _).
  set (s2 := foldl IndexStore.addProject s1 (DataStore.projects data)) in *.
  destruct (foldl_addTag s2 (DataStore.tags data)) as (Hsame3 & Hp3 & Htg3).
  set (s3 := foldl IndexStore.addTag s2 (DataStore.tags data)) in *.
  unfold IndexStore.getAllTasks, IndexStore.getAllProjects, IndexStore.getAllTags.
  split_and!.
  - rewrite (proj1 Hsame3), (proj1 Hsame2), Ht1.
    by rewrite (JsMap_values_foldl_set Task.id).
  - rewrite Hp3, Hp2, Hp1. by rewrite (JsMap_values_foldl_set Project.id).
  - rewrite Htg3, Htg2, Htg1. by rewrite (JsMap_values_foldl_set Tag.id).
  - destruct Hcons as [Hc Hs].
    split; [eapply same_Complete, same_Complete|eapply same_Sound, same_Sound]; done.
Qed.

(** X22.  [setDataStore] of a snapshot whose tasks, projects and tags have
    pairwise distinct ids replaces whatever the store held: [getDataStore]
    then returns the same tasks, projects and tags in the same order, under
    version 1, and the indexes are consistent. *)
Theorem setDataStore_loads s0 data now
    (Htasks : NoDup (Task.id <$> DataStore.tasks data))
    (Hprojects : NoDup (Project.id <$> DataStore.projects data))
    (Htags : NoDup (Tag.id <$> DataStore.tags data)) :
  (∀ now', DataRepository.getDataStore (DataRepository.setDataStore s0 data now) now'
           = DataStore.mk 1 (DataStore.tasks data) (DataStore.projects data)
                          (DataStore.tags data) (Date_toISOString now'))
  ∧ IndexConsistent (DataRepository.setDataStore s0 data now).
Proof.
  destruct (setDataStore_spec s0 data now Htasks Hprojects Htags) as (Ht & Hp & Htg & Hc).
  split; [|done]. intros now'. unfold DataRepository.getDataStore. by rewrite Ht, Hp, Htg.
Qed.

(** X23.  Save and load: for the store after any sequence of the mutators,
    [setDataStore(getDataStore())] into any store gives a store with the same
    tasks, projects and tags in the same order, and with consistent indexes,
    also when the indexes of the saved store were not. *)
Theorem getDataStore_round_trip (ops : list Op) s0 now1 now2 now3 :
  let data := DataRepository.getDataStore (run ops) now1 in
  let s' := DataRepository.setDataStore s0 data now2 in
  DataRepository.getDataStore s' now3 = DataRepository.getDataStore (run ops) now3
  ∧ IndexConsistent s'.
Proof.
  intros data s'.
  pose proof (WellFormed_run_from ops _ WellFormed_new) as Hwf. fold (run ops) in Hwf.
  destruct (setDataStore_spec s0 data now2) as (Ht & Hp & Htg & Hc).
  - apply Keyed_NoDup_values, Hwf.
  - apply Keyed_NoDup_values, Hwf.
  - apply Keyed_NoDup_values, Hwf.
  - split; [|done]. unfold DataRepository.getDataStore, s'. by rewrite Ht, Hp, Htg.
Qed.
End data_repository.

Section search_more.
Context `{JsRuntime}.
Implicit Types (s : IndexStore.t) (q : SearchQuery) (id : ID) (t : Task).

Lemma days_until_ceil d now :
  ∃ k, IndexStore.days_until (Num d) now = Num k
       ∧ (k - 1) * millisecondsPerDay < d - now <= k * millisecondsPerDay.
Proof.
  unfold IndexStore.days_until, millisecondsPerDay. eexists. split; [reflexivity|].
  change (1000 * 60 * 60 * 24) with 86400000.
  pose proof (Z.div_mod (now - d) 86400000 ltac:(lia)) as Hdiv.
  pose proof (Z.mod_pos_bound (now - d) 86400000 ltac:(lia)) as Hmod.
  lia.
Qed.

(** X24.  [daysUntilDue] of a hydrated record is absent for a task without
    due date, and otherwise the least whole number of days [k] with
    [dueAt <= now + k days]: 0 when the task is due now, negative when the due
    date is a day or more past; it is [NaN] when the due date is not a date. *)
Theorem hydrate_daysUntilDue s now t :
  (Task.dueAt t = None → TaskListItem.daysUntilDue (IndexStore.hydrate s now t) = None)
  ∧ (∀ due d, Task.dueAt t = Some due → Date_getTime due = Num d →
       ∃ k, TaskListItem.daysUntilDue (IndexStore.hydrate s now t) = Some (Num k)
            ∧ (k - 1) * millisecondsPerDay < d - now <= k * millisecondsPerDay)
  ∧ (∀ due, Task.dueAt t = Some due → due ≠ "" → Date_getTime due = NaN →
       TaskListItem.daysUntilDue (IndexStore.hydrate s now t) = Some NaN).
Proof.
  split_and!.
  - intros Hdue. simpl. by rewrite Hdue.
  - intros due d Hdue Hd. simpl. rewrite Hdue.
    assert (due ≠ "") as Hne by (intros ->; rewrite Date_getTime_empty in Hd; done).
    rewrite bool_decide_eq_true_2 by done. rewrite Hd.
    destruct (days_until_ceil d now) as (k & -> & Hk). eauto.
  - intros due Hdue Hne Hd. simpl. rewrite Hdue, bool_decide_eq_true_2 by done.
    by rewrite Hd.
Qed.

Lemma dueAt_before_true cutoff t :
  IndexStore.dueAt_before cutoff t = true →
  ∃ due z zc, Task.dueAt t = Some due ∧ due ≠ "" ∧ Date_getTime due = Num z
              ∧ Date_getTime cutoff = Num zc ∧ z <= zc.
Proof.
  unfold IndexStore.dueAt_before. destruct (Task.dueAt t) as [due|]; [|done].
  rewrite andb_true_iff, bool_decide_eq_true. intros [Hne Hle].
  destruct (Date_getTime due) as [z|] eqn:Hz, (Date_getTime cutoff) as [zc|] eqn:Hzc; try done.
  apply bool_decide_eq_true in Hle. by exists due, z, zc.
Qed.

Lemma elem_of_searchTasks_dueBefore s q now cutoff item :
  SearchQuery.dueBefore q = Some cutoff → cutoff ≠ "" →
  item ∈ IndexStore.searchTasks s q now →
  IndexStore.dueAt_before cutoff (TaskListItem.task item) = true.
Proof.
  intros Hcut Hne (id & t & Hid & Hget & ->)%elem_of_searchTasks.
  apply elem_of_filterTaskIds in Hid as (_ & _ & _ & _ & Hdue & _).
  rewrite Hcut in Hdue. simpl in Hdue. rewrite bool_decide_eq_true_2 in Hdue by done.
  specialize (Hdue I). unfold IndexStore.due_before, IndexStore.getTask in *.
  rewrite Hget in Hdue. by apply Is_true_true.
Qed.

(** X25.  With a [dueBefore] cutoff, every returned task has a due date
    that denotes an instant not after the cutoff; tasks without due date are
    left out, and a cutoff that is not a date gives the empty result, not an
    error. *)
Theorem searchTasks_dueBefore s q now cutoff
    (Hcut : SearchQuery.dueBefore q = Some cutoff) (Hne : cutoff ≠ "") :
  (∀ item, item ∈ IndexStore.searchTasks s q now →
     ∃ due z zc, Task.dueAt (TaskListItem.task item) = Some due
                 ∧ Date_getTime due = Num z ∧ Date_getTime cutoff = Num zc ∧ z <= zc)
  ∧ (Date_getTime cutoff = NaN → IndexStore.searchTasks s q now = []).
Proof.
  split.
  - intros item Hitem.
    destruct (dueAt_before_true cutoff _
                (elem_of_searchTasks_dueBefore s q now cutoff item Hcut Hne Hitem))
      as (due & z & zc & ? & _ & ? & ? & ?). by exists due, z, zc.
  - intros Hnan. destruct (IndexStore.searchTasks s q now) as [|item l] eqn:E; [done|].
    assert (item ∈ IndexStore.searchTasks s q now) as Hitem by (rewrite E; apply list_elem_of_here).
    destruct (dueAt_before_true cutoff _
                (elem_of_searchTasks_dueBefore s q now cutoff item Hcut Hne Hitem))
      as (due & z & zc & _ & _ & _ & Hzc & _). congruence.
Qed.

(** X26.  [searchOverdue()] returns exactly the stored tasks whose due date
    is not after the current instant, whatever their status: a done task with a
    past due date is returned, with [isOverdue] false. *)
Theorem searchOverdue_ignores_status s now (Hiso : Date_toISOString now ≠ "") :
  (∀ item, item ∈ SearchService.searchOverdue s now
           ↔ ∃ id t, IndexStore.getTask s id = Some t
                     ∧ IndexStore.dueAt_before (Date_toISOString now) t = true
                     ∧ item = IndexStore.hydrate s now t)
  ∧ (∀ id t due z, IndexStore.getTask s id = Some t → Task.status t = done →
       Task.dueAt t = Some due → Date_getTime due = Num z →
       Date_getTime (Date_toISOString now) = Num now → z <= now →
       IndexStore.hydrate s now t ∈ SearchService.searchOverdue s now
       ∧ TaskListItem.isOverdue (IndexStore.hydrate s now t) = false).
Proof.
  assert (∀ item, item ∈ SearchService.searchOverdue s now
           ↔ ∃ id t, IndexStore.getTask s id = Some t
                     ∧ IndexStore.dueAt_before (Date_toISOString now) t = true
                     ∧ item = IndexStore.hydrate s now t) as Hiff.
  { intros item. unfold SearchService.searchOverdue, SearchService.search.
    rewrite elem_of_searchTasks. setoid_rewrite elem_of_filterTaskIds.
    unfold in_candidates, IndexStore.due_before, IndexStore.getTask. simpl.
    rewrite bool_decide_eq_true_2 by done. split.
    - intros (id & t & (_ & _ & _ & _ & Hdue & _) & Hget & ->). exists id, t.
      specialize (Hdue I). rewrite Hget in Hdue. split_and!; [done| |done].
      by apply Is_true_true.
    - intros (id & t & Hget & Hdue & ->). exists id, t. rewrite Hget.
      split_and!; try done. intros _. by apply Is_true_true. }
  split; [done|].
  intros id t due z Hget Hst Hdue Hz Hnow Hle. split.
  - apply Hiff. exists id, t. split_and!; [done| |done].
    unfold IndexStore.dueAt_before. rewrite Hdue, Hz, Hnow. simpl.
    assert (due ≠ "") as Hne by (intros ->; rewrite Date_getTime_empty in Hz; done).
    by rewrite !bool_decide_eq_true_2.
  - rewrite hydrate_isOverdue. unfold IndexStore.overdue_at. rewrite Hdue, Hst.
    by rewrite andb_false_r.
Qed.

(** X27.  After any sequence of the mutators, [searchRecentlyUpdated(days)]
    returns records of [search({})], in the same order: those of the tasks
    whose [updatedAt] denotes an instant not before the cutoff, [days] days
    before now. *)
Theorem searchRecentlyUpdated_sublist (ops : list Op) (days now : Z) :
  SearchService.searchRecentlyUpdated (run ops) days now
    `sublist_of` IndexStore.searchTasks (run ops) SearchQuery.empty now
  ∧ ∀ t, IndexStore.hydrate (run ops) now t
           ∈ SearchService.searchRecentlyUpdated (run ops) days now
         ↔ IndexStore.getTask (run ops) (Task.id t) = Some t
           ∧ ∃ z c, Date_getTime (Task.updatedAt t) = Num z
                    ∧ Date_addDays now (Num (- days)) = Num c ∧ c <= z.
Proof.
  pose proof (WellFormed_run_from ops _ WellFormed_new) as Hwf. fold (run ops) in Hwf.
  split.
  - rewrite searchTasks_empty_wf by apply Hwf.
    unfold SearchService.searchRecentlyUpdated. apply fmap_sublist, sublist_filter.
  - intros t. unfold SearchService.searchRecentlyUpdated.
    rewrite list_elem_of_fmap. split.
    + intros (t' & Heq & [Hle Hin]%list_elem_of_filter).
      assert (t' = t) as -> by (by apply (f_equal TaskListItem.task) in Heq).
      split.
      * by apply (Keyed_elem_of_values Task.id); [apply Hwf|].
      * destruct (Date_addDays now (Num (- days))) as [c|],
          (Date_getTime (Task.updatedAt t)) as [z|]; try done.
        apply bool_decide_eq_true in Hle. eauto.
    + intros (Hget & z & c & Hz & Hc & Hle). exists t. split; [done|].
      apply list_elem_of_filter. split.
      * rewrite Hz, Hc. simpl. by apply bool_decide_eq_true.
      * by apply (Keyed_elem_of_values Task.id); [apply Hwf|].
Qed.
End search_more.

Section parser_more.
Context `{JsRuntime}.
Implicit Types (s : IndexStore.t) (q : SearchQuery) (token : string).










(** X29.  For a query string that is empty or blank, [parseQuery] returns
    the query whose only field is the text [""], and [searchByString] returns
    what [search({})] returns: every task. *)
Theorem parseQuery_blank s queryString now (Hblank : trim queryString = "") :
  SearchService.parseQuery s queryString now
  = Returns (SearchService.with_text SearchQuery.empty (Some ""))
  ∧ SearchService.searchByString s queryString now
    = Returns (IndexStore.searchTasks s SearchQuery.empty now).
Proof.
  assert (SearchService.parseQuery s queryString now
          = Returns (SearchService.with_text SearchQuery.empty (Some ""))) as Hparse.
  { unfold SearchService.parseQuery, SearchService.tokenize. by rewrite Hblank. }
  split; [done|]. unfold SearchService.searchByString. by rewrite Hparse.
Qed.
End parser_more.

Section project_service.
Context `{JsRuntime}.
Implicit Types (s : IndexStore.t) (p project : Project) (id : ID).

Lemma validateProjectFields_nil name order :
  validateProjectFields name order = [] →
  (∀ n, name = Some n → trim n ≠ "" ∧ (String.length n ≤ 100)%nat)
  ∧ (∀ o, order = Some o → num_lt o (Num 0) = false).
Proof.
  unfold validateProjectFields.
  intros (H1 & (H2 & H3)%app_eq_nil)%app_eq_nil. split.
  - intros n ->.
    destruct (bool_decide (n = "") || bool_decide (String.length (trim n) = 0%nat)) eqn:E1;
      [done|].
    destruct (bool_decide (n ≠ "") && bool_decide (100 < String.length n)%nat) eqn:E2;
      [done|].
    apply orb_false_iff in E1 as [Ha Hb]. apply bool_decide_eq_false in Ha, Hb.
    apply andb_false_iff in E2 as [Hc|Hc]; apply bool_decide_eq_false in Hc; [done|].
    split; [|lia]. intros Htrim. by rewrite Htrim in Hb.
  - intros o ->. by destruct (num_lt o (Num 0)).
Qed.

(** X30.  When every stored project passes the checks of
    [validateProjectInput] (a name that is not blank and of at most 100
    characters, an order that is not negative), so does every stored project
    after [create], [update] and [remove] of [ProjectService]; the three leave
    tasks and task indexes untouched; [update] and [remove] of an unknown id
    fail with not-found and leave the store as it was. *)
Theorem ProjectService_keeps_valid s now (Hvalid : AllValidProjects s) :
  (∀ input id, AllValidProjects (ProjectService.create s input id now).2
               ∧ same_tasks_and_indexes s (ProjectService.create s input id now).2)
  ∧ (∀ input, AllValidProjects (ProjectService.update s input now).2
              ∧ same_tasks_and_indexes s (ProjectService.update s input now).2)
  ∧ (∀ id, AllValidProjects (ProjectService.remove s id).2
           ∧ same_tasks_and_indexes s (ProjectService.remove s id).2)
  ∧ (∀ input, ProjectService.byId s (UpdateProjectInput.id input) = None →
       ProjectService.update s input now
       = (failure ("Project with ID " +:+ UpdateProjectInput.id input +:+ " not found"), s))
  ∧ (∀ id, ProjectService.byId s id = None →
       ProjectService.remove s id = (failure ("Project with ID " +:+ id +:+ " not found"), s)).
Proof.
  split_and!.
  - intros input id. unfold ProjectService.create.
    destruct (bool_decide _) eqn:Herr; [simpl; split; [done|by repeat split]|]. simpl.
    split; [|by repeat split].
    apply no_errors in Herr as (Vn & Vo)%validateProjectFields_nil.
    intros id' p. unfold IndexStore.getProject. simpl. rewrite JsMap_get_set.
    case_decide; [|by apply Hvalid]. intros [= <-].
    destruct (Vn _ eq_refl) as [Htrim Hlen]. refine (conj Htrim (conj Hlen _)). simpl.
    destruct (CreateProjectInput.order input) as [o|]; simpl; [by apply Vo|done].
  - intros input. unfold ProjectService.update.
    destruct (IndexStore.getProject s (UpdateProjectInput.id input)) as [existing|] eqn:Hget;
      [|simpl; split; [done|by repeat split]].
    destruct (bool_decide _) eqn:Herr; [simpl; split; [done|by repeat split]|]. simpl.
    split; [|by repeat split].
    apply no_errors in Herr as (Vn & Vo)%validateProjectFields_nil.
    destruct (Hvalid _ _ Hget) as (Htrim & Hlen & Hord).
    intros id' p. unfold IndexStore.getProject. simpl. rewrite JsMap_get_set.
    case_decide; [|by apply Hvalid]. intros [= <-]. unfold ValidProject. simpl.
    destruct (UpdateProjectInput.name input) as [n|]; simpl;
      [destruct (Vn n eq_refl) as [Htrim' Hlen']|];
      (destruct (UpdateProjectInput.order input) as [o|]; simpl;
         [specialize (Vo o eq_refl)|]); done.
  - intros id. unfold ProjectService.remove.
    destruct (IndexStore.getProject s id); [|simpl; split; [done|by repeat split]]. simpl.
    split; [|by repeat split].
    intros id' p. unfold IndexStore.getProject. simpl. rewrite JsMap_get_delete.
    case_decide; [done|by apply Hvalid].
  - intros input Hnone. unfold ProjectService.update, ProjectService.byId in *.
    by rewrite Hnone.
  - intros id Hnone. unfold ProjectService.remove, ProjectService.byId in *. by rewrite Hnone.
Qed.
End project_service.

(* ------------------------------------------------------------------ *)
(** ** The further properties at the fixtures *)

Section store_examples.
#[local] Existing Instance hostRuntime.

Lemma getOverdueTasks_sound_witness :
  taskA ∈ IndexStore.getOverdueTasks (run opsOverdue)
  ∧ IndexStore.getTask (run opsOverdue) "a" = Some taskA
  ∧ Task.status taskA ≠ done.
Proof.
  assert (taskA ∈ IndexStore.getOverdueTasks (run opsOverdue)) as Hin by compute_done.
  destruct (getOverdueTasks_sound opsOverdue taskA Hin) as (Hget & Hst & _).
  split_and!; [exact Hin|exact Hget|exact Hst].
Defined.

Lemma getTasksBy_characterised_witness :
  IndexConsistent storeAB
  ∧ (taskA ∈ IndexStore.getTasksByStatus storeAB todo
     ↔ IndexStore.getTask storeAB (Task.id taskA) = Some taskA ∧ Task.status taskA = todo)
  ∧ (taskA ∈ IndexStore.getTasksByTag storeAB "t-1"
     ↔ IndexStore.getTask storeAB (Task.id taskA) = Some taskA ∧ "t-1" ∈ Task.tags taskA).
Proof.
  destruct (getTasksBy_characterised storeAB taskA storeAB_consistent) as (Hst & Htag & _).
  split_and!; [exact storeAB_consistent|exact (Hst todo)|exact (Htag "t-1")].
Defined.

Lemma storeAB_keyed : Keyed Task.id (IndexStore.tasks storeAB).
Proof. apply (wf_tasks _ (WellFormed_run opsAB)). Qed.

Lemma getAllTasks_order_witness :
  Keyed Task.id (IndexStore.tasks storeAB)
  ∧ IndexStore.getAllTasks (IndexStore.addTask storeAB taskC day1) = [taskA; taskB; taskC]
  ∧ Task.id <$> IndexStore.getAllTasks (IndexStore.updateTask storeAB taskA_done day1)
    = ["a"; "b"]
  ∧ IndexStore.getAllTasks (IndexStore.removeTask storeAB "a") = [taskB].
Proof.
  destruct (getAllTasks_order storeAB storeAB_keyed) as (Hadd & Hupd & Hrem).
  split_and!; [exact storeAB_keyed| | |].
  - exact (proj1 (Hadd taskC day1 eq_refl)).
  - rewrite (Hupd taskA_done day1 (mk_is_Some _ _ eq_refl)). reflexivity.
  - exact (Hrem "a").
Defined.
End store_examples.

Section project_examples.
#[local] Existing Instance hostRuntime.

(** The expectations of the repository's tests of the project lists. *)
Example test_root_projects :
  Project.id <$> IndexStore.getRootProjects (run opsProjects) = ["p-work"]
  ∧ Project.id <$> IndexStore.getChildProjects (run opsProjects) "p-work" = ["p-sub"].
Proof. split; reflexivity. Qed.

Example test_project_tree :
  Project.id <$> IndexStore.getRootProjects (run opsProjectTree) = ["p-work"; "p-home"]
  ∧ Project.id <$> IndexStore.getChildProjects (run opsProjectTree) "p-work"
    = ["p-inbox"; "p-sub"].
Proof. split; reflexivity. Qed.

(** A project whose [order] is [NaN] is accepted by [ProjectService.create],
    and on V8 the three root projects then stay as they are stored: order 3
    before order 1. *)
Example roots_with_NaN_order :
  validateCreateProjectInput (CreateProjectInput.mk "Plan" (Some NaN) None) = []
  ∧ Project.order <$> IndexStore.getRootProjects (run opsProjectsNaN) = [Num 3; NaN; Num 1].
Proof. split; reflexivity. Qed.

Lemma getRootProjects_sorted_witness :
  (∀ p, p ∈ IndexStore.getRootProjects (run opsProjectTree) → Project.order p ≠ NaN)
  ∧ StronglySorted order_le (IndexStore.getRootProjects (run opsProjectTree)).
Proof.
  assert (∀ p, p ∈ IndexStore.getRootProjects (run opsProjectTree) → Project.order p ≠ NaN)
    as Hnum.
  { intros p Hp. change (p ∈ [projectWork; projectHome]) in Hp.
    apply elem_of_cons in Hp as [->|Hp]; [discriminate|].
    apply list_elem_of_singleton in Hp as ->. discriminate. }
  split; [exact Hnum|].
  exact (proj1 (proj2 (proj2 (getRootProjects_sorted (run opsProjectTree))) Hnum)).
Defined.

Lemma getChildProjects_sorted_witness :
  (∀ p, p ∈ IndexStore.getChildProjects (run opsProjectTree) "p-work" →
        Project.order p ≠ NaN)
  ∧ StronglySorted order_le (IndexStore.getChildProjects (run opsProjectTree) "p-work").
Proof.
  assert (∀ p, p ∈ IndexStore.getChildProjects (run opsProjectTree) "p-work" →
               Project.order p ≠ NaN) as Hnum.
  { intros p Hp. change (p ∈ [projectInbox; projectSub]) in Hp.
    apply elem_of_cons in Hp as [->|Hp]; [discriminate|].
    apply list_elem_of_singleton in Hp as ->. discriminate. }
  split; [exact Hnum|].
  exact (proj1 (proj2 (proj2 (proj2 (getChildProjects_sorted (run opsProjectTree) "p-work")))
                      Hnum)).
Defined.

Example hierarchy_example :
  ProjectService.hierarchy 2 (run opsProjects) = Returns [projectWork; projectSub]
  ∧ ProjectService.hierarchy 1 (run opsProjects) = Throws stackOverflow.
Proof. split; reflexivity. Qed.

Lemma hierarchy_parents_first_witness :
  ∃ h, ProjectService.hierarchy 2 (run opsProjects) = Returns h
       ∧ h ≡ₚ ProjectService.all (run opsProjects)
       ∧ comes_before h projectWork projectSub.
Proof.
  assert (∀ p, p ∈ ProjectService.all (run opsProjects) → p = projectSub ∨ p = projectWork)
    as Hall.
  { intros p Hp. change (p ∈ [projectSub; projectWork]) in Hp.
    apply elem_of_cons in Hp as [->|Hp]; [by left|].
    apply list_elem_of_singleton in Hp as ->. by right. }
  destruct (hierarchy_parents_first opsProjects 2 projectLevel) as (h & Hh & Hperm & Hord).
  - intros p q Hp Hq. destruct (Hall p Hp) as [-> | ->].
    + injection Hq as <-. compute. lia.
    + discriminate.
  - intros p Hp. destruct (Hall p Hp) as [-> | ->]; compute; lia.
  - exists h. split_and!; [exact Hh|exact Hperm|].
    apply Hord; [compute_done|reflexivity].
Defined.

Lemma hierarchy_self_parent_witness :
  ProjectService.byId storeAB "p-work" = Some projectWork
  ∧ ProjectService.hierarchy 1000
      (IndexStore.updateProject storeAB
         (updateProject projectWork (UpdateProjectInput.mk "p-work" None None (Some "p-work"))
                        day1))
    = Throws stackOverflow.
Proof.
  split; [reflexivity|].
  assert ("p-work" ≠ "") as Hne by discriminate.
  destruct (hierarchy_self_parent opsAB "p-work" projectWork day1 eq_refl Hne)
    as (_ & _ & _ & Hthrows).
  exact (Hthrows 1000%nat).
Defined.

Lemma storeAB_projects_valid : AllValidProjects storeAB.
Proof.
  intros id p. unfold IndexStore.getProject. simpl.
  case_decide; [|done]. intros [= <-]. compute. split_and!; [discriminate|lia|reflexivity].
Qed.

Lemma ProjectService_keeps_valid_witness :
  AllValidProjects storeAB
  ∧ AllValidProjects
      (ProjectService.create storeAB (CreateProjectInput.mk "Home" None None) "p-home" day1).2
  ∧ ProjectService.remove storeAB "p-none"
    = (failure "Project with ID p-none not found", storeAB).
Proof.
  destruct (ProjectService_keeps_valid storeAB day1 storeAB_projects_valid)
    as (Hcreate & _ & _ & _ & Hremove).
  split_and!; [exact storeAB_projects_valid| |].
  - exact (proj1 (Hcreate (CreateProjectInput.mk "Home" None None) "p-home")).
  - exact (Hremove "p-none" eq_refl).
Defined.
End project_examples.

Section task_service_examples.
#[local] Existing Instance hostRuntime.

Lemma TaskService_keeps_consistent_witness :
  IndexConsistent storeAB
  ∧ IndexConsistent (TaskService.toggleComplete storeAB "a" day1).2
  ∧ IndexConsistent (TaskService.archiveCompleted storeAB day1).2.
Proof.
  destruct (TaskService_keeps_consistent storeAB day1 storeAB_consistent)
    as (_ & _ & _ & Htoggle & _ & _ & _ & _ & _ & Harchive).
  split_and!; [exact storeAB_consistent|exact (Htoggle "a")|exact Harchive].
Defined.

Lemma storeBC_valid : AllValid storeBC.
Proof.
  assert (∀ t, t = taskB ∨ t = taskC → ValidTask t) as Hvalid.
  { intros t Ht. unfold ValidTask.
    refine (conj _ (conj _ (conj _ (conj _ _)))).
    - destruct Ht as [-> | ->]; discriminate.
    - destruct Ht as [-> | ->]; vm_compute; lia.
    - destruct Ht as [-> | ->]; vm_compute; split; discriminate.
    - intros d Hd. destruct Ht as [-> | ->]; [|done]. injection Hd as <-. reflexivity.
    - destruct Ht as [-> | ->]; reflexivity. }
  intros id t. unfold IndexStore.getTask. simpl.
  repeat (case_decide; [intros [= <-]; apply Hvalid; tauto|]). done.
Qed.

Lemma TaskService_keeps_valid_witness :
  AllValid storeBC
  ∧ AllValid (TaskService.setPriority storeBC "c" 1 day1).2
  ∧ AllValid (TaskService.create storeBC (input "  " todo 9 None [] None) "x" day1).2.
Proof.
  destruct (TaskService_keeps_valid storeBC day1 storeBC_valid)
    as (Hcreate & _ & _ & _ & _ & _ & _ & Hpriority & _).
  split_and!; [exact storeBC_valid|exact (Hpriority "c" 1)|].
  exact (Hcreate (input "  " todo 9 None [] None) "x").
Defined.

Example create_rejects_blank_title_and_priority :
  TaskService.create storeBC (input "  " todo 9 None [] None) "x" day1
  = (failure "Validation failed: Title is required, Priority must be between 1 and 5", storeBC).
Proof. reflexivity. Qed.

Lemma toggleComplete_status_witness :
  IndexStore.getTask storeBC "c" = Some taskC
  ∧ Task.status taskC = doing
  ∧ ∃ t1, TaskService.toggleComplete storeBC "c" day1
          = (success t1, IndexStore.updateTask storeBC t1 day1)
          ∧ Task.status t1 = done
          ∧ ∃ t2, (TaskService.toggleComplete (IndexStore.updateTask storeBC t1 day1) "c" day1).1
                  = success t2
                  ∧ Task.status t2 = todo.
Proof.
  split_and!; [reflexivity|reflexivity|].
  destruct (toggleComplete_status storeBC "c" taskC day1 eq_refl eq_refl)
    as (t1 & Hcall & _ & Hst & _ & Htwice).
  exists t1. split_and!; [exact Hcall|exact Hst|].
  destruct (Htwice day1) as (t2 & Hcall2 & Hst2).
  exists t2. split; [by rewrite Hcall2|exact Hst2].
Defined.

Lemma moveToProject_setDueDate_witness :
  IndexStore.getTask storeAB "a" = Some taskA
  ∧ Task.projectId taskA = Some "p-work"
  ∧ ∃ t', TaskService.moveToProject storeAB "a" None day1
          = (success t', IndexStore.updateTask storeAB t' day1)
          ∧ Task.projectId t' = Some "p-work".
Proof.
  split_and!; [reflexivity|reflexivity|].
  destruct (moveToProject_setDueDate storeAB "a" taskA day1 eq_refl) as ((t' & Hcall & Hp) & _).
  exists t'. split; [exact Hcall|exact Hp].
Defined.

Lemma addTag_removeTag_witness :
  IndexStore.getTask storeBC "c" = Some taskC
  ∧ (∃ t1, TaskService.addTag storeBC "c" uuidTag day1
           = (success t1, IndexStore.updateTask storeBC t1 day1)
           ∧ Task.tags t1 = [uuidTag])
  ∧ TaskService.addTag storeBC "c" "t-1" day1
    = (failure "Validation failed: All tags must be valid UUIDs", storeBC).
Proof.
  destruct (addTag_removeTag storeBC "c" taskC uuidTag day1 eq_refl eq_refl)
    as (_ & Hadd & _).
  destruct (addTag_removeTag storeBC "c" taskC "t-1" day1 eq_refl eq_refl)
    as (_ & _ & Hbad).
  split_and!; [reflexivity| |].
  - destruct Hadd as (t1 & Hcall & Htags & _); [by intros ?%elem_of_nil|reflexivity|].
    exists t1. split; [exact Hcall|exact Htags].
  - apply Hbad; [by intros ?%elem_of_nil|reflexivity].
Defined.

Lemma storeAB_status_buckets : BucketsWellFormed (IndexStore.tasksByStatus storeAB).
Proof. apply (wf_byStatus _ (WellFormed_run opsAB)). Qed.

Lemma archiveCompleted_archives_witness :
  IndexConsistent storeAB
  ∧ BucketsWellFormed (IndexStore.tasksByStatus storeAB)
  ∧ (TaskService.archiveCompleted storeAB day1).1 = success 1
  ∧ TaskService.byStatus (TaskService.archiveCompleted storeAB day1).2 done = []
  ∧ Task.status <$> IndexStore.getTask (TaskService.archiveCompleted storeAB day1).2 "b"
    = Some archived.
Proof.
  destruct (archiveCompleted_archives storeAB day1 storeAB_consistent storeAB_status_buckets)
    as (Hcount & Hget & Hnone & _).
  split_and!; [exact storeAB_consistent|exact storeAB_status_buckets|exact Hcount|exact Hnone|].
  rewrite Hget. reflexivity.
Defined.
End task_service_examples.

Section more_examples.
#[local] Existing Instance hostRuntime.

Lemma TagService_update_rename_witness :
  IndexStore.getTag storeAB "t-1" = Some tagUrgent
  ∧ validateUpdateTagInput inputRenameTag = []
  ∧ TagService.byName (IndexStore.updateTag storeAB (updateTag tagUrgent inputRenameTag day1))
                      "Important"
    = Some (updateTag tagUrgent inputRenameTag day1)
  ∧ TagService.byName (IndexStore.updateTag storeAB (updateTag tagUrgent inputRenameTag day1))
                      "Urgent"
    = None.
Proof.
  destruct (TagService_update_rename storeAB inputRenameTag tagUrgent day1
              eq_refl eq_refl eq_refl) as (_ & _ & Hnew & Hold & _).
  split_and!; [reflexivity|reflexivity|exact Hnew|].
  apply Hold. vm_compute. discriminate.
Defined.

Lemma setDataStore_loads_witness :
  NoDup (Task.id <$> DataStore.tasks dataAB)
  ∧ DataRepository.getDataStore (DataRepository.setDataStore storeBC dataAB day1) day0 = dataAB
  ∧ IndexConsistent (DataRepository.setDataStore storeBC dataAB day1).
Proof.
  assert (NoDup (Task.id <$> DataStore.tasks dataAB)) as Htasks.
  { apply (bool_decide_unpack _). vm_compute. exact I. }
  assert (NoDup (Project.id <$> DataStore.projects dataAB)) as Hprojects.
  { apply (bool_decide_unpack _). vm_compute. exact I. }
  assert (NoDup (Tag.id <$> DataStore.tags dataAB)) as Htags.
  { apply (bool_decide_unpack _). vm_compute. exact I. }
  destruct (setDataStore_loads storeBC dataAB day1 Htasks Hprojects Htags) as [Hget Hcons].
  split_and!; [exact Htasks| |exact Hcons].
  rewrite Hget. reflexivity.
Defined.

Lemma searchTasks_dueBefore_witness :
  IndexStore.searchTasks storeAB
    (SearchQuery.mk None None None None None (Some "soon") None) day1 = []
  ∧ ∀ item,
      item ∈ IndexStore.searchTasks storeAB
               (SearchQuery.mk None None None None None (Some "2024-01-01T00:00:00.000Z") None)
               day1 →
      ∃ due z zc, Task.dueAt (TaskListItem.task item) = Some due
                  ∧ Date_getTime due = Num z
                  ∧ Date_getTime "2024-01-01T00:00:00.000Z" = Num zc ∧ z <= zc.
Proof.
  split.
  - refine (proj2 (searchTasks_dueBefore storeAB
                     (SearchQuery.mk None None None None None (Some "soon") None)
                     day1 "soon" eq_refl _) _); [discriminate|reflexivity].
  - refine (proj1 (searchTasks_dueBefore storeAB
                     (SearchQuery.mk None None None None None
                                     (Some "2024-01-01T00:00:00.000Z") None)
                     day1 "2024-01-01T00:00:00.000Z" eq_refl _)).
    discriminate.
Defined.

Lemma searchOverdue_ignores_status_witness :
  Task.status taskB = done
  ∧ IndexStore.hydrate storeAB day1 taskB ∈ SearchService.searchOverdue storeAB day1
  ∧ TaskListItem.isOverdue (IndexStore.hydrate storeAB day1 taskB) = false.
Proof.
  assert (Date_toISOString day1 ≠ "") as Hiso by (vm_compute; discriminate).
  destruct (searchOverdue_ignores_status storeAB day1 Hiso) as [_ Hdone].
  split; [reflexivity|].
  apply (Hdone "b" taskB "2024-01-01T00:00:00.000Z" day0); [reflexivity..| |].
  - vm_compute. reflexivity.
  - vm_compute. discriminate.
Defined.


Lemma parseQuery_blank_witness :
  trim "   " = ""
  ∧ SearchService.searchByString storeAB "   " day1
    = Returns (IndexStore.searchTasks storeAB SearchQuery.empty day1).
Proof.
  split; [reflexivity|].
  exact (proj2 (parseQuery_blank storeAB "   " day1 eq_refl)).
Defined.
End more_examples.
